(** * Financial_analysis_backend: the news-to-sentiment pipeline

    A shallow embedding of [parsing/article_analyzer.py] (text normalizer,
    request dispatcher, response parser and cleaner, [ai_analyzer] and
    [main]), of [parsing/article_parser.py] (the collection of the articles,
    the compound aggregation and the two tables it saves) and of the part of
    [parsing/currency_parser.py] that fills the table of the stocks, with the
    properties of the specification settled against it and further properties
    read off the code.

    Conventions of the embedding.
    - Python [str] values are Rocq [string]s; the character classes, case
      mappings and digits are those of ASCII text.
    - Python [int] is [Z].  The conversion [int(s)] is modelled without
      CPython's limit of 4300 digits, above which it raises [ValueError]; the
      further properties of the response parser are stated within the limit.
    - A Python exception is a value of [exn]; a function that can raise
      returns a [result].
    - A Python [float] is the rational number it denotes, kept in lowest
      terms; every float operation rounds to the nearest binary64 value, ties
      to even (see [PyFloat]).
    - What lies outside the repository (the tokenizers, the language model,
      the pages, the price histories, the database engine) is a parameter:
      a function, or a record of what the code reads from it. *)

From Stdlib Require Import ZArith QArith Qabs List String Ascii Bool Lia Arith.
From Stdlib Require Import SpecFloat Permutation.
Import ListNotations.

Open Scope string_scope.
Open Scope Z_scope.

(** ** Exceptions and results *)

Inductive exn : Type :=
| IndexError
| ValueError
| ZeroDivisionError
| OverflowError
| BackendError (msg : string).

Inductive result (A : Type) : Type :=
| Ok (a : A)
| Raise (e : exn).

Arguments Ok {A} a.
Arguments Raise {A} e.

Definition bind {A B : Type} (r : result A) (k : A -> result B) : result B :=
  match r with
  | Ok a => k a
  | Raise e => Raise e
  end.

Notation "x <- r ;; k" := (bind r (fun x => k))
  (at level 61, r at next level, right associativity).

Definition is_ok {A : Type} (r : result A) : bool :=
  match r with Ok _ => true | Raise _ => false end.

(** ** Python strings (ASCII) *)

Module PyStr.

Definition code (c : ascii) : nat := nat_of_ascii c.

Definition in_range (lo hi : nat) (c : ascii) : bool :=
  (lo <=? code c)%nat && (code c <=? hi)%nat.

Definition is_digit (c : ascii) : bool := in_range 48 57 c.
Definition is_upper (c : ascii) : bool := in_range 65 90 c.
Definition is_lower (c : ascii) : bool := in_range 97 122 c.

(** [\w]: letters, digits and the underscore. *)
Definition is_word (c : ascii) : bool :=
  is_digit c || is_upper c || is_lower c || (code c =? 95)%nat.

(** [\s]: tab, newline, vertical tab, form feed, carriage return, the four
    separators 28..31 and the space. *)
Definition is_space (c : ascii) : bool :=
  in_range 9 13 c || in_range 28 31 c || (code c =? 32)%nat.

Definition lower_char (c : ascii) : ascii :=
  if is_upper c then ascii_of_nat (code c + 32) else c.

Definition upper_char (c : ascii) : ascii :=
  if is_lower c then ascii_of_nat (code c - 32) else c.

(** [s.lower()] *)
Fixpoint lower (s : string) : string :=
  match s with
  | EmptyString => EmptyString
  | String c s' => String (lower_char c) (lower s')
  end.

(** [s.capitalize()]: first character upper-cased, the rest lower-cased. *)
Definition capitalize (s : string) : string :=
  match s with
  | EmptyString => EmptyString
  | String c s' => String (upper_char c) (lower s')
  end.

(** [s.replace(c, '')] for a one-character [c]. *)
Fixpoint remove_char (c : ascii) (s : string) : string :=
  match s with
  | EmptyString => EmptyString
  | String d s' =>
      if Ascii.eqb d c then remove_char c s' else String d (remove_char c s')
  end.

(** [sep.join(parts)] *)
Fixpoint join (sep : string) (parts : list string) : string :=
  match parts with
  | [] => EmptyString
  | [p] => p
  | p :: ps => p ++ sep ++ join sep ps
  end.

(** [s[i]] for a non-negative index: a one-character string. *)
Definition index (s : string) (i : nat) : result string :=
  match String.get i s with
  | Some c => Ok (String c EmptyString)
  | None => Raise IndexError
  end.

(** [needle in s] *)
Fixpoint contains (needle s : string) : bool :=
  String.prefix needle s ||
  match s with
  | EmptyString => false
  | String _ s' => contains needle s'
  end.

Definition digit_value (c : ascii) : Z := Z.of_nat (code c) - 48.

Fixpoint int_digits (acc : Z) (s : string) : result Z :=
  match s with
  | EmptyString => Ok acc
  | String c s' =>
      if is_digit c then int_digits (10 * acc + digit_value c) s'
      else Raise ValueError
  end.

(** [int(s)] on the strings the parser passes to it: a non-empty run of
    decimal digits.  Anything else raises [ValueError].  (CPython raises it
    also for a run of more than 4300 digits, the default of
    [sys.int_max_str_digits]; the model has no such limit.) *)
Definition int (s : string) : result Z :=
  match s with
  | EmptyString => Raise ValueError
  | _ => int_digits 0 s
  end.

Fixpoint all_chars (p : ascii -> bool) (s : string) : bool :=
  match s with
  | EmptyString => true
  | String c s' => p c && all_chars p s'
  end.

End PyStr.

(** ** The fragment of Python's [re] the module uses

    Every pattern of the source is a concatenation of literal characters,
    single-character classes, greedy [+] over a class and capture groups that
    do not nest.  [match_here] is the backtracking matcher anchored at the
    start of its input: it returns the captured groups, in order, and the
    unconsumed rest. *)

Module Re.

Inductive atom : Type :=
| Lit (c : ascii)
| Class (p : ascii -> bool)
| Plus (p : ascii -> bool)
| Open
| Close.

Definition pattern : Type := list atom.

Fixpoint lits (s : string) : pattern :=
  match s with
  | EmptyString => []
  | String c s' => Lit c :: lits s'
  end.

(** The group being captured, if any, is accumulated in reverse. *)
Definition push (c : ascii) (cur : option string) : option string :=
  match cur with
  | Some acc => Some (String c acc)
  | None => None
  end.

Fixpoint rev_string (acc s : string) : string :=
  match s with
  | EmptyString => acc
  | String c s' => rev_string (String c acc) s'
  end.

Fixpoint match_here (pat : pattern) (s : string) (cur : option string)
  (caps : list string) {struct pat} : option (list string * string) :=
  match pat with
  | [] => Some (List.rev caps, s)
  | Lit c :: pat' =>
      match s with
      | String d s' =>
          if Ascii.eqb d c then match_here pat' s' (push d cur) caps else None
      | EmptyString => None
      end
  | Class p :: pat' =>
      match s with
      | String d s' =>
          if p d then match_here pat' s' (push d cur) caps else None
      | EmptyString => None
      end
  | Plus p :: pat' =>
      (fix plus (s : string) (cur : option string) {struct s} :=
         match s with
         | String d s' =>
             if p d then
               match plus s' (push d cur) with
               | Some r => Some r
               | None => match_here pat' s' (push d cur) caps
               end
             else None
         | EmptyString => None
         end) s cur
  | Open :: pat' => match_here pat' s (Some EmptyString) caps
  | Close :: pat' =>
      match cur with
      | Some acc => match_here pat' s None (rev_string EmptyString acc :: caps)
      | None => match_here pat' s None caps
      end
  end.

Definition match_at (pat : pattern) (s : string) : option (list string * string) :=
  match_here pat s None [].

(** Left-to-right scan shared by [findall] and [sub]: at each position try
    the pattern; after a match resume at its end.  [skip] counts the
    characters of the current match still to step over.  (No pattern of the
    source matches the empty string.) *)
Fixpoint findall_from (pat : pattern) (skip : nat) (s : string)
  : list (list string) :=
  match skip with
  | S k =>
      match s with
      | String _ s' => findall_from pat k s'
      | EmptyString => []
      end
  | O =>
      match match_at pat s with
      | Some (caps, rest) =>
          caps ::
          match s with
          | String _ s' =>
              findall_from pat (String.length s' - String.length rest) s'
          | EmptyString => []
          end
      | None =>
          match s with
          | String _ s' => findall_from pat 0 s'
          | EmptyString => []
          end
      end
  end.

(** [pat.findall(s)]: the groups of every non-overlapping match. *)
Definition findall (pat : pattern) (s : string) : list (list string) :=
  findall_from pat 0 s.

Fixpoint sub_from (pat : pattern) (repl : list string -> string)
  (skip : nat) (s : string) : string :=
  match skip with
  | S k =>
      match s with
      | String _ s' => sub_from pat repl k s'
      | EmptyString => EmptyString
      end
  | O =>
      match match_at pat s with
      | Some (caps, rest) =>
          repl caps ++
          match s with
          | String _ s' =>
              sub_from pat repl (String.length s' - String.length rest) s'
          | EmptyString => EmptyString
          end
      | None =>
          match s with
          | String c s' => String c (sub_from pat repl 0 s')
          | EmptyString => EmptyString
          end
      end
  end.

(** [pat.sub(repl, s)] *)
Definition sub (pat : pattern) (repl : list string -> string) (s : string)
  : string :=
  sub_from pat repl 0 s.

End Re.

(** ** [parsing/article_analyzer.py]: patterns and the response parser *)

Import PyStr Re.

(** [r'\(\w+\)'] *)
Definition SUPERFLUOUS_PATTERN_1 : pattern :=
  [Lit "("; Plus is_word; Lit ")"].

(** [r'\(NASDAQ: \w+\)'] *)
Definition SUPERFLUOUS_PATTERN_2 : pattern :=
  (lits "(NASDAQ: " ++ [Plus is_word; Lit ")"])%list.

(** [r'[^\w\s]'] *)
Definition PUNCTUATION_PATTERN : pattern :=
  [Class (fun c => negb (is_word c || is_space c))].

(** [r'\(decrease (\d+%) \| increase (\d+%)\)'] *)
Definition FORECAST_PATTERN_1 : pattern :=
  (lits "(decrease " ++ [Open; Plus is_digit; Lit "%"; Close] ++
   lits " | increase " ++ [Open; Plus is_digit; Lit "%"; Close] ++ lits ")")%list.

(** [r'\(increase (\d+%) \| decrease (\d+%)\)'] *)
Definition FORECAST_PATTERN_2 : pattern :=
  (lits "(increase " ++ [Open; Plus is_digit; Lit "%"; Close] ++
   lits " | decrease " ++ [Open; Plus is_digit; Lit "%"; Close] ++ lits ")")%list.

(** [r'\(informativeness: (\d+%)\)'] *)
Definition INFORMATIVENESS_PATTERN : pattern :=
  (lits "(informativeness: " ++ [Open; Plus is_digit; Lit "%"; Close] ++
   lits ")")%list.

(** The dictionary [get_rate] returns; its three keys are always present. *)
Record rating : Type := {
  Decrease_Probability : Z;
  Increase_Probability : Z;
  Informativeness : Z
}.

(** The elements the list [forecasts] holds in [get_rate]: a tuple of groups
    (a match of a forecast pattern) or a plain string (the default list). *)
Inductive pyobj : Type :=
| PStr (s : string)
| PTuple (items : list string).

(** [o[i]]: the [i]-th item of a tuple, the [i]-th character of a string. *)
Definition subscript (o : pyobj) (i : nat) : result string :=
  match o with
  | PStr s => index s i
  | PTuple items =>
      match nth_error items i with
      | Some x => Ok x
      | None => Raise IndexError
      end
  end.

(** [l[i]] on a list. *)
Definition item {A : Type} (l : list A) (i : nat) : result A :=
  match nth_error l i with
  | Some x => Ok x
  | None => Raise IndexError
  end.

(** [len(o)] *)
Definition len (o : pyobj) : nat :=
  match o with
  | PStr s => String.length s
  | PTuple items => List.length items
  end.

Definition percent : ascii := "%"%char.

Definition get_rate (summary : string) : result rating :=
  let lower_summary := lower summary in
  let forecasts := map PTuple (findall FORECAST_PATTERN_1 lower_summary) in
  forecasts <-
    match forecasts with
    | [] =>
        let swap := map PTuple (findall FORECAST_PATTERN_2 lower_summary) in
        match swap with
        | swap0 :: _ =>
            if (2 <=? len swap0)%nat then
              d <- subscript swap0 1 ;;
              i <- subscript swap0 0 ;;
              Ok [PTuple [d; i]]
            else Ok forecasts
        | [] => Ok [PStr "50%"; PStr "50%"]
        end
    | _ :: _ => Ok forecasts
    end ;;
  informativeness <-
    match findall INFORMATIVENESS_PATTERN lower_summary with
    | [] => Ok 50
    | groups :: _ =>
        g <- item groups 0 ;;
        int (remove_char percent g)
    end ;;
  f0 <- item forecasts 0 ;;
  d <- subscript f0 0 ;;
  decrease <- int (remove_char percent d) ;;
  f0 <- item forecasts 0 ;;
  i <- subscript f0 1 ;;
  increase <- int (remove_char percent i) ;;
  Ok {| Decrease_Probability := decrease;
        Increase_Probability := increase;
        Informativeness := informativeness |}.

(** ** [parsing/article_analyzer.py]: the text normalizer

    NLTK is not part of the repository: its sentence and word tokenizers and
    its English stopword list are parameters of the embedding. *)

Class Nltk : Type := {
  sent_tokenize : string -> list string;
  word_tokenize : string -> list string;
  (** membership in [set(stopwords.words("english"))] *)
  stop_words : string -> bool
}.

Definition delete_superfluous (article : string) : string :=
  let article := sub SUPERFLUOUS_PATTERN_1 (fun _ => "") article in
  sub SUPERFLUOUS_PATTERN_2 (fun _ => "") article.

Definition delete_punctuation (article : string) : string :=
  sub PUNCTUATION_PATTERN (fun _ => "") article.

Definition sentence_tokenization `{Nltk} (sentence : string) : list string :=
  word_tokenize sentence.

Definition article_tokenization `{Nltk} (article : string) : list string :=
  sent_tokenize article.

Definition delete_stop_words `{Nltk} (article_list : list string) : list string :=
  filter (fun word => negb (stop_words (lower word))) article_list.

(** [r'([.!?])(\w)'] and its replacement [r'\1 \2'] *)
Definition SPACING_PATTERN : pattern :=
  [Open; Class (fun c => (c =? ".")%char || (c =? "!")%char || (c =? "?")%char);
   Close; Open; Class is_word; Close].

Definition spacing_repl (groups : list string) : string :=
  nth 0 groups "" ++ " " ++ nth 1 groups "".

Definition text_processing `{Nltk} (article_text : string) : string :=
  let sentences := article_tokenization article_text in
  let words_list :=
    map (fun sentence =>
           let sentence := delete_superfluous sentence in
           let sentence := delete_punctuation sentence in
           let tokenized_sentence := sentence_tokenization sentence in
           delete_stop_words tokenized_sentence) sentences in
  let sentences_list :=
    map (fun word_list =>
           let sentence := join " " word_list in
           let sentence := capitalize sentence in
           sub SPACING_PATTERN spacing_repl sentence) words_list in
  join ". " sentences_list.

(** ** [parsing/article_analyzer.py]: the model pool and [request_processing] *)

(** A [GenerativeModel] handle, told apart by the model name it was created
    with. *)
Definition model : Type := string.

(** What [model.generate_content(request)] does: it returns a response
    object ([None] stands for a response that is falsy) or raises an exception
    whose [str] is [msg]. *)
Record response : Type := { text : string }.

Inductive outcome : Type :=
| Returns (r : option response)
| Fails (msg : string).

(** The external backend, as seen by one call of [request_processing]: the
    outcome of the call made at attempt [attempt] (counted from 0) through
    handle [m]. *)
Definition backend : Type := nat -> model -> string -> outcome.

(** What a run leaves behind besides its result: log lines and sleeps, in
    order. *)
Inductive event : Type :=
| LogCreatingModels
| LogAttempt (n : nat)
| Sleep (secs : Z)
| LogCompleted
| Log429 (delay : Z)
| LogError (msg : string)
| LogMaxRetries.

Definition create_models : list model * list event :=
  (["gemini-1.5-flash-001"; "gemini-1.5-flash-001"; "gemini-1.5-flash-001"],
   [LogCreatingModels]).

(** [MODELS.pop()]: the last handle of the list and the list without it. *)
Definition pop (models : list model) : result (model * list model) :=
  match List.rev models with
  | [] => Raise IndexError
  | m :: rest => Ok (m, List.rev rest)
  end.

(** The outcome of a call: the value returned or the exception raised, the
    pool [MODELS] as the call leaves it, and the events of the call. *)
Record run : Type := {
  returned : result (option response);
  MODELS : list model;
  trace : list event
}.

Definition max_retries : nat := 6.
Definition backoff_factor : Z := 5.

(** The body of [for attempt in range(max_retries)], followed by the code
    after the loop. *)
Fixpoint attempt_loop (generate_content : backend) (request : string)
  (range : list nat) (delay : Z) (models : list model) (events : list event)
  : run :=
  match range with
  | [] =>
      {| returned := Ok None; MODELS := models;
         trace := (events ++ [LogMaxRetries])%list |}
  | attempt :: range' =>
      match pop models with
      | Raise e => {| returned := Raise e; MODELS := models; trace := events |}
      | Ok (m, models) =>
          let events := (events ++ [LogAttempt (attempt + 1)])%list in
          match generate_content attempt m request with
          | Returns (Some r) =>
              {| returned := Ok (Some r); MODELS := models;
                 trace := (events ++ [Sleep 10; LogCompleted])%list |}
          | Returns None =>
              attempt_loop generate_content request range' delay models events
          | Fails msg =>
              if contains "429" msg then
                attempt_loop generate_content request range'
                  (delay + backoff_factor) (models ++ [m])%list
                  (events ++ [Log429 delay; Sleep delay])%list
              else
                {| returned := Raise (BackendError msg); MODELS := models;
                   trace := (events ++ [LogError msg])%list |}
          end
      end
  end.

(** [if not MODELS: MODELS = create_models()] *)
Definition populate (models : list model) : list model * list event :=
  match models with
  | [] => create_models
  | _ :: _ => (models, [])
  end.

Definition request_processing (generate_content : backend) (request : string)
  (models : list model) : run :=
  let '(models, events) := populate models in
  attempt_loop generate_content request (List.seq 0 max_retries) 10 models events.

(** The attempts that ended in a 429 warning. *)
Fixpoint rate_limited_attempts (events : list event) : nat :=
  match events with
  | Log429 _ :: rest => S (rate_limited_attempts rest)
  | _ :: rest => rate_limited_attempts rest
  | [] => O
  end.

(** ['429' in str(e)] on the outcome of a call. *)
Definition is_rate_limited (o : outcome) : bool :=
  match o with
  | Fails msg => contains "429" msg
  | Returns _ => false
  end.

(** The events of [k] rate-limited attempts in a row, the first one being
    attempt [start] (counted from 0) with the delay at [delay]. *)
Fixpoint retry_events (start k : nat) (delay : Z) : list event :=
  match k with
  | O => []
  | S k' =>
      LogAttempt (start + 1) :: Log429 delay :: Sleep delay ::
      retry_events (S start) k' (delay + backoff_factor)
  end.

(** The delays slept before a retry: the sleeps that follow a 429 warning. *)
Fixpoint retry_delays (events : list event) : list Z :=
  match events with
  | Log429 _ :: Sleep d :: rest => d :: retry_delays rest
  | _ :: rest => retry_delays rest
  | [] => []
  end.

Fixpoint attempts_made (events : list event) : nat :=
  match events with
  | LogAttempt _ :: rest => S (attempts_made rest)
  | _ :: rest => attempts_made rest
  | [] => O
  end.

(** ** Python floats

    A finite binary64 number is modelled by the rational it denotes, in lowest
    terms.  An operation computes its exact rational result and rounds it to
    the nearest binary64 number, ties to even: the mantissa has 53 bits above
    the subnormal range, whose unit is [2 ^ -1074]. *)

Module PyFloat.

Definition float : Type := Q.

(** The integer nearest to [p / q], ties to even, for [0 < q]. *)
Definition rhe_div (p q : Z) : Z :=
  let d := p / q in
  let r := p mod q in
  if 2 * r <? q then d
  else if q <? 2 * r then d + 1
  else if Z.even d then d else d + 1.

(** [floor (log2 (a / b))] for [0 < a] and [0 < b]. *)
Definition ilog2_quot (a b : Z) : Z :=
  let e := Z.log2 a - Z.log2 b in
  let above := if 0 <=? e then b * 2 ^ e <=? a else b <=? a * 2 ^ (- e) in
  if above then e else e - 1.

(** The exponent of the unit in the last place of the binade of [a / b]. *)
Definition ulp_exp (a b : Z) : Z := Z.max (ilog2_quot a b - 52) (-1074).

(** [a / b] in units of [2 ^ k], rounded to the nearest integer. *)
Definition scaled_round (a b k : Z) : Z :=
  if 0 <=? k then rhe_div a (b * 2 ^ k) else rhe_div (a * 2 ^ (- k)) b.

(** The rational [n * 2 ^ k]. *)
Definition dyadic (n k : Z) : Q :=
  Qred (if 0 <=? k then inject_Z (n * 2 ^ k) else Qmake n (Z.to_pos (2 ^ (- k)))).

(** The binary64 number nearest to [a / b], for [b <> 0]. *)
Definition nearest (a b : Z) : float :=
  if a =? 0 then 0%Q
  else
    let k := ulp_exp (Z.abs a) (Z.abs b) in
    let v := dyadic (scaled_round (Z.abs a) (Z.abs b) k) k in
    if Z.sgn a * Z.sgn b <? 0 then Qred (Qopp v) else v.

(** A rounded result of magnitude [2 ^ 1024] or more does not fit. *)
Definition too_large (x : float) : bool :=
  Qle_bool (inject_Z (2 ^ 1024)) (Qabs x).

(** [a / b] on two [int]s. *)
Definition truediv (a b : Z) : result float :=
  if b =? 0 then Raise ZeroDivisionError
  else
    let x := nearest a b in
    if too_large x then Raise OverflowError else Ok x.

(** [round(x, 2)]: [x] is rounded to two decimals exactly (ties to even) and
    the decimal result is converted back to the nearest float. *)
Definition round2 (x : float) : float :=
  nearest (rhe_div (Qnum x * 100) (Zpos (Qden x))) 100.

(** [x + y] (below the overflow threshold). *)
Definition add (x y : float) : float :=
  let s := Qred (x + y) in
  nearest (Qnum s) (Zpos (Qden s)).

(** The float a decimal literal [num / den] denotes, e.g. [33.33]. *)
Definition literal (num den : Z) : float := nearest num den.

End PyFloat.

(** ** [parsing/article_parser.py]: the compound sentiment *)

Import PyFloat.

(** The three accumulators of the loop of [calc_compound]. *)
Definition accumulate (acc : Z * Z * Z) (news_rate : rating) : Z * Z * Z :=
  let '(rise, fall, inform) := acc in
  (rise + Increase_Probability news_rate * Informativeness news_rate,
   fall + Decrease_Probability news_rate * Informativeness news_rate,
   inform + Informativeness news_rate).

Definition calc_compound (rating_list : list rating) : result (float * float) :=
  let '(rise, fall, inform) := fold_left accumulate rating_list (0, 0, 0) in
  fall_prob <- truediv fall inform ;;
  rise_prob <- truediv rise inform ;;
  Ok (fall_prob, rise_prob).

(** A row of the table [stock_compound]. *)
Record SentimentCompound : Type := {
  stock_id : Z;
  fall_probability : float;
  rise_probability : float
}.

(** The aggregation of the specification: [calc_compound] followed by the
    rounding [save_compound] applies to both values. *)
Definition aggregate (rating_list : list rating) : result (float * float) :=
  probs <- calc_compound rating_list ;;
  Ok (round2 (fst probs), round2 (snd probs)).

(** The values [fetch_article_content] stores per company:
    [[titles_list, links_list, summary_list, rating_list]]. *)
Record company_articles : Type := {
  titles_list : list string;
  links_list : list string;
  summary_list : list string;
  rating_list : list rating
}.

(** The loop of [save_compound] over [article_dict.items()]; [stocks] is the
    table [Stock], looked up by title. *)
Fixpoint stock_compounds (stocks : string -> option Z)
  (article_dict : list (string * company_articles))
  : result (list SentimentCompound) :=
  match article_dict with
  | [] => Ok []
  | (company, values_list) :: rest =>
      match stocks company with
      | Some id =>
          probs <- aggregate (rating_list values_list) ;;
          compounds <- stock_compounds stocks rest ;;
          Ok ({| stock_id := id;
                 fall_probability := fst probs;
                 rise_probability := snd probs |} :: compounds)
      | None => stock_compounds stocks rest
      end
  end.

(** [save_compound]: the table is emptied and committed first, so an
    exception of the loop leaves it empty; otherwise the new rows replace the
    old ones. *)
Definition save_compound (stocks : string -> option Z)
  (article_dict : list (string * company_articles))
  (table : list SentimentCompound) : result unit * list SentimentCompound :=
  match stock_compounds stocks article_dict with
  | Ok compounds => (Ok tt, compounds)
  | Raise e => (Raise e, [])
  end.

(** ** Further functions of the source *)

(** [s.replace(old, new)]: the occurrences of [old] are found from left to
    right, without overlap.  [skip] counts the characters of the current
    occurrence still to step over.  With an empty [old], [new] is put before
    every character and at the end. *)
Fixpoint replace_from (old new : string) (skip : nat) (s : string) : string :=
  match skip with
  | S k =>
      match s with
      | String _ s' => replace_from old new k s'
      | EmptyString => EmptyString
      end
  | O =>
      if String.prefix old s then
        new ++
        match s with
        | String c s' =>
            match old with
            | EmptyString => String c (replace_from old new 0 s')
            | String _ old' => replace_from old new (String.length old') s'
            end
        | EmptyString => EmptyString
        end
      else
        match s with
        | String c s' => String c (replace_from old new 0 s')
        | EmptyString => EmptyString
        end
  end.

Definition replace (old new s : string) : string := replace_from old new 0 s.

(** ** [parsing/article_parser.py]: [normalize_company_name] *)

Definition normalize_company_name (company : string) : string :=
  let company_name := replace ", Inc." "" company in
  let company_name := replace " Inc." "" company_name in
  company_name.

(** ** [parsing/currency_parser.py]: [get_company_name] *)

(** [cell] is what [row.find('td', ...)] finds: the text of the cell, or
    [None], whose [.text] raises the [AttributeError] the function catches. *)
Definition get_company_name (cell : option string) : option string :=
  match cell with
  | Some text =>
      let company_name := text in
      let company_name := replace ", Inc." "" company_name in
      let company_name := replace " Inc." "" company_name in
      Some company_name
  | None => None
  end.

(** ** Regular expressions with repetition, alternation and [\b] *)

(** The patterns of [response_processing] need more than [Re] has: greedy
    and lazy repetition of a character class, alternatives, and the word
    boundary, which looks at the character before the position.  Groups are
    not needed.  The matcher backtracks in the order of Python's [re]. *)
Module Rx.

Inductive atom : Type :=
| Lit (c : ascii)
| Class (p : ascii -> bool)
| Star (p : ascii -> bool)
| LazyStar (p : ascii -> bool)
| Plus (p : ascii -> bool)
| WordBoundary.

(** A sequence of atoms, and the alternatives [a|b|...] of a pattern. *)
Definition pattern : Type := list atom.
Definition regex : Type := list pattern.

Fixpoint lits (s : string) : pattern :=
  match s with
  | EmptyString => []
  | String c s' => Lit c :: lits s'
  end.

(** Is the character next to a position, if there is one, a word
    character? *)
Definition word_at (c : option ascii) : bool :=
  match c with
  | Some c => is_word c
  | None => false
  end.

Definition head (s : string) : option ascii :=
  match s with
  | String c _ => Some c
  | EmptyString => None
  end.

(** [match_here pat prev s]: the text left after a match of [pat] at the
    start of [s], where [prev] is the character before [s]. *)
Fixpoint match_here (pat : pattern) (prev : option ascii) (s : string)
  {struct pat} : option string :=
  match pat with
  | [] => Some s
  | Lit c :: pat' =>
      match s with
      | String d s' =>
          if Ascii.eqb d c then match_here pat' (Some d) s' else None
      | EmptyString => None
      end
  | Class p :: pat' =>
      match s with
      | String d s' => if p d then match_here pat' (Some d) s' else None
      | EmptyString => None
      end
  | Star p :: pat' =>
      (fix star (prev : option ascii) (s : string) {struct s} :=
         match s with
         | String d s' =>
             if p d then
               match star (Some d) s' with
               | Some r => Some r
               | None => match_here pat' prev s
               end
             else match_here pat' prev s
         | EmptyString => match_here pat' prev s
         end) prev s
  | LazyStar p :: pat' =>
      (fix lazy (prev : option ascii) (s : string) {struct s} :=
         match match_here pat' prev s with
         | Some r => Some r
         | None =>
             match s with
             | String d s' => if p d then lazy (Some d) s' else None
             | EmptyString => None
             end
         end) prev s
  | Plus p :: pat' =>
      (fix plus (prev : option ascii) (s : string) {struct s} :=
         match s with
         | String d s' =>
             if p d then
               match plus (Some d) s' with
               | Some r => Some r
               | None => match_here pat' (Some d) s'
               end
             else None
         | EmptyString => None
         end) prev s
  | WordBoundary :: pat' =>
      if xorb (word_at prev) (word_at (head s)) then match_here pat' prev s
      else None
  end.

(** The first alternative that matches. *)
Fixpoint match_at (r : regex) (prev : option ascii) (s : string)
  : option string :=
  match r with
  | [] => None
  | pat :: r' =>
      match match_here pat prev s with
      | Some rest => Some rest
      | None => match_at r' prev s
      end
  end.

(** [re.sub(r, repl, s)] for a replacement without group references: at each
    position the pattern is tried; after a match the scan resumes at its
    end.  [skip] counts the characters of the current match still to step
    over.  (No pattern of the source matches the empty string.) *)
Fixpoint sub_from (r : regex) (repl : string) (skip : nat)
  (prev : option ascii) (s : string) {struct s} : string :=
  match skip with
  | S k =>
      match s with
      | String c s' => sub_from r repl k (Some c) s'
      | EmptyString => EmptyString
      end
  | O =>
      match match_at r prev s with
      | Some rest =>
          repl ++
          match s with
          | String c s' =>
              sub_from r repl (String.length s' - String.length rest)
                (Some c) s'
          | EmptyString => EmptyString
          end
      | None =>
          match s with
          | String c s' => String c (sub_from r repl 0 (Some c) s')
          | EmptyString => EmptyString
          end
      end
  end.

Definition sub (r : regex) (repl : string) (s : string) : string :=
  sub_from r repl 0 None s.

End Rx.

(** ** [parsing/article_analyzer.py]: [response_processing] *)

Definition newline : ascii := "010"%char.

(** [.]: any character but the newline. *)
Definition dot (c : ascii) : bool := negb (Ascii.eqb c newline).

(** The list [patterns_to_remove].  Its first two string literals are
    adjacent, without a comma between them, so that Python joins them into
    one pattern, [\*\*.*?\*\*|##.*?##', '\n\s*\n', '\n\n]: the second
    alternative asks for the quotes and commas literally. *)
Definition patterns_to_remove : list Rx.regex :=
  [ [ (Rx.lits "**" ++ [Rx.LazyStar dot] ++ Rx.lits "**")%list;
      (Rx.lits "##" ++ [Rx.LazyStar dot] ++ Rx.lits "##', '" ++
       [Rx.Lit newline; Rx.Star is_space; Rx.Lit newline] ++ Rx.lits "', '" ++
       [Rx.Lit newline; Rx.Lit newline])%list ];
    [ (Rx.lits "##" ++ [Rx.Star dot])%list ];
    [ [Rx.Lit "("; Rx.LazyStar dot; Rx.Lit ")"] ];
    [ [Rx.WordBoundary; Rx.Plus is_digit; Rx.Lit "."] ];
    [ [Rx.Lit "*"] ] ].

(** [r'\n+'] *)
Definition NEWLINES : Rx.regex := [ [Rx.Plus (fun c => Ascii.eqb c newline)] ].

(** [s.lstrip()], [s.rstrip()] and [s.strip()] *)
Fixpoint lstrip (s : string) : string :=
  match s with
  | String c s' => if is_space c then lstrip s' else s
  | EmptyString => EmptyString
  end.

Fixpoint rstrip (s : string) : string :=
  match s with
  | String c s' =>
      match rstrip s' with
      | EmptyString => if is_space c then EmptyString else String c EmptyString
      | r => String c r
      end
  | EmptyString => EmptyString
  end.

Definition strip (s : string) : string := rstrip (lstrip s).

Definition response_processing (response : string) : string :=
  let response :=
    fold_left (fun response pattern => Rx.sub pattern "" response)
              patterns_to_remove response in
  let response := Rx.sub NEWLINES (String newline "") response in
  let response := strip response in
  response.

(** ** [parsing/article_analyzer.py]: [ai_analyzer] and [main] *)

(** The request [ai_analyzer] builds for an article. *)
Definition ai_request (article company_name : string) : string :=
  "I have several financial articles about " ++ company_name ++
  ". I want you to analyze each one in turn " ++
  "and provide the result in the form of: 3 sentences that best describe what the article is about, " ++
  "and also I want you to provide a forecast based on this news, with what chance the stock price will " ++
  "go up and with what chance it will go down in the format: '(decrease 30% | increase 70%)' - the total" ++
  " should be 100%. And also how useful is this article for predicting the rise/fall of a stock in the " ++
  "format '(Informativeness: 50%)'. Here is one of the articles: " ++
  String newline (String newline article).

(** The exceptions of the callers of the dispatcher: those of [exn], and the
    [AttributeError] of [None.text]. *)
Inductive exception : Type :=
| Builtin (e : exn)
| AttributeError.

Inductive completion (A : Type) : Type :=
| Return (a : A)
| Throw (e : exception).

Arguments Return {A} a.
Arguments Throw {A} e.

(** A call that goes through the dispatcher: what it returns or raises, the
    pool [MODELS] as it leaves it, and the events of the dispatch. *)
Record call (A : Type) : Type := {
  value : completion A;
  pool : list model;
  log : list event
}.

Arguments value {A} c.
Arguments pool {A} c.
Arguments log {A} c.

Definition ai_analyzer (generate_content : backend)
  (article company_name : string) (models : list model) : call string :=
  let request := ai_request article company_name in
  let out := request_processing generate_content request models in
  {| value :=
       match returned out with
       | Ok (Some r) => Return (text r)
       | Ok None => Throw AttributeError
       | Raise e => Throw (Builtin e)
       end;
     pool := MODELS out;
     log := trace out |}.

Definition main `{Nltk} (generate_content : backend)
  (article company_name : string) (models : list model)
  : call (string * rating) :=
  let processed_article := text_processing article in
  let analysis := ai_analyzer generate_content processed_article company_name
                    models in
  {| value :=
       match value analysis with
       | Return summary =>
           match get_rate summary with
           | Ok rating =>
               let ready_article := response_processing summary in
               Return (ready_article, rating)
           | Raise e => Throw (Builtin e)
           end
       | Throw e => Throw e
       end;
     pool := pool analysis;
     log := log analysis |}.

(** ** [parsing/article_parser.py]: collecting and saving the articles *)

(** The table [Stock]: ids and titles.  [filter_by(title=...).first()] finds
    the first row with a title. *)
Definition stock_table : Type := list (Z * string).

Fixpoint first_stock (table : stock_table) (title : string) : option Z :=
  match table with
  | [] => None
  | (id, title') :: rest =>
      if String.eqb title' title then Some id else first_stock rest title
  end.

(** [d[k] = v] on a dictionary kept as the list of its items: a key that is
    present keeps its place. *)
Fixpoint dict_set {V : Type} (d : list (string * V)) (k : string) (v : V)
  : list (string * V) :=
  match d with
  | [] => [(k, v)]
  | (k', v') :: rest =>
      if String.eqb k' k then (k, v) :: rest else (k', v') :: dict_set rest k v
  end.

(** [get_news] is what [yf.Ticker(title).get_news()] yields: the links of
    the articles, or [None] when the call, or the reading of a link, raises. *)
Definition get_companies_news (table : stock_table)
  (get_news : string -> option (list string)) : list (string * list string) :=
  fold_left
    (fun news_dict stock =>
       match get_news (snd stock) with
       | Some article_list => dict_set news_dict (snd stock) article_list
       | None => news_dict
       end)
    table [].

(** What [requests.get] and the parser give for a link: an exception, or the
    parts of the page that [fetch_article_content] looks at: whether the
    read-more anchor is there, the texts of the paragraphs of the article
    body if the body is found, and the text of the headline if it is
    found. *)
Record soup : Type := {
  readmore : bool;
  article_div : option (list string);
  headline : option string
}.

Inductive fetched : Type :=
| Unreachable (msg : string)
| Page (soup_news : soup).

Definition analyze_articles `{Nltk} (generate_content : backend)
  (company : string) (rows : list string) (models : list model)
  : call (string * rating) :=
  let article := fold_left (fun article row => article ++ row) rows "" in
  main generate_content article company models.

(** The state that outlives an analysis: the pool [MODELS], the number of
    dispatches made, which tells the calls of the backend apart, and the
    events so far. *)
Record session : Type := {
  models_now : list model;
  dispatches : nat;
  events_so_far : list event
}.

Definition no_articles : company_articles :=
  {| titles_list := []; links_list := []; summary_list := [];
     rating_list := [] |}.

(** The body of [for news_link in links]; every exception of the [try]
    block ends the handling of the link. *)
Definition fetch_link `{Nltk} (requests_get : string -> fetched)
  (generate_content : nat -> backend) (company : string)
  (acc : company_articles * session) (news_link : string)
  : company_articles * session :=
  let '(lists, st) := acc in
  match requests_get news_link with
  | Unreachable _ => (lists, st)
  | Page soup_news =>
      if readmore soup_news then (lists, st)
      else
        match article_div soup_news with
        | None => (lists, st)
        | Some paragraphs =>
            if (List.length paragraphs <? 2)%nat then (lists, st)
            else
              let out := analyze_articles (generate_content (dispatches st))
                           company paragraphs (models_now st) in
              let st := {| models_now := pool out;
                           dispatches := S (dispatches st);
                           events_so_far := (events_so_far st ++ log out)%list |} in
              match value out with
              | Throw _ => (lists, st)
              | Return (summary, rating) =>
                  match headline soup_news with
                  | Some title =>
                      ({| titles_list := (titles_list lists ++ [title])%list;
                          links_list := (links_list lists ++ [news_link])%list;
                          summary_list := (summary_list lists ++ [summary])%list;
                          rating_list := (rating_list lists ++ [rating])%list |},
                       st)
                  | None => (lists, st)
                  end
              end
        end
  end.

(** The body of [for company, links in news_dict.items()]. *)
Definition fetch_company `{Nltk} (requests_get : string -> fetched)
  (generate_content : nat -> backend)
  (acc : list (string * company_articles) * session)
  (item : string * list string)
  : list (string * company_articles) * session :=
  let '(articles_dict, st) := acc in
  let '(company, links) := item in
  let '(lists, st) :=
    fold_left (fetch_link requests_get generate_content company) links
              (no_articles, st) in
  let company_name := normalize_company_name company in
  (dict_set articles_dict company_name lists, st).

Definition collect_articles `{Nltk} (requests_get : string -> fetched)
  (generate_content : nat -> backend)
  (news_dict : list (string * list string)) (st : session)
  : list (string * company_articles) * session :=
  fold_left (fetch_company requests_get generate_content) news_dict ([], st).

(** A row of the table [stock_news]. *)
Module News.

Record StockNews : Type := {
  stock_id : Z;
  title : string;
  link : string;
  summary : string;
  decrease : Z;
  increase : Z;
  informativeness : Z
}.

End News.

(** [zip] of the four lists: as long as the shortest. *)
Fixpoint zip4 {A B C D : Type} (a : list A) (b : list B) (c : list C)
  (d : list D) : list (A * B * C * D) :=
  match a, b, c, d with
  | x :: a', y :: b', z :: c', w :: d' => (x, y, z, w) :: zip4 a' b' c' d'
  | _, _, _, _ => []
  end.

(** The rows [save_articles_news] builds. *)
Definition stock_news (stocks : string -> option Z)
  (news_dict : list (string * company_articles)) : list News.StockNews :=
  flat_map
    (fun '(company, news_list) =>
       flat_map
         (fun '(title, link, summary, rating) =>
            match stocks company with
            | Some id =>
                [ {| News.stock_id := id;
                     News.title := title;
                     News.link := link;
                     News.summary := summary;
                     News.decrease := Decrease_Probability rating;
                     News.increase := Increase_Probability rating;
                     News.informativeness := Informativeness rating |} ]
            | None => []
            end)
         (zip4 (titles_list news_list) (links_list news_list)
               (summary_list news_list) (rating_list news_list)))
    news_dict.

(** The range of an [Integer] column. *)
Definition int32 (n : Z) : bool :=
  (-2147483648 <=? n) && (n <=? 2147483647).

(** [database/models.py]: what the columns of [StockNews] take: a title of
    at most 250 characters ([String(250)]), a link of at most 300
    ([String(300)]) and three [Integer]s; the summary is a [Text]. *)
Definition news_row_fits (one_news : News.StockNews) : bool :=
  (String.length (News.title one_news) <=? 250)%nat &&
  (String.length (News.link one_news) <=? 300)%nat &&
  int32 (News.decrease one_news) && int32 (News.increase one_news) &&
  int32 (News.informativeness one_news).

(** [save_articles_news]: the old rows are deleted and the deletion is
    committed; then the new rows are saved in bulk.  When a row does not fit
    its columns the database rejects the insert: the [SQLAlchemyError] is
    caught and rolled back, and the table stays empty. *)
Definition save_articles_news (stocks : string -> option Z)
  (news_dict : list (string * company_articles))
  (table : list News.StockNews) : list News.StockNews :=
  let stock_news := stock_news stocks news_dict in
  if forallb news_row_fits stock_news then stock_news else [].

(** The tables [stock_compound] and [stock_news]. *)
Record tables : Type := {
  compound_table : list SentimentCompound;
  news_table : list News.StockNews
}.

(** [fetch_article_content]: what it raises, if it does, and the tables and
    the session it leaves. *)
Definition fetch_article_content `{Nltk} (table : stock_table)
  (get_news : string -> option (list string))
  (requests_get : string -> fetched) (generate_content : nat -> backend)
  (st : session) (db : tables) : result unit * tables * session :=
  let news_dict := get_companies_news table get_news in
  let '(articles_dict, st) :=
    collect_articles requests_get generate_content news_dict st in
  match save_compound (first_stock table) articles_dict (compound_table db) with
  | (Raise e, compounds) =>
      (Raise e, {| compound_table := compounds; news_table := news_table db |},
       st)
  | (Ok _, compounds) =>
      (Ok tt,
       {| compound_table := compounds;
          news_table := save_articles_news (first_stock table) articles_dict
                          (news_table db) |},
       st)
  end.

(** ** [parsing/currency_parser.py]: [get_currencies] and [update_companies] *)

(** What the functions read in a row of the table of the page: the text of
    the company cell, of the first [span], of the cell of the change in per
    cent and of the quote link, each if it is found. *)
Record row : Type := {
  company_cell : option string;
  span : option string;
  change_pct_cell : option string;
  quote_link : option string
}.

Definition get_stock_name (r : row) : option string := quote_link r.

(** [s[1:]] and [s[1:-1]] *)
Definition slice_from_1 (s : string) : string :=
  match s with
  | String _ s' => s'
  | EmptyString => EmptyString
  end.

Fixpoint remove_last (s : string) : string :=
  match s with
  | String c EmptyString => EmptyString
  | String c s' => String c (remove_last s')
  | EmptyString => EmptyString
  end.

Definition slice_1_to_last (s : string) : string :=
  remove_last (slice_from_1 s).

(** The dictionary [get_currencies] stores for a company; [quote] stands for
    the four rounded numbers read from the price history, which come from
    outside the repository. *)
Record company_data (V : Type) : Type := {
  quote : V;
  change : string;
  change_pct : string;
  growth : bool
}.

Arguments quote {V} c.
Arguments change {V} c.
Arguments change_pct {V} c.
Arguments growth {V} c.

(** The loop of [get_currencies] over the rows; [None] stands for an
    exception, which the function catches, whatever it is.  [history] is the
    reading of the last prices of a ticker, [None] when it raises. *)
Fixpoint currencies_loop {V : Type} (history : string -> option V)
  (rows : list row) (companies_dict : list (string * company_data V))
  : option (list (string * company_data V)) :=
  match rows with
  | [] => Some companies_dict
  | r :: rows' =>
      match get_company_name (company_cell r) with
      | None | Some EmptyString => currencies_loop history rows' companies_dict
      | Some company_name =>
          match span r, change_pct_cell r with
          | Some change_cell, Some change_prc_cell =>
              match change_cell with
              | EmptyString => None
              | String first _ =>
                  let growth := Ascii.eqb first "+" in
                  match get_stock_name r with
                  | None | Some EmptyString =>
                      currencies_loop history rows' companies_dict
                  | Some stock_name =>
                      match history stock_name with
                      | Some stock_history =>
                          currencies_loop history rows'
                            (dict_set companies_dict company_name
                               {| quote := stock_history;
                                  change := slice_from_1 change_cell;
                                  change_pct := slice_1_to_last change_prc_cell;
                                  growth := growth |})
                      | None => None
                      end
                  end
              end
          | _, _ => None
          end
      end
  end.

(** [page] is the list of the rows of the table body; [None] when there is
    no page or no table body. *)
Definition get_currencies {V : Type} (history : string -> option V)
  (page : option (list row)) : list (string * company_data V) :=
  match page with
  | Some (r :: rows) =>
      match currencies_loop history (r :: rows) [] with
      | Some companies_dict => companies_dict
      | None => []
      end
  | _ => []
  end.

(** The ids the restarted sequence gives the rows saved in bulk. *)
Fixpoint numbered (next : Z) (titles : list string) : stock_table :=
  match titles with
  | [] => []
  | title :: rest => (next, title) :: numbered (next + 1) rest
  end.

(** [update_companies]: the table [Stock] is cleared first; with an empty
    dictionary nothing is saved.  The result is the rows the function hands
    to [bulk_save_objects], numbered as the restarted sequence numbers them:
    they are the table when the database takes them.  (It rejects a title of
    more than 100 characters and, in a [Float] column, a change that is not
    the text of a number; the table is then left empty, and what is proved of
    the table below holds of the empty table too.) *)
Definition update_companies {V : Type} (history : string -> option V)
  (page : option (list row)) (table : stock_table) : stock_table :=
  let companies_dict := get_currencies history page in
  numbered 1 (map fst companies_dict).

(** ** Vocabulary of the properties *)

(** *** Dispatcher *)

(** A backend that is rate-limited for the first [k] attempts and answers
    [r] afterwards. *)
Definition limited_then (k : nat) (r : response) : backend :=
  fun attempt _ _ =>
    if (attempt <? k)%nat then Fails "429 Too Many Requests"
    else Returns (Some r).

(** A backend whose every call fails with the message [msg]. *)
Definition failing_with (msg : string) : backend := fun _ _ _ => Fails msg.

(** *** Matcher and parser *)

(** The text a group has captured after [l] was consumed. *)
Definition push_string (l : string) (cur : option string) : option string :=
  match cur with
  | Some acc => Some (rev_string acc l)
  | None => None
  end.

(** The group [(\d+%)]. *)
Definition percent_group : pattern := [Open; Plus is_digit; Lit "%"; Close].

(** A non-empty run of decimal digits. *)
Definition is_digits (ds : string) : Prop :=
  ds <> "" /\ all_chars is_digit ds = true.

(** The shape of the two forecast patterns: [a(\d+%)b(\d+%)\)]. *)
Definition two_groups (a b : string) : pattern :=
  (lits a ++ percent_group ++ lits b ++ percent_group ++ lits ")")%list.

(** The shape of the informativeness pattern: [a(\d+%)\)]. *)
Definition one_group (a : string) : pattern :=
  (lits a ++ percent_group ++ lits ")")%list.

(** No match of [pat] starts inside the prefix [pre] of [pre ++ s]. *)
Fixpoint no_match_in (pat : pattern) (pre s : string) : bool :=
  match pre with
  | EmptyString => true
  | String c pre' =>
      match match_at pat (pre ++ s) with
      | Some _ => false
      | None => no_match_in pat pre' s
      end
  end.

(** The number a run of digits denotes. *)
Definition value_of (ds : string) : Z :=
  match int ds with
  | Ok v => v
  | Raise _ => 0
  end.

(** [m] is the leftmost match of [pat] in [text]: it starts after [pre] and
    no match starts inside [pre]. *)
Definition leftmost_match (pat : pattern) (text pre m post : string) : Prop :=
  text = (pre ++ m ++ post)%string /\
  no_match_in pat pre (m ++ post) = true.

(** *** Aggregation *)

Definition Zsum (l : list Z) : Z := fold_right Z.add 0 l.

(** The three sums of the specification: [riseSum], [fallSum] and
    [totalWeight]. *)
Definition rise_sum (l : list rating) : Z :=
  Zsum (map (fun r => Increase_Probability r * Informativeness r) l).

Definition fall_sum (l : list rating) : Z :=
  Zsum (map (fun r => Decrease_Probability r * Informativeness r) l).

Definition total_weight (l : list rating) : Z :=
  Zsum (map Informativeness l).

(** The ranges the data model gives the fields of a rating. *)
Definition valid_rating (r : rating) : Prop :=
  0 <= Decrease_Probability r <= 100 /\
  0 <= Increase_Probability r <= 100 /\
  0 <= Informativeness r <= 100.

(** The two ratings of the example of the specification, and a rating
    without weight. *)
Definition rating_1 : rating :=
  {| Decrease_Probability := 20; Increase_Probability := 80;
     Informativeness := 100 |}.

Definition rating_2 : rating :=
  {| Decrease_Probability := 60; Increase_Probability := 40;
     Informativeness := 50 |}.

Definition rating_zero : rating :=
  {| Decrease_Probability := 60; Increase_Probability := 40;
     Informativeness := 0 |}.

(** Half a unit in the last place of the float 100: [2 ^ -47]. *)
Definition half_ulp_100 : Q := 1 # 140737488355328.

(** The Standard Library's specification of IEEE 754 arithmetic, at the
    binary64 format, to compare [PyFloat] with: the value of a finite number,
    the conversion of an integer, division and addition. *)
Definition of_spec_float (f : spec_float) : Q :=
  match f with
  | S754_finite s m e => dyadic (if s then Zneg m else Zpos m) e
  | _ => 0%Q
  end.

Definition binary64_of_Z (n : Z) : spec_float :=
  binary_normalize 53 1024 n 0 false.

Definition binary64_div (a b : Z) : spec_float :=
  SFdiv 53 1024 (binary64_of_Z a) (binary64_of_Z b).

Definition binary64_add (x y : spec_float) : spec_float :=
  SFadd 53 1024 x y.

(** *** Normalizer *)

(** Neither punctuation nor anything else outside [\w] and [\s]. *)
Definition plain_char (c : ascii) : bool := is_word c || is_space c.

Definition punctuation_free (s : string) : Prop :=
  all_chars plain_char s = true.

(** What [capitalize] makes of a sentence given as its words. *)
Definition cap_words (ws : list string) : list string :=
  match ws with
  | [] => []
  | w :: rest => capitalize w :: map lower rest
  end.

(** A word as the word tokenizer returns it on text without punctuation:
    not empty, made of word characters, and not split further. *)
Definition word_token `{Nltk} (w : string) : Prop :=
  w <> "" /\ all_chars is_word w = true /\ word_tokenize w = [w].

(** What is assumed of the tokenizers, on text without punctuation: the
    sentence tokenizer finds at most one sentence, and none in the empty
    text; the word tokenizer yields word tokens; and word tokens joined by
    single spaces are found again as they are, in one sentence, also after a
    change of case. *)
Class NltkLaws (N : Nltk) : Prop := {
  sent_tokenize_empty : sent_tokenize "" = [];
  sent_tokenize_plain :
    forall x, punctuation_free x ->
      sent_tokenize x = [] \/
      exists s, sent_tokenize x = [s] /\ punctuation_free s;
  sent_tokenize_words :
    forall ws, ws <> [] -> Forall word_token ws ->
      sent_tokenize (join " " ws) = [join " " ws];
  word_tokenize_plain :
    forall s, punctuation_free s -> Forall word_token (word_tokenize s);
  word_tokenize_words :
    forall ws, Forall word_token ws -> word_tokenize (join " " ws) = ws;
  word_token_case :
    forall w, word_token w -> word_token (lower w) /\ word_token (capitalize w)
}.

(** [str.split()]: the maximal runs of characters that are not white
    space. *)
Fixpoint split (s : string) : list string :=
  match s with
  | EmptyString => []
  | String c s' =>
      if is_space c then split s'
      else
        match s' with
        | EmptyString => [String c ""]
        | String d _ =>
            if is_space d then String c "" :: split s'
            else
              match split s' with
              | w :: ws => String c w :: ws
              | [] => [String c ""]
              end
        end
  end.

(** Tokenizers that split at white space, with a short stopword list. *)
Definition whitespace_tokenizers : Nltk := {|
  sent_tokenize := fun s => match split s with [] => [] | _ :: _ => [s] end;
  word_tokenize := split;
  stop_words := fun w => existsb (String.eqb w) ["the"; "a"; "is"; "of"; "and"]
|}.

(** A non-empty run of word characters. *)
Definition plain_word (w : string) : Prop :=
  w <> "" /\ all_chars is_word w = true.

(** *** Further vocabulary *)

(** CPython's default limit on the digits of a string given to [int]. *)
Definition int_max_str_digits : nat := 4300.

(** The seconds slept in a run. *)
Fixpoint total_sleep (events : list event) : Z :=
  match events with
  | Sleep secs :: rest => secs + total_sleep rest
  | _ :: rest => total_sleep rest
  | [] => 0
  end.

(** The seconds [n] rate-limited attempts in a row sleep, from the delay
    [delay] on. *)
Fixpoint sleep_bound (n : nat) (delay : Z) : Z :=
  match n with
  | O => 0
  | S n' => delay + sleep_bound n' (delay + backoff_factor)
  end.

(** Not an opening parenthesis. *)
Definition not_paren (c : ascii) : bool := negb (Ascii.eqb c "(").

(** The entries of [article_dict] whose company is in the table [Stock],
    with the id of the stock. *)
Fixpoint found_stocks (stocks : string -> option Z)
  (article_dict : list (string * company_articles))
  : list (Z * company_articles) :=
  match article_dict with
  | [] => []
  | (company, values_list) :: rest =>
      match stocks company with
      | Some id => (id, values_list) :: found_stocks stocks rest
      | None => found_stocks stocks rest
      end
  end.

(** The row [save_compound] builds for a stock. *)
Definition compound_row (entry : Z * company_articles) : SentimentCompound :=
  let l := rating_list (snd entry) in
  {| stock_id := fst entry;
     fall_probability := round2 (nearest (fall_sum l) (total_weight l));
     rise_probability := round2 (nearest (rise_sum l) (total_weight l)) |}.

(** Every rating of every entry has its fields in range. *)
Definition valid_articles (article_dict : list (string * company_articles))
  : Prop :=
  Forall (fun entry => Forall valid_rating (rating_list (snd entry)))
         article_dict.

(** A table [Stock] with two companies, and the articles of a run: two
    rated articles for the first company, a company that is not in the table,
    and no article for the second company. *)
Definition two_stocks (title : string) : option Z :=
  if String.eqb title "Apple" then Some 1
  else if String.eqb title "Tesla" then Some 2
  else None.

Definition articles_of (ratings : list rating) : company_articles :=
  {| titles_list := map (fun _ => "title") ratings;
     links_list := map (fun _ => "link") ratings;
     summary_list := map (fun _ => "summary") ratings;
     rating_list := ratings |}.

Definition rated_articles : list (string * company_articles) :=
  [("Apple", articles_of [rating_1; rating_2]); ("Acme", articles_of [])].

Definition unrated_articles : list (string * company_articles) :=
  [("Apple", articles_of [rating_1; rating_2]); ("Tesla", articles_of [])].

(** The last character of a string. *)
Fixpoint last_char (s : string) : option ascii :=
  match s with
  | EmptyString => None
  | String c EmptyString => Some c
  | String _ s' => last_char s'
  end.

(** Two newlines in a row: an empty line. *)
Definition blank_line : string := String newline (String newline "").

Definition starts_with_newline (s : string) : bool :=
  match s with
  | String c _ => Ascii.eqb c newline
  | EmptyString => false
  end.

(** What [re.sub(r'\n+', '\n', s)] does: of several newlines in a row only
    the last is kept. *)
Fixpoint squeeze (s : string) : string :=
  match s with
  | String c s' =>
      if Ascii.eqb c newline && starts_with_newline s' then squeeze s'
      else String c (squeeze s')
  | EmptyString => EmptyString
  end.

Fixpoint drop_newlines (s : string) : string :=
  match s with
  | String c s' => if Ascii.eqb c newline then drop_newlines s' else s
  | EmptyString => EmptyString
  end.

(** Text that none of the patterns of [response_processing] touches: no
    asterisk, hash sign, opening parenthesis, digit or newline. *)
Definition quiet (c : ascii) : bool :=
  negb (Ascii.eqb c "*") && negb (Ascii.eqb c "#") && negb (Ascii.eqb c "(") &&
  negb (is_digit c) && dot c.

(** What may stand between the parentheses, or between the asterisks, of a
    passage that is removed. *)
Definition inner (c : ascii) : bool :=
  negb (Ascii.eqb c "*") && negb (Ascii.eqb c "#") && negb (Ascii.eqb c ")") &&
  dot c.

(** The character before the position after [a]. *)
Definition last_or (prev : option ascii) (a : string) : option ascii :=
  match last_char a with
  | Some c => Some c
  | None => prev
  end.

(** The five patterns of [patterns_to_remove], by what they remove. *)
Definition BOLD : Rx.regex := nth 0 patterns_to_remove [].
Definition HEADING : Rx.regex := nth 1 patterns_to_remove [].
Definition PARENTHESES : Rx.regex := nth 2 patterns_to_remove [].
Definition NUMBERING : Rx.regex := nth 3 patterns_to_remove [].
Definition ASTERISK : Rx.regex := nth 4 patterns_to_remove [].

(** The four lists of a company have one entry per accepted article. *)
Definition aligned (v : company_articles) : Prop :=
  List.length (titles_list v) = List.length (rating_list v) /\
  List.length (links_list v) = List.length (rating_list v) /\
  List.length (summary_list v) = List.length (rating_list v).

Definition nonneg_rating (r : rating) : Prop :=
  0 <= Decrease_Probability r /\ 0 <= Increase_Probability r /\
  0 <= Informativeness r.

Definition well_formed (v : company_articles) : Prop :=
  aligned v /\ Forall nonneg_rating (rating_list v).

(** A backend whose responses are all falsy. *)
Definition falsy_backend : backend := fun _ _ _ => Returns None.

(** A row with a company name whose handling raises: the change or the
    change in per cent is missing, the change is empty, or the prices of its
    ticker cannot be read. *)
Definition named (r : row) : bool :=
  match get_company_name (company_cell r) with
  | None | Some EmptyString => false
  | Some _ => true
  end.

Definition broken {V : Type} (history : string -> option V) (r : row) : bool :=
  match span r, change_pct_cell r with
  | Some (String _ _), Some _ =>
      match get_stock_name r with
      | None | Some EmptyString => false
      | Some stock_name =>
          match history stock_name with
          | Some _ => false
          | None => true
          end
      end
  | _, _ => true
  end.

(** The keys of the dictionary are distinct, not empty, and each is what
    [get_company_name] makes of the company cell of a row. *)
Definition company_key (rows : list row) (k : string) : Prop :=
  k <> "" /\ exists r, In r rows /\ get_company_name (company_cell r) = Some k.

(** Two rows: one in order, one without the change. *)
Definition good_row : row :=
  {| company_cell := Some "Apple Inc."; span := Some "+1.20";
     change_pct_cell := Some "(+0.52%)"; quote_link := Some "AAPL" |}.

Definition bad_row : row :=
  {| company_cell := Some "Tesla, Inc."; span := None;
     change_pct_cell := Some "(-1.10%)"; quote_link := Some "TSLA" |}.

(** The headlines and links collected for a company fit the columns of
    [StockNews]. *)
Definition fits_columns (v : company_articles) : Prop :=
  Forall (fun title => (String.length title <= 250)%nat) (titles_list v) /\
  Forall (fun link => (String.length link <= 300)%nat) (links_list v).

(** One stock with one article, and a backend that answers with a forecast
    and an informativeness. *)
Definition apple_table : stock_table := [(1, "Apple")].

Definition apple_page : fetched :=
  Page {| readmore := false;
          article_div := Some ["Apple beats the forecast. "; "Analysts agree."];
          headline := Some "Apple beats the forecast" |}.

Definition apple_backend : nat -> backend :=
  fun _ _ _ _ =>
    Returns (Some {| text := "Apple rose. (decrease 30% | increase 70%) (Informativeness: 80%)" |}).

Definition fresh_session : session :=
  {| models_now := []; dispatches := 0; events_so_far := [] |}.

(** * Properties *)

(** ** The request dispatcher *)

Section Dispatcher.

Variable generate_content : backend.
Variable request : string.

Lemma pop_last (rest : list model) (m : model) :
  pop (rest ++ [m]) = Ok (m, rest).
Proof.
  unfold pop. rewrite rev_app_distr. simpl. now rewrite rev_involutive.
Qed.

Lemma populate_last (models : list model) :
  exists rest m, fst (populate models) = (rest ++ [m])%list.
Proof.
  destruct models as [|m0 models].
  - exists ["gemini-1.5-flash-001"; "gemini-1.5-flash-001"], "gemini-1.5-flash-001".
    reflexivity.
  - destruct (exists_last (l := m0 :: models)) as [rest [m E]]; [discriminate|].
    exists rest, m. exact E.
Qed.

(** A rate-limited attempt puts the handle back, sleeps [delay] and goes on
    with the delay raised by [backoff_factor]. *)
Lemma attempt_loop_rate_limited attempt range delay rest m events :
  is_rate_limited (generate_content attempt m request) = true ->
  attempt_loop generate_content request (attempt :: range) delay
    (rest ++ [m]) events =
  attempt_loop generate_content request range (delay + backoff_factor)
    (rest ++ [m]) (events ++ retry_events attempt 1 delay).
Proof.
  intros H. simpl. rewrite pop_last.
  destruct (generate_content attempt m request) as [r|msg]; simpl in H.
  - discriminate.
  - rewrite H. now rewrite <- app_assoc.
Qed.

Lemma attempt_loop_retries k : forall start range delay rest m events,
  (forall j, (j < k)%nat ->
     is_rate_limited (generate_content (start + j)%nat m request) = true) ->
  attempt_loop generate_content request (seq start k ++ range) delay
    (rest ++ [m]) events =
  attempt_loop generate_content request range
    (delay + backoff_factor * Z.of_nat k) (rest ++ [m])
    (events ++ retry_events start k delay).
Proof.
  induction k as [|k IH]; intros start range delay rest m events H.
  - replace (delay + backoff_factor * Z.of_nat 0) with delay
      by (unfold backoff_factor; lia).
    cbn [seq app retry_events]. now rewrite app_nil_r.
  - cbn [seq app]. rewrite attempt_loop_rate_limited.
    + rewrite IH.
      * rewrite <- app_assoc. cbn [retry_events app].
        f_equal. unfold backoff_factor. lia.
      * intros j Hj. replace (S start + j)%nat with (start + S j)%nat by lia.
        apply H. lia.
    + specialize (H 0%nat). rewrite Nat.add_0_r in H. apply H. lia.
Qed.

Lemma attempt_loop_success attempt range delay rest m events r :
  generate_content attempt m request = Returns (Some r) ->
  attempt_loop generate_content request (attempt :: range) delay
    (rest ++ [m]) events =
  {| returned := Ok (Some r); MODELS := rest;
     trace := ((events ++ [LogAttempt (attempt + 1)]) ++
               [Sleep 10; LogCompleted])%list |}.
Proof.
  intros H. simpl. rewrite pop_last, H. reflexivity.
Qed.

Lemma attempt_loop_failure attempt range delay rest m events msg :
  generate_content attempt m request = Fails msg ->
  contains "429" msg = false ->
  attempt_loop generate_content request (attempt :: range) delay
    (rest ++ [m]) events =
  {| returned := Raise (BackendError msg); MODELS := rest;
     trace := ((events ++ [LogAttempt (attempt + 1)]) ++ [LogError msg])%list |}.
Proof.
  intros H N. simpl. rewrite pop_last, H, N. reflexivity.
Qed.

(** The run of [request_processing] when the first [k] attempts are
    rate-limited: the loop is entered with the populated pool and reaches
    attempt [k] with the delay raised [k] times. *)
Lemma request_processing_retries k n :
  (k + n = max_retries)%nat ->
  (forall j m, (j < k)%nat ->
     is_rate_limited (generate_content j m request) = true) ->
  forall models, exists rest m,
    fst (populate models) = (rest ++ [m])%list /\
    request_processing generate_content request models =
    attempt_loop generate_content request (seq k n)
      (10 + backoff_factor * Z.of_nat k) (rest ++ [m])
      (snd (populate models) ++ retry_events 0 k 10).
Proof.
  intros E H models. destruct (populate_last models) as [rest [m P]].
  exists rest, m. split; [exact P|].
  unfold request_processing. destruct (populate models) as [ms ev].
  simpl in P. subst ms. rewrite <- E, seq_app. simpl fst. simpl snd.
  apply attempt_loop_retries. intros j Hj. apply H. exact Hj.
Qed.

End Dispatcher.

Lemma attempts_made_app (l1 l2 : list event) :
  attempts_made (l1 ++ l2) = (attempts_made l1 + attempts_made l2)%nat.
Proof.
  induction l1 as [|e l1 IH]; [reflexivity|].
  destruct e; simpl; rewrite IH; reflexivity.
Qed.

Lemma rate_limited_attempts_app (l1 l2 : list event) :
  rate_limited_attempts (l1 ++ l2) =
  (rate_limited_attempts l1 + rate_limited_attempts l2)%nat.
Proof.
  induction l1 as [|e l1 IH]; [reflexivity|].
  destruct e; simpl; rewrite IH; reflexivity.
Qed.

Lemma attempts_made_retry_events k : forall start delay,
  attempts_made (retry_events start k delay) = k /\
  rate_limited_attempts (retry_events start k delay) = k.
Proof.
  induction k as [|k IH]; intros start delay; [now split|].
  destruct (IH (S start) (delay + backoff_factor)) as [A B].
  simpl. now rewrite A, B.
Qed.

Lemma pop_inv (models rest : list model) (m : model) :
  pop models = Ok (m, rest) -> models = (rest ++ [m])%list.
Proof.
  unfold pop. intros H. destruct (rev models) as [|x l] eqn:E; [discriminate|].
  inversion H; subst. rewrite <- (rev_involutive models), E. reflexivity.
Qed.

(** Every attempt takes a handle and only a rate-limited one puts it back. *)
Lemma attempt_loop_pool gc request range : forall delay models events,
  let out := attempt_loop gc request range delay models events in
  (List.length (MODELS out) + attempts_made (trace out) +
   rate_limited_attempts events =
   List.length models + attempts_made events +
   rate_limited_attempts (trace out))%nat.
Proof.
  induction range as [|attempt range IH]; intros delay models events; cbn zeta.
  - simpl. rewrite attempts_made_app, rate_limited_attempts_app. simpl. lia.
  - simpl. destruct (pop models) as [[m rest]|e] eqn:P; [|simpl; lia].
    apply pop_inv in P. subst models. rewrite length_app. simpl List.length.
    destruct (gc attempt m request) as [[r|]|msg].
    + simpl. rewrite !attempts_made_app, !rate_limited_attempts_app. simpl. lia.
    + specialize (IH delay rest (events ++ [LogAttempt (attempt + 1)])%list).
      cbn zeta in IH.
      rewrite attempts_made_app, rate_limited_attempts_app in IH.
      simpl in IH. lia.
    + destruct (contains "429" msg).
      * specialize (IH (delay + backoff_factor) (rest ++ [m])%list
                      ((events ++ [LogAttempt (attempt + 1)]) ++
                       [Log429 delay; Sleep delay])%list).
        cbn zeta in IH.
        rewrite !attempts_made_app, !rate_limited_attempts_app, length_app in IH.
        simpl in IH. lia.
      * simpl. rewrite !attempts_made_app, !rate_limited_attempts_app.
        simpl. lia.
Qed.

Lemma limited_then_limited k r request j m :
  (j < k)%nat -> is_rate_limited (limited_then k r j m request) = true.
Proof.
  intros H. unfold limited_then. apply Nat.ltb_lt in H. rewrite H. reflexivity.
Qed.

Lemma populate_trace (models : list model) :
  snd (populate models) = [] \/ snd (populate models) = [LogCreatingModels].
Proof.
  destruct models; [right|left]; reflexivity.
Qed.

(** C3: with a backend that is rate-limited on the first five attempts and
    answers on the sixth, [request_processing] returns that answer, and the
    delays slept before the retries are exactly 10, 15, 20, 25, 30: the whole
    trace is five rounds of attempt, warning and sleep, then the sixth
    attempt and the pause of 10 after its success. *)
Theorem request_processing_five_retries_then_success :
  forall (generate_content : backend) (request : string)
         (models : list model) (r : response),
    (forall k m, (k < 5)%nat ->
       is_rate_limited (generate_content k m request) = true) ->
    (forall m, generate_content 5%nat m request = Returns (Some r)) ->
    let out := request_processing generate_content request models in
    returned out = Ok (Some r) /\
    retry_delays (trace out) = [10; 15; 20; 25; 30] /\
    trace out =
      (snd (populate models) ++
       [LogAttempt 1; Log429 10; Sleep 10; LogAttempt 2; Log429 15; Sleep 15;
        LogAttempt 3; Log429 20; Sleep 20; LogAttempt 4; Log429 25; Sleep 25;
        LogAttempt 5; Log429 30; Sleep 30;
        LogAttempt 6; Sleep 10; LogCompleted])%list.
Proof.
  intros gc request models r Hlim Hok out. subst out.
  destruct (request_processing_retries gc request 5 1 eq_refl Hlim models)
    as [rest [m [_ E]]].
  rewrite E. cbn [seq].
  rewrite (attempt_loop_success gc request 5 [] _ rest m _ r (Hok m)).
  cbn [returned trace]. split; [reflexivity|].
  destruct (populate_trace models) as [T|T]; rewrite T; split; reflexivity.
Qed.

Lemma request_processing_five_retries_then_success_witness :
  let out := request_processing (limited_then 5 {| text := "ok" |})
               "request" [] in
  returned out = Ok (Some {| text := "ok" |}) /\
  retry_delays (trace out) = [10; 15; 20; 25; 30].
Proof.
  destruct (request_processing_five_retries_then_success
              (limited_then 5 {| text := "ok" |}) "request" []
              {| text := "ok" |}) as [A [B _]].
  - intros k m H. now apply limited_then_limited.
  - intros m. reflexivity.
  - cbv zeta. split; [exact A | exact B].
Defined.

Lemma request_processing_all_limited
  (generate_content : backend) (request : string) (models : list model) :
  (forall k m, (k < max_retries)%nat ->
     is_rate_limited (generate_content k m request) = true) ->
  request_processing generate_content request models =
  {| returned := Ok None; MODELS := fst (populate models);
     trace := ((snd (populate models) ++ retry_events 0 6 10) ++
               [LogMaxRetries])%list |}.
Proof.
  intros Hlim.
  destruct (request_processing_retries generate_content request 6 0 eq_refl
              Hlim models) as [rest [m [P E]]].
  rewrite E, P. reflexivity.
Qed.

(** A failure whose message has no ["429"] is raised again at once: one
    attempt, no sleep, and the handle is not put back. *)
Lemma request_processing_hard_failure
  (generate_content : backend) (request : string) (models : list model)
  (msg : string) :
  (forall m, generate_content 0%nat m request = Fails msg) ->
  contains "429" msg = false ->
  exists rest m,
    fst (populate models) = (rest ++ [m])%list /\
    request_processing generate_content request models =
    {| returned := Raise (BackendError msg); MODELS := rest;
       trace := (snd (populate models) ++
                 [LogAttempt 1; LogError msg])%list |}.
Proof.
  intros F C.
  destruct (request_processing_retries generate_content request 0 6 eq_refl
              (fun j m H => False_ind _ (Nat.nlt_0_r j H)) models)
    as [rest [m [P E]]].
  exists rest, m. split; [exact P|]. rewrite E. cbn [seq].
  rewrite (attempt_loop_failure generate_content request 0 _ _ rest m _ msg
             (F m) C).
  cbn [retry_events Nat.add]. rewrite app_nil_r, <- app_assoc. reflexivity.
Qed.

(** C4: with a backend that is rate-limited on every attempt,
    [request_processing] makes exactly six attempts, each followed by the
    warning and the sleep of the growing delay (10, 15, 20, 25, 30, 35), logs
    that the retries are used up and returns [None]: it does not raise, and
    the pool is the populated pool again.  The outcome differs from that of a
    failure that is not a rate limit, which is raised again at the first
    attempt, without any sleep. *)
Theorem request_processing_exhausted :
  forall (generate_content : backend) (request : string) (models : list model),
    (forall k m, (k < 6)%nat ->
       is_rate_limited (generate_content k m request) = true) ->
    let out := request_processing generate_content request models in
    returned out = Ok None /\
    attempts_made (trace out) = 6%nat /\
    (forall e, returned out <> Raise e) /\
    MODELS out = fst (populate models) /\
    trace out =
      (snd (populate models) ++
       [LogAttempt 1; Log429 10; Sleep 10; LogAttempt 2; Log429 15; Sleep 15;
        LogAttempt 3; Log429 20; Sleep 20; LogAttempt 4; Log429 25; Sleep 25;
        LogAttempt 5; Log429 30; Sleep 30; LogAttempt 6; Log429 35; Sleep 35;
        LogMaxRetries])%list /\
    retry_delays (trace out) = [10; 15; 20; 25; 30; 35] /\
    (forall (failing : backend) (msg : string),
       (forall m, failing 0%nat m request = Fails msg) ->
       contains "429" msg = false ->
       let out' := request_processing failing request models in
       returned out' = Raise (BackendError msg) /\
       returned out' <> returned out /\
       attempts_made (trace out') = 1%nat /\
       retry_delays (trace out') = []).
Proof.
  intros gc request models Hlim out. subst out.
  rewrite (request_processing_all_limited gc request models Hlim).
  cbn [returned trace MODELS].
  split; [reflexivity|]. split.
  { rewrite !attempts_made_app.
    destruct (populate_trace models) as [T|T]; rewrite T; reflexivity. }
  split; [discriminate|]. split; [reflexivity|]. split.
  { rewrite <- app_assoc. reflexivity. }
  split.
  { destruct (populate_trace models) as [T|T]; rewrite T; reflexivity. }
  intros failing msg F C. cbv zeta.
  destruct (request_processing_hard_failure failing request models msg F C)
    as [rest [m [_ E]]].
  rewrite E. cbn [returned trace].
  split; [reflexivity|]. split; [discriminate|].
  destruct (populate_trace models) as [T|T]; rewrite T; split; reflexivity.
Qed.

Lemma request_processing_exhausted_witness :
  let out := request_processing (limited_then 6 {| text := "ok" |})
               "request" ["m1"; "m2"] in
  let out' := request_processing (failing_with "500 Internal Server Error")
                "request" ["m1"; "m2"] in
  returned out = Ok None /\ attempts_made (trace out) = 6%nat /\
  MODELS out = ["m1"; "m2"] /\
  retry_delays (trace out) = [10; 15; 20; 25; 30; 35] /\
  returned out' = Raise (BackendError "500 Internal Server Error") /\
  attempts_made (trace out') = 1%nat.
Proof.
  destruct (request_processing_exhausted
              (limited_then 6 {| text := "ok" |}) "request" ["m1"; "m2"])
    as [A [B [_ [C [_ [D H]]]]]].
  - intros k m L. now apply limited_then_limited.
  - destruct (H (failing_with "500 Internal Server Error")
                "500 Internal Server Error") as [E [_ [F _]]];
      [reflexivity | reflexivity |].
    cbv zeta.
    split; [exact A|]. split; [exact B|]. split; [exact C|].
    split; [exact D|]. split; [exact E | exact F].
Defined.

(** A response that is falsy neither returns nor puts the handle back: two
    of them in a row empty a pool of two, and the third [pop] raises. *)
Example request_processing_falsy_responses :
  request_processing (fun _ _ _ => Returns None) "request" ["m1"; "m2"] =
  {| returned := Raise IndexError; MODELS := [];
     trace := [LogAttempt 1; LogAttempt 2] |}.
Proof. reflexivity. Qed.

(** C5 as stated fails: a dispatch that succeeds at once takes a handle from
    a pool of three and leaves a pool of two. *)
Lemma request_processing_pool_shrinks :
  let models := ["m1"; "m2"; "m3"] in
  let out := request_processing (limited_then 0 {| text := "ok" |})
               "request" models in
  returned out = Ok (Some {| text := "ok" |}) /\
  MODELS out = ["m1"; "m2"] /\
  List.length models = 3%nat /\ List.length (MODELS out) = 2%nat.
Proof.
  repeat split.
Qed.

(** C5, amended: every attempt takes one handle from the pool and only a
    rate-limited attempt puts it back.  After any dispatch the pool holds the
    handles of the populated pool less one for each attempt that was not
    rate-limited; so a dispatch that succeeds, or fails for good, after [k]
    rate-limited attempts leaves the populated pool without its last handle,
    and a dispatch that is rate-limited throughout leaves it whole. *)
Theorem request_processing_pool :
  forall (generate_content : backend) (request : string) (models : list model),
    let out := request_processing generate_content request models in
    let pool := fst (populate models) in
    (List.length (MODELS out) + attempts_made (trace out) =
     List.length pool + rate_limited_attempts (trace out))%nat /\
    (forall k n,
       (k + S n = max_retries)%nat ->
       (forall j m, (j < k)%nat ->
          is_rate_limited (generate_content j m request) = true) ->
       (forall r,
          (forall m, generate_content k m request = Returns (Some r)) ->
          returned out = Ok (Some r) /\ MODELS out = removelast pool) /\
       (forall msg,
          (forall m, generate_content k m request = Fails msg) ->
          contains "429" msg = false ->
          returned out = Raise (BackendError msg) /\
          MODELS out = removelast pool)) /\
    ((forall j m, (j < max_retries)%nat ->
        is_rate_limited (generate_content j m request) = true) ->
     returned out = Ok None /\ MODELS out = pool).
Proof.
  intros gc request models out pool. subst out pool. repeat split.
  - unfold request_processing.
    pose proof (attempt_loop_pool gc request (seq 0 max_retries) 10
                  (fst (populate models)) (snd (populate models))) as I.
    cbn zeta in I. rewrite (surjective_pairing (populate models)).
    destruct (populate_trace models) as [T|T]; rewrite T in I |- *;
      cbn [attempts_made rate_limited_attempts fst] in I |- *; lia.
  - destruct (request_processing_retries gc request k (S n) H H0 models)
      as [rest [m [P E]]].
    rewrite E. cbn [seq]. now rewrite (attempt_loop_success _ _ _ _ _ _ _ _ r (H1 m)).
  - destruct (request_processing_retries gc request k (S n) H H0 models)
      as [rest [m [P E]]].
    rewrite E, P. cbn [seq].
    rewrite (attempt_loop_success _ _ _ _ _ _ _ _ r (H1 m)).
    cbn [MODELS]. now rewrite removelast_last.
  - destruct (request_processing_retries gc request k (S n) H H0 models)
      as [rest [m [P E]]].
    rewrite E. cbn [seq].
    now rewrite (attempt_loop_failure _ _ _ _ _ _ _ _ msg (H1 m) H2).
  - destruct (request_processing_retries gc request k (S n) H H0 models)
      as [rest [m [P E]]].
    rewrite E, P. cbn [seq].
    rewrite (attempt_loop_failure _ _ _ _ _ _ _ _ msg (H1 m) H2).
    cbn [MODELS]. now rewrite removelast_last.
  - now rewrite (request_processing_all_limited gc request models H).
  - now rewrite (request_processing_all_limited gc request models H).
Qed.

(** ** The matcher on the patterns of the source *)

Section Matcher.

Lemma push_push_string c l cur :
  push_string l (push c cur) = push_string (String c l) cur.
Proof. destruct cur; reflexivity. Qed.

Lemma append_assoc (a b c : string) : ((a ++ b) ++ c = a ++ (b ++ c))%string.
Proof. induction a as [|x a IH]; simpl; [reflexivity | now rewrite IH]. Qed.

Lemma append_nil_r (a : string) : (a ++ "" = a)%string.
Proof. induction a as [|x a IH]; simpl; [reflexivity | now rewrite IH]. Qed.

Lemma rev_string_app (s acc : string) :
  rev_string acc s = (rev_string "" s ++ acc)%string.
Proof.
  revert acc. induction s as [|c s IH]; intros acc; simpl; [reflexivity|].
  rewrite IH, (IH (String c "")), append_assoc. reflexivity.
Qed.

Lemma rev_string_append (a b : string) :
  rev_string "" (a ++ b) = (rev_string "" b ++ rev_string "" a)%string.
Proof.
  induction a as [|c a IH]; simpl.
  - now rewrite append_nil_r.
  - rewrite rev_string_app, IH, (rev_string_app a (String c "")), append_assoc.
    reflexivity.
Qed.

Lemma rev_string_involutive (s : string) : rev_string "" (rev_string "" s) = s.
Proof.
  induction s as [|c s IH]; simpl; [reflexivity|].
  rewrite (rev_string_app s (String c "")), rev_string_append, IH. reflexivity.
Qed.

(** The unfolding of the matcher on a greedy [+]. *)
Lemma match_here_plus p pat d s cur caps :
  match_here (Plus p :: pat) (String d s) cur caps =
  if p d then
    match match_here (Plus p :: pat) s (push d cur) caps with
    | Some r => Some r
    | None => match_here pat s (push d cur) caps
    end
  else None.
Proof. reflexivity. Qed.

Lemma match_here_plus_nil p pat cur caps :
  match_here (Plus p :: pat) "" cur caps = None.
Proof. reflexivity. Qed.

(** Literals: the input has to start with them. *)
Lemma match_here_lits l : forall pat s cur caps,
  match_here (lits l ++ pat)%list (l ++ s) cur caps =
  match_here pat s (push_string l cur) caps.
Proof.
  induction l as [|c l IH]; intros pat s cur caps.
  - destruct cur; reflexivity.
  - simpl. rewrite Ascii.eqb_refl, IH, push_push_string. reflexivity.
Qed.

Lemma match_here_lits_inv l : forall pat s cur caps r,
  match_here (lits l ++ pat)%list s cur caps = Some r ->
  exists s', s = (l ++ s')%string /\
             match_here pat s' (push_string l cur) caps = Some r.
Proof.
  induction l as [|c l IH]; intros pat s cur caps r H.
  - exists s. split; [reflexivity|]. destruct cur; exact H.
  - simpl in H. destruct s as [|d s]; [discriminate|].
    destruct (Ascii.eqb_spec d c) as [->|N]; [|discriminate].
    apply IH in H. destruct H as [s' [E H]]. exists s'. subst s.
    split; [reflexivity|]. now rewrite <- push_push_string.
Qed.

(** A greedy run followed by a literal outside the class of the run: the
    run is consumed whole, and no shorter run can match. *)
Lemma match_here_plus_lit p c pat s caps :
  p c = false ->
  forall ds cur,
    ds <> "" -> all_chars p ds = true ->
    match_here (Plus p :: Lit c :: pat) (ds ++ String c s) cur caps =
    match_here pat s (push c (push_string ds cur)) caps.
Proof.
  intros Hc. induction ds as [|d ds IH]; intros cur Hne Hall; [easy|].
  simpl in Hall. apply andb_prop in Hall. destruct Hall as [Hd Hall].
  cbn [append]. rewrite match_here_plus, Hd.
  destruct ds as [|d' ds].
  - cbn [append]. rewrite match_here_plus, Hc.
    cbn [match_here]. rewrite Ascii.eqb_refl.
    destruct cur; reflexivity.
  - rewrite IH by (easy || exact Hall). rewrite push_push_string.
    destruct (match_here pat s (push c (push_string (String d (String d' ds)) cur)) caps)
      eqn:E; [reflexivity|].
    cbn [append match_here]. simpl in Hall. apply andb_prop in Hall.
    destruct (Ascii.eqb_spec d' c) as [->|N]; [|reflexivity].
    destruct Hall as [Hd' _]. congruence.
Qed.

Lemma match_here_plus_lit_inv p c pat caps r :
  p c = false ->
  forall s cur,
    match_here (Plus p :: Lit c :: pat) s cur caps = Some r ->
    exists ds s', ds <> "" /\ all_chars p ds = true /\
                   s = (ds ++ String c s')%string /\
                   match_here pat s' (push c (push_string ds cur)) caps = Some r.
Proof.
  intros Hc. induction s as [|d s IH]; intros cur H; [discriminate|].
  rewrite match_here_plus in H. destruct (p d) eqn:Hd; [|discriminate].
  destruct (match_here (Plus p :: Lit c :: pat) s (push d cur) caps) eqn:E.
  - inversion H; subst. apply IH in E. destruct E as [ds [s' [Hne [Hall [Es Hm]]]]].
    exists (String d ds), s'. repeat split.
    + discriminate.
    + simpl. now rewrite Hd, Hall.
    + now rewrite Es.
    + now rewrite <- push_push_string.
  - cbn [match_here] in H. destruct s as [|d' s]; [discriminate|].
    destruct (Ascii.eqb_spec d' c) as [->|N]; [|discriminate].
    exists (String d ""), s. repeat split.
    + discriminate.
    + simpl. now rewrite Hd.
    + destruct cur; exact H.
Qed.

Lemma match_here_open pat s cur caps :
  match_here (Open :: pat) s cur caps = match_here pat s (Some "") caps.
Proof. reflexivity. Qed.

Lemma match_here_close pat s acc caps :
  match_here (Close :: pat) s (Some acc) caps =
  match_here pat s None (rev_string "" acc :: caps).
Proof. reflexivity. Qed.

Lemma captured_percent ds :
  rev_string "" (String "%" (rev_string "" ds)) = (ds ++ "%")%string.
Proof.
  cbn [rev_string]. now rewrite rev_string_app, rev_string_involutive.
Qed.

Lemma match_here_percent_group pat ds s caps :
  is_digits ds ->
  match_here (percent_group ++ pat)%list (ds ++ String "%" s) None caps =
  match_here pat s None ((ds ++ "%")%string :: caps).
Proof.
  intros [Hne Hall]. cbn [percent_group app]. rewrite match_here_open.
  rewrite (match_here_plus_lit is_digit "%" (Close :: pat) s caps eq_refl ds
             (Some "") Hne Hall).
  cbn [push_string push]. now rewrite match_here_close, captured_percent.
Qed.

Lemma match_here_percent_group_inv pat s caps r :
  match_here (percent_group ++ pat)%list s None caps = Some r ->
  exists ds s', is_digits ds /\ s = (ds ++ String "%" s')%string /\
                match_here pat s' None ((ds ++ "%")%string :: caps) = Some r.
Proof.
  intros H. cbn [percent_group app] in H. rewrite match_here_open in H.
  apply (match_here_plus_lit_inv is_digit "%" (Close :: pat) caps r eq_refl)
    in H.
  destruct H as [ds [s' [Hne [Hall [E H]]]]]. exists ds, s'.
  cbn [push_string push] in H.
  rewrite match_here_close, captured_percent in H.
  repeat split; assumption.
Qed.

Lemma match_at_two_groups a b x y rest :
  is_digits x -> is_digits y ->
  match_at (two_groups a b)
    (a ++ x ++ String "%" (b ++ y ++ String "%" (")" ++ rest))) =
  Some ([(x ++ "%")%string; (y ++ "%")%string], rest).
Proof.
  intros Hx Hy. unfold match_at, two_groups.
  rewrite match_here_lits. cbn [push_string].
  rewrite match_here_percent_group by exact Hx.
  rewrite match_here_lits. cbn [push_string].
  rewrite match_here_percent_group by exact Hy.
  rewrite <- (app_nil_r (lits ")")), match_here_lits. reflexivity.
Qed.

Lemma match_at_two_groups_inv a b s caps rest :
  match_at (two_groups a b) s = Some (caps, rest) ->
  exists x y, is_digits x /\ is_digits y /\
    caps = [(x ++ "%")%string; (y ++ "%")%string] /\
    s = (a ++ x ++ String "%" (b ++ y ++ String "%" (")" ++ rest)))%string.
Proof.
  unfold match_at, two_groups. intros H.
  apply match_here_lits_inv in H. destruct H as [s1 [E1 H]]. cbn [push_string] in H.
  apply match_here_percent_group_inv in H. destruct H as [x [s2 [Hx [E2 H]]]].
  apply match_here_lits_inv in H. destruct H as [s3 [E3 H]]. cbn [push_string] in H.
  apply match_here_percent_group_inv in H. destruct H as [y [s4 [Hy [E4 H]]]].
  rewrite <- (app_nil_r (lits ")")) in H.
  apply match_here_lits_inv in H. destruct H as [s5 [E5 H]].
  cbn [match_here rev app] in H. inversion H; subst.
  exists x, y. split; [exact Hx | split; [exact Hy | split; reflexivity]].
Qed.

Lemma match_at_one_group a x rest :
  is_digits x ->
  match_at (one_group a) (a ++ x ++ String "%" (")" ++ rest)) =
  Some ([(x ++ "%")%string], rest).
Proof.
  intros Hx. unfold match_at, one_group.
  rewrite match_here_lits. cbn [push_string].
  rewrite match_here_percent_group by exact Hx.
  rewrite <- (app_nil_r (lits ")")), match_here_lits. reflexivity.
Qed.

Lemma match_at_one_group_inv a s caps rest :
  match_at (one_group a) s = Some (caps, rest) ->
  exists x, is_digits x /\ caps = [(x ++ "%")%string] /\
    s = (a ++ x ++ String "%" (")" ++ rest))%string.
Proof.
  unfold match_at, one_group. intros H.
  apply match_here_lits_inv in H. destruct H as [s1 [E1 H]]. cbn [push_string] in H.
  apply match_here_percent_group_inv in H. destruct H as [x [s2 [Hx [E2 H]]]].
  rewrite <- (app_nil_r (lits ")")) in H.
  apply match_here_lits_inv in H. destruct H as [s5 [E5 H]].
  cbn [match_here rev app] in H. inversion H; subst.
  exists x. split; [exact Hx | split; reflexivity].
Qed.

(** *** The scan *)

Lemma findall_no_match_in pat pre s :
  no_match_in pat pre s = true ->
  findall pat (pre ++ s) = findall pat s.
Proof.
  unfold findall. induction pre as [|c pre IH]; intros H; [reflexivity|].
  cbn [no_match_in] in H. cbn [append findall_from].
  destruct (match_at pat (String c pre ++ s)) eqn:E; [discriminate|].
  cbn [append] in E. rewrite E. now apply IH.
Qed.

Lemma findall_match pat s caps rest :
  match_at pat s = Some (caps, rest) ->
  exists more, findall pat s = caps :: more.
Proof.
  intros H. unfold findall. destruct s as [|c s]; cbn [findall_from]; rewrite H.
  - now exists [].
  - now eexists.
Qed.

Lemma findall_from_head pat s : forall skip caps more,
  findall_from pat skip s = caps :: more ->
  exists t rest, match_at pat t = Some (caps, rest).
Proof.
  induction s as [|c s IH]; intros skip caps more H.
  - destruct skip; [|discriminate]. cbn [findall_from] in H.
    destruct (match_at pat "") as [[caps' rest]|] eqn:E; [|discriminate].
    inversion H; subst. now exists "", rest.
  - destruct skip as [|k]; cbn [findall_from] in H.
    + destruct (match_at pat (String c s)) as [[caps' rest]|] eqn:E.
      * inversion H; subst. now exists (String c s), rest.
      * now apply IH in H.
    + now apply IH in H.
Qed.

End Matcher.

(** ** The response parser *)

Section Parser.

Lemma int_digits_total ds : forall acc,
  all_chars is_digit ds = true -> exists v, int_digits acc ds = Ok v.
Proof.
  induction ds as [|c ds IH]; intros acc H; simpl.
  - now exists acc.
  - simpl in H. apply andb_prop in H. destruct H as [Hc H].
    rewrite Hc. now apply IH.
Qed.

Lemma int_is_digits ds : is_digits ds -> int ds = Ok (value_of ds).
Proof.
  intros [Hne Hall]. unfold value_of.
  destruct ds as [|c ds]; [easy|]. unfold int.
  destruct (int_digits_total (String c ds) 0 Hall) as [v E].
  now rewrite E.
Qed.

Lemma int_digits_inv ds : forall acc v,
  int_digits acc ds = Ok v -> all_chars is_digit ds = true.
Proof.
  induction ds as [|c ds IH]; intros acc v H; simpl in *; [reflexivity|].
  destruct (is_digit c); [|discriminate]. simpl. now apply IH in H.
Qed.

Lemma int_ok_is_digits ds v : int ds = Ok v -> is_digits ds /\ value_of ds = v.
Proof.
  intros H. unfold value_of. rewrite H. split; [|reflexivity].
  destruct ds as [|c ds]; [discriminate|]. split; [discriminate|].
  unfold int in H. now apply int_digits_inv in H.
Qed.

Lemma remove_percent ds :
  all_chars is_digit ds = true -> remove_char percent (ds ++ "%") = ds.
Proof.
  induction ds as [|c ds IH]; intros H; [reflexivity|].
  simpl in H. apply andb_prop in H. destruct H as [Hc H].
  cbn [append remove_char]. rewrite (IH H).
  destruct (Ascii.eqb_spec c percent) as [->|N]; [discriminate|reflexivity].
Qed.

Lemma int_percent ds :
  is_digits ds -> int (remove_char percent (ds ++ "%")) = Ok (value_of ds).
Proof.
  intros H. rewrite remove_percent by apply H. now apply int_is_digits.
Qed.

Lemma FORECAST_PATTERN_1_shape :
  FORECAST_PATTERN_1 = two_groups "(decrease " " | increase ".
Proof. reflexivity. Qed.

Lemma FORECAST_PATTERN_2_shape :
  FORECAST_PATTERN_2 = two_groups "(increase " " | decrease ".
Proof. reflexivity. Qed.

Lemma INFORMATIVENESS_PATTERN_shape :
  INFORMATIVENESS_PATTERN = one_group "(informativeness: ".
Proof. reflexivity. Qed.

(** What [findall] can have as its first element, per pattern. *)
Lemma findall_two_groups_head a b s caps more :
  findall (two_groups a b) s = caps :: more ->
  exists x y, is_digits x /\ is_digits y /\
              caps = [(x ++ "%")%string; (y ++ "%")%string].
Proof.
  intros H. apply findall_from_head in H. destruct H as [t [rest H]].
  apply match_at_two_groups_inv in H.
  destruct H as [x [y [Hx [Hy [E _]]]]]. now exists x, y.
Qed.

Lemma findall_one_group_head a s caps more :
  findall (one_group a) s = caps :: more ->
  exists x, is_digits x /\ caps = [(x ++ "%")%string].
Proof.
  intros H. apply findall_from_head in H. destruct H as [t [rest H]].
  apply match_at_one_group_inv in H.
  destruct H as [x [Hx [E _]]]. now exists x.
Qed.

(** The informativeness [get_rate] extracts: always a number, 50 when the
    pattern is absent. *)
Lemma informativeness_total lower_summary :
  exists inf,
    match findall INFORMATIVENESS_PATTERN lower_summary with
    | [] => Ok 50
    | groups :: _ => g <- item groups 0 ;; int (remove_char percent g)
    end = Ok inf /\
    (findall INFORMATIVENESS_PATTERN lower_summary = [] -> inf = 50).
Proof.
  destruct (findall INFORMATIVENESS_PATTERN lower_summary) as [|groups more] eqn:E.
  - now exists 50.
  - rewrite INFORMATIVENESS_PATTERN_shape in E.
    apply findall_one_group_head in E. destruct E as [x [Hx ->]].
    exists (value_of x). split; [|discriminate].
    cbn [item nth_error bind]. now apply int_percent.
Qed.

(** [get_rate] once the list [forecasts] is a matched pair of groups. *)
Lemma get_rate_forecast summary x y more :
  is_digits x -> is_digits y ->
  (findall FORECAST_PATTERN_1 (lower summary) =
     [(x ++ "%")%string; (y ++ "%")%string] :: more \/
   (findall FORECAST_PATTERN_1 (lower summary) = [] /\
    findall FORECAST_PATTERN_2 (lower summary) =
      [(y ++ "%")%string; (x ++ "%")%string] :: more)) ->
  exists inf,
    get_rate summary =
    Ok {| Decrease_Probability := value_of x;
          Increase_Probability := value_of y;
          Informativeness := inf |} /\
    (findall INFORMATIVENESS_PATTERN (lower summary) = [] -> inf = 50).
Proof.
  intros Hx Hy H.
  destruct (informativeness_total (lower summary)) as [inf [EI D]].
  exists inf. split; [|exact D]. unfold get_rate.
  destruct H as [E1 | [E1 E2]].
  - rewrite E1. cbn [map bind]. rewrite EI.
    cbn [bind item nth_error subscript].
    rewrite (int_percent x Hx). cbn [bind]. rewrite (int_percent y Hy).
    reflexivity.
  - rewrite E1, E2. cbn [map len List.length Nat.leb bind subscript nth_error].
    rewrite EI. cbn [bind item nth_error subscript].
    rewrite (int_percent x Hx). cbn [bind]. rewrite (int_percent y Hy).
    reflexivity.
Qed.

(** [get_rate] on the default list [["50%", "50%"]]: [forecasts[0]] is the
    string ["50%"], whose characters 0 and 1 are ["5"] and ["0"]. *)
Lemma get_rate_default summary :
  findall FORECAST_PATTERN_1 (lower summary) = [] ->
  findall FORECAST_PATTERN_2 (lower summary) = [] ->
  exists inf,
    get_rate summary =
    Ok {| Decrease_Probability := 5;
          Increase_Probability := 0;
          Informativeness := inf |} /\
    (findall INFORMATIVENESS_PATTERN (lower summary) = [] -> inf = 50).
Proof.
  intros E1 E2.
  destruct (informativeness_total (lower summary)) as [inf [EI D]].
  exists inf. split; [|exact D]. unfold get_rate.
  rewrite E1, E2. cbn [map bind]. rewrite EI. reflexivity.
Qed.

End Parser.

Lemma two_groups_text_app a x b y rest :
  ((a ++ x ++ String "%" (b ++ y ++ String "%" ")")) ++ rest)%string =
  (a ++ x ++ String "%" (b ++ y ++ String "%" (")" ++ rest)))%string.
Proof.
  rewrite !append_assoc. cbn [append]. rewrite !append_assoc. reflexivity.
Qed.

Lemma findall_leftmost_two_groups a b text pre x y post :
  is_digits x -> is_digits y ->
  leftmost_match (two_groups a b) text pre
    (a ++ x ++ String "%" (b ++ y ++ String "%" ")")) post ->
  exists more,
    findall (two_groups a b) text =
    [(x ++ "%")%string; (y ++ "%")%string] :: more.
Proof.
  intros Hx Hy [-> N]. rewrite (findall_no_match_in _ _ _ N).
  rewrite two_groups_text_app.
  apply (findall_match _ _ _ post). now apply match_at_two_groups.
Qed.

(** [get_rate] never raises; the informativeness is 50 when its pattern is
    absent. *)
Lemma get_rate_total summary :
  exists r, get_rate summary = Ok r /\
    (findall INFORMATIVENESS_PATTERN (lower summary) = [] ->
     Informativeness r = 50).
Proof.
  destruct (findall FORECAST_PATTERN_1 (lower summary)) as [|c1 m1] eqn:E1.
  - destruct (findall FORECAST_PATTERN_2 (lower summary)) as [|c2 m2] eqn:E2.
    + destruct (get_rate_default summary E1 E2) as [inf [E D]].
      eexists. split; [exact E | exact D].
    + pose proof E2 as E2'. rewrite FORECAST_PATTERN_2_shape in E2'.
      apply findall_two_groups_head in E2'.
      destruct E2' as [x [y [Hx [Hy ->]]]].
      destruct (get_rate_forecast summary y x m2 Hy Hx) as [inf [E D]];
        [right; now split|].
      eexists. split; [exact E | exact D].
  - pose proof E1 as E1'. rewrite FORECAST_PATTERN_1_shape in E1'.
    apply findall_two_groups_head in E1'.
    destruct E1' as [x [y [Hx [Hy ->]]]].
    destruct (get_rate_forecast summary x y m1 Hx Hy) as [inf [E D]];
      [now left|].
    eexists. split; [exact E | exact D].
Qed.

(** C1: for a response text with neither forecast pattern, [get_rate]
    falls back on the list [["50%", "50%"]] and reads the characters 0 and 1
    of its first string: it returns decrease 5 and increase 0, not 50 and
    50.  The informativeness is 50 when its pattern is absent. *)
Theorem get_rate_default_rating :
  forall summary : string,
    findall FORECAST_PATTERN_1 (lower summary) = [] ->
    findall FORECAST_PATTERN_2 (lower summary) = [] ->
    exists inf,
      get_rate summary =
      Ok {| Decrease_Probability := 5;
            Increase_Probability := 0;
            Informativeness := inf |} /\
      (findall INFORMATIVENESS_PATTERN (lower summary) = [] -> inf = 50).
Proof.
  intros summary E1 E2. exact (get_rate_default summary E1 E2).
Qed.

Lemma get_rate_default_rating_witness :
  exists inf,
    get_rate "The article is neutral." =
    Ok {| Decrease_Probability := 5;
          Increase_Probability := 0;
          Informativeness := inf |} /\
    (findall INFORMATIVENESS_PATTERN (lower "The article is neutral.") = [] ->
     inf = 50).
Proof.
  apply (get_rate_default_rating "The article is neutral."); reflexivity.
Defined.

(** C2 as stated fails: the text below contains
    ["(increase 70% | decrease 30%)"] and no decrease-first pattern, and
    [get_rate] returns decrease 90 and increase 10, the groups of the first
    reversed pattern of the text. *)
Lemma get_rate_first_reversed_pattern_wins :
  let summary :=
    "(increase 10% | decrease 90%) (increase 70% | decrease 30%)" in
  summary =
    ("(increase 10% | decrease 90%) " ++ "(increase 70% | decrease 30%)")%string /\
  findall FORECAST_PATTERN_1 (lower summary) = [] /\
  get_rate summary =
  Ok {| Decrease_Probability := 90;
        Increase_Probability := 10;
        Informativeness := 50 |}.
Proof.
  repeat split.
Qed.

(** C2, amended: when the leftmost reversed-order pattern of the lower-cased
    text is ["(increase Q% | decrease P%)"] and the text has no decrease-first
    pattern, [get_rate] returns decrease [P] and increase [Q]: the same pair
    as for a text whose leftmost decrease-first pattern is
    ["(decrease P% | increase Q%)"]. *)
Theorem get_rate_order_invariant :
  forall (summary summary' pre post pre' post' P Q : string) (p q : Z),
    int P = Ok p -> int Q = Ok q ->
    leftmost_match FORECAST_PATTERN_2 (lower summary) pre
      ("(increase " ++ Q ++ "% | decrease " ++ P ++ "%)") post ->
    findall FORECAST_PATTERN_1 (lower summary) = [] ->
    leftmost_match FORECAST_PATTERN_1 (lower summary') pre'
      ("(decrease " ++ P ++ "% | increase " ++ Q ++ "%)") post' ->
    exists inf inf',
      get_rate summary =
      Ok {| Decrease_Probability := p;
            Increase_Probability := q;
            Informativeness := inf |} /\
      get_rate summary' =
      Ok {| Decrease_Probability := p;
            Increase_Probability := q;
            Informativeness := inf' |}.
Proof.
  intros summary summary' pre post pre' post' P Q p q HP HQ L2 N1 L1.
  apply int_ok_is_digits in HP. destruct HP as [HP <-].
  apply int_ok_is_digits in HQ. destruct HQ as [HQ <-].
  rewrite FORECAST_PATTERN_2_shape in L2.
  destruct (findall_leftmost_two_groups _ _ _ _ Q P _ HQ HP L2) as [m2 E2].
  rewrite FORECAST_PATTERN_1_shape in L1.
  destruct (findall_leftmost_two_groups _ _ _ _ P Q _ HP HQ L1) as [m1 E1].
  destruct (get_rate_forecast summary P Q m2 HP HQ) as [inf [R _]];
    [right; now split|].
  destruct (get_rate_forecast summary' P Q m1 HP HQ) as [inf' [R' _]];
    [now left|].
  now exists inf, inf'.
Qed.

Lemma get_rate_order_invariant_witness :
  exists inf inf',
    get_rate "Up. (Increase 70% | Decrease 30%)" =
    Ok {| Decrease_Probability := 30;
          Increase_Probability := 70;
          Informativeness := inf |} /\
    get_rate "Down? (decrease 30% | increase 70%) (Informativeness: 80%)" =
    Ok {| Decrease_Probability := 30;
          Increase_Probability := 70;
          Informativeness := inf' |}.
Proof.
  apply (get_rate_order_invariant
           "Up. (Increase 70% | Decrease 30%)"
           "Down? (decrease 30% | increase 70%) (Informativeness: 80%)"
           "up. " "" "down? " " (informativeness: 80%)" "30" "70" 30 70);
    try reflexivity; split; reflexivity.
Defined.

(** ** Rounding to binary64 *)

Section Rounding.

Lemma rhe_div_error p q :
  0 < q -> - q <= 2 * (q * rhe_div p q - p) <= q.
Proof.
  intros Hq. unfold rhe_div.
  pose proof (Z.div_mod p q ltac:(lia)) as E.
  pose proof (Z.mod_pos_bound p q Hq) as B.
  destruct (2 * (p mod q) <? q) eqn:C1; [apply Z.ltb_lt in C1; lia|].
  apply Z.ltb_ge in C1.
  destruct (q <? 2 * (p mod q)) eqn:C2; [apply Z.ltb_lt in C2; lia|].
  apply Z.ltb_ge in C2.
  destruct (Z.even (p / q)); lia.
Qed.

Lemma rhe_div_lower p q m : 0 < q -> m * q <= p -> m <= rhe_div p q.
Proof.
  intros Hq H. pose proof (rhe_div_error p q Hq) as E.
  assert (q * m <= q * rhe_div p q + q / 2 + 1) by (pose proof (Z.div_mod q 2 ltac:(lia)); pose proof (Z.mod_pos_bound q 2 ltac:(lia)); lia).
  unfold rhe_div in *.
  pose proof (Z.div_mod p q ltac:(lia)) as D.
  pose proof (Z.mod_pos_bound p q Hq) as B.
  assert (m <= p / q) by (apply Z.div_le_lower_bound; lia).
  destruct (2 * (p mod q) <? q); [lia|].
  destruct (q <? 2 * (p mod q)); [lia|].
  destruct (Z.even (p / q)); lia.
Qed.

Lemma rhe_div_upper p q m : 0 < q -> p <= m * q -> rhe_div p q <= m.
Proof.
  intros Hq H. unfold rhe_div.
  pose proof (Z.div_mod p q ltac:(lia)) as D.
  pose proof (Z.mod_pos_bound p q Hq) as B.
  assert (L : p / q <= m) by (apply Z.div_le_upper_bound; lia).
  assert (C : p / q < m \/ (p / q = m /\ p mod q = 0)) by nia.
  destruct C as [C|[C1 C2]].
  - destruct (2 * (p mod q) <? q); [lia|].
    destruct (q <? 2 * (p mod q)); [lia|].
    destruct (Z.even (p / q)); lia.
  - rewrite C2. replace (2 * 0 <? q) with true by (symmetry; apply Z.ltb_lt; lia).
    exact L.
Qed.

Lemma rhe_div_even p q m :
  0 < q -> Z.even m = true -> - q <= 2 * (p - m * q) <= q -> rhe_div p q = m.
Proof.
  intros Hq Hm H. unfold rhe_div.
  pose proof (Z.div_mod p q ltac:(lia)) as D.
  pose proof (Z.mod_pos_bound p q Hq) as B.
  assert (C : p / q = m \/ p / q = m - 1) by nia.
  destruct C as [C|C].
  - rewrite C in *.
    destruct (2 * (p mod q) <? q) eqn:C1; [reflexivity|].
    apply Z.ltb_ge in C1.
    destruct (q <? 2 * (p mod q)) eqn:C2; [apply Z.ltb_lt in C2; lia|].
    now rewrite Hm.
  - rewrite C in *.
    destruct (2 * (p mod q) <? q) eqn:C1; [apply Z.ltb_lt in C1; lia|].
    destruct (q <? 2 * (p mod q)) eqn:C2; [lia|].
    replace (Z.even (m - 1)) with false; [lia|].
    rewrite Z.even_sub, Hm. reflexivity.
Qed.

Lemma ilog2_quot_lt a b m :
  0 < a -> 0 < b -> 0 <= m -> a < b * 2 ^ m -> ilog2_quot a b < m.
Proof.
  intros Ha Hb Hm H. unfold ilog2_quot.
  pose proof (Z.log2_spec a Ha) as [La Ua].
  pose proof (Z.log2_spec b Hb) as [Lb Ub].
  pose proof (Z.log2_nonneg a) as Na. pose proof (Z.log2_nonneg b) as Nb.
  assert (E : Z.log2 a - Z.log2 b <= m).
  { assert (2 ^ Z.log2 a < 2 ^ (Z.succ (Z.log2 b) + m)).
    { rewrite Z.pow_add_r by lia.
      assert (0 < 2 ^ m) by (apply Z.pow_pos_nonneg; lia). nia. }
    apply Z.pow_lt_mono_r_iff in H0; lia. }
  set (e := Z.log2 a - Z.log2 b) in *.
  destruct (Z.eq_dec e m) as [->|N].
  - replace (0 <=? m) with true by (symmetry; apply Z.leb_le; lia).
    replace (b * 2 ^ m <=? a) with false by (symmetry; apply Z.leb_gt; lia).
    lia.
  - destruct (if 0 <=? e then b * 2 ^ e <=? a else b <=? a * 2 ^ (- e)); lia.
Qed.

Lemma ilog2_quot_ge a b m :
  0 < a -> 0 < b -> 0 <= m -> b * 2 ^ m <= a -> m <= ilog2_quot a b.
Proof.
  intros Ha Hb Hm H. unfold ilog2_quot.
  pose proof (Z.log2_spec a Ha) as [La Ua].
  pose proof (Z.log2_spec b Hb) as [Lb Ub].
  pose proof (Z.log2_nonneg a) as Na. pose proof (Z.log2_nonneg b) as Nb.
  assert (E : m <= Z.log2 a - Z.log2 b).
  { assert (2 ^ (Z.log2 b + m) < 2 ^ Z.succ (Z.log2 a)).
    { rewrite Z.pow_add_r by lia.
      assert (0 < 2 ^ m) by (apply Z.pow_pos_nonneg; lia). nia. }
    apply Z.pow_lt_mono_r_iff in H0; lia. }
  set (e := Z.log2 a - Z.log2 b) in *.
  destruct (Z.eq_dec e m) as [->|N].
  - replace (0 <=? m) with true by (symmetry; apply Z.leb_le; lia).
    replace (b * 2 ^ m <=? a) with true by (symmetry; apply Z.leb_le; lia).
    lia.
  - destruct (if 0 <=? e then b * 2 ^ e <=? a else b <=? a * 2 ^ (- e)); lia.
Qed.

End Rounding.

Section Nearest.

Lemma pow2_pos t : 0 <= t -> 0 < 2 ^ t.
Proof. intros H. apply Z.pow_pos_nonneg; lia. Qed.

Lemma Zpos_pow2 t : 0 <= t -> Zpos (Z.to_pos (2 ^ t)) = 2 ^ t.
Proof. intros H. apply Z2Pos.id. now apply pow2_pos. Qed.

(** Below [2 ^ 53] times the unit the result is a multiple of a negative
    power of two. *)
Lemma nearest_neg_exp a b :
  0 < a -> 0 < b -> ulp_exp a b < 0 ->
  nearest a b =
  Qred (rhe_div (a * 2 ^ (- ulp_exp a b)) b # Z.to_pos (2 ^ (- ulp_exp a b))).
Proof.
  intros Ha Hb Hk. unfold nearest, scaled_round, dyadic.
  replace (a =? 0) with false by (symmetry; apply Z.eqb_neq; lia).
  rewrite !Z.abs_eq by lia.
  replace (0 <=? ulp_exp a b) with false by (symmetry; apply Z.leb_gt; lia).
  replace (Z.sgn a * Z.sgn b <? 0) with false; [reflexivity|].
  symmetry. apply Z.ltb_ge. rewrite (Z.sgn_pos a), (Z.sgn_pos b); lia.
Qed.

Lemma ulp_exp_bounds a b : -1074 <= ulp_exp a b.
Proof. unfold ulp_exp. lia. Qed.

Lemma ulp_exp_lt a b m :
  0 < a -> 0 < b -> 0 <= m -> a < b * 2 ^ m ->
  ulp_exp a b <= Z.max (m - 53) (-1074).
Proof.
  intros Ha Hb Hm H. pose proof (ilog2_quot_lt a b m Ha Hb Hm H).
  unfold ulp_exp. lia.
Qed.

Lemma ulp_exp_eq a b m :
  0 < a -> 0 < b -> 0 <= m -> b * 2 ^ m <= a -> a < b * 2 ^ (m + 1) ->
  ulp_exp a b = m - 52.
Proof.
  intros Ha Hb Hm L U.
  pose proof (ilog2_quot_lt a b (m + 1) Ha Hb ltac:(lia) U).
  pose proof (ilog2_quot_ge a b m Ha Hb Hm L).
  unfold ulp_exp. lia.
Qed.

(** A quotient of at most 100 rounds to a float between 0 and 100. *)
Lemma nearest_range a b :
  0 <= a -> 0 < b -> a <= 100 * b -> (0 <= nearest a b <= 100)%Q.
Proof.
  intros Ha Hb H. destruct (Z.eq_dec a 0) as [->|N].
  - unfold nearest. simpl. split; unfold Qle; simpl; lia.
  - assert (Ha' : 0 < a) by lia.
    assert (Hk : ulp_exp a b <= -46).
    { pose proof (ulp_exp_lt a b 7 Ha' Hb ltac:(lia) ltac:(change (2 ^ 7) with 128; lia)).
      lia. }
    rewrite nearest_neg_exp by lia.
    set (t := - ulp_exp a b) in *. assert (Ht : 0 <= t) by lia.
    pose proof (pow2_pos t Ht) as Hp.
    rewrite Qred_correct. unfold Qle. cbn [Qnum Qden]. rewrite Zpos_pow2 by lia.
    split.
    + assert (0 <= rhe_div (a * 2 ^ t) b) by (apply rhe_div_lower; nia). lia.
    + assert (rhe_div (a * 2 ^ t) b <= 100 * 2 ^ t) by (apply rhe_div_upper; nia).
      lia.
Qed.

Lemma not_too_large x : (0 <= x <= 100)%Q -> too_large x = false.
Proof.
  intros [L U]. unfold too_large.
  destruct (Qle_bool (inject_Z (2 ^ 1024)) (Qabs x)) eqn:E; [|reflexivity].
  apply Qle_bool_iff in E. rewrite Qabs_pos in E by exact L.
  pose proof (Qle_trans _ _ _ E U) as C. unfold Qle in C. cbn [Qnum Qden inject_Z] in C.
  apply Z.leb_le in C. vm_compute in C. discriminate.
Qed.

Lemma truediv_range a b :
  0 <= a -> 0 < b -> a <= 100 * b -> truediv a b = Ok (nearest a b).
Proof.
  intros Ha Hb H. unfold truediv.
  replace (b =? 0) with false by (symmetry; apply Z.eqb_neq; lia).
  now rewrite not_too_large by now apply nearest_range.
Qed.

(** [round(x, 2)] of a float between 0 and 100 is the float nearest to a
    number of hundredths between 0 and 100. *)
Lemma round2_range x :
  (0 <= x <= 100)%Q ->
  exists n, 0 <= n <= 10000 /\ round2 x = literal n 100 /\
            (0 <= round2 x <= 100)%Q.
Proof.
  intros [L U]. unfold round2, literal.
  set (n := rhe_div (Qnum x * 100) (Z.pos (Qden x))).
  unfold Qle in L, U. cbn [Qnum Qden] in L, U.
  assert (0 <= n) by (apply rhe_div_lower; lia).
  assert (n <= 10000) by (apply rhe_div_upper; lia).
  exists n. repeat split; try lia; apply nearest_range; lia.
Qed.

End Nearest.

(** On integers that a float holds exactly, [nearest], [round2] and [add]
    give what the Standard Library's IEEE 754 operations give: the quotients
    of the example of the specification, a quotient that falls on a decimal
    tie (2.675, which [round] takes to 2.67), a negative one, and the sum of
    the two example quotients. *)
Example nearest_is_binary64_division :
  of_spec_float (binary64_div 5000 150) = nearest 5000 150 /\
  of_spec_float (binary64_div 10000 150) = nearest 10000 150 /\
  of_spec_float (binary64_div 107 40) = nearest 107 40 /\
  of_spec_float (binary64_div (-1) 3) = nearest (-1) 3 /\
  of_spec_float (binary64_div 3333 100) = round2 (nearest 5000 150) /\
  of_spec_float (binary64_div 267 100) = round2 (nearest 107 40) /\
  of_spec_float
    (binary64_add (binary64_div 5000 150) (binary64_div 10000 150)) =
  add (nearest 5000 150) (nearest 10000 150).
Proof.
  repeat split.
Qed.

(** ** The compound aggregation *)

Section Aggregation.

Lemma fold_accumulate l : forall rise fall inform,
  fold_left accumulate l (rise, fall, inform) =
  (rise + rise_sum l, fall + fall_sum l, inform + total_weight l).
Proof.
  induction l as [|r l IH]; intros rise fall inform.
  - simpl. now rewrite !Z.add_0_r.
  - cbn [fold_left accumulate]. rewrite IH.
    unfold rise_sum, fall_sum, total_weight, Zsum. cbn [map fold_right].
    f_equal; [f_equal|]; lia.
Qed.

Lemma calc_compound_sums l :
  calc_compound l =
  (fall_prob <- truediv (fall_sum l) (total_weight l) ;;
   rise_prob <- truediv (rise_sum l) (total_weight l) ;;
   Ok (fall_prob, rise_prob)).
Proof.
  unfold calc_compound. now rewrite fold_accumulate.
Qed.

Lemma valid_sums l :
  Forall valid_rating l ->
  0 <= total_weight l /\
  0 <= fall_sum l <= 100 * total_weight l /\
  0 <= rise_sum l <= 100 * total_weight l.
Proof.
  induction 1 as [|r l [D [I W]] _ IH].
  - unfold total_weight, fall_sum, rise_sum. simpl. lia.
  - unfold total_weight, fall_sum, rise_sum, Zsum in *. cbn [map fold_right].
    nia.
Qed.

Lemma calc_compound_valid l :
  Forall valid_rating l -> 0 < total_weight l ->
  calc_compound l =
  Ok (nearest (fall_sum l) (total_weight l),
      nearest (rise_sum l) (total_weight l)).
Proof.
  intros V W. destruct (valid_sums l V) as [_ [F R]].
  rewrite calc_compound_sums, !truediv_range by lia. reflexivity.
Qed.

Lemma calc_compound_zero l :
  total_weight l = 0 -> calc_compound l = Raise ZeroDivisionError.
Proof.
  intros W. rewrite calc_compound_sums, W. reflexivity.
Qed.

Lemma zero_weights l :
  Forall (fun r => Informativeness r = 0) l -> total_weight l = 0.
Proof.
  induction 1 as [|r l E _ IH]; [reflexivity|].
  unfold total_weight, Zsum in *. cbn [map fold_right]. lia.
Qed.

End Aggregation.

Lemma ratings_valid : Forall valid_rating [rating_1; rating_2].
Proof.
  repeat constructor; cbn; lia.
Qed.

(** C6: on a rating list with fields in range and positive total
    informativeness, [aggregate] returns the two informativeness-weighted
    averages, fall first: the quotient of the sums as Python computes it (the
    float nearest to the exact quotient), rounded to two decimals. *)
Theorem aggregate_weighted_average :
  forall l : list rating,
    l <> [] -> 0 < total_weight l -> Forall valid_rating l ->
    aggregate l =
    Ok (round2 (nearest (fall_sum l) (total_weight l)),
        round2 (nearest (rise_sum l) (total_weight l))).
Proof.
  intros l _ W V. unfold aggregate.
  now rewrite (calc_compound_valid l V W).
Qed.

(** The example of the specification: 33.33 and 66.67. *)
Lemma aggregate_weighted_average_witness :
  aggregate [rating_1; rating_2] = Ok (literal 3333 100, literal 6667 100).
Proof.
  rewrite (aggregate_weighted_average [rating_1; rating_2]).
  - reflexivity.
  - discriminate.
  - reflexivity.
  - exact ratings_valid.
Defined.

(** C7: when the total informativeness is zero (the empty list, or every
    rating with informativeness zero), [calc_compound] and so [aggregate]
    raise [ZeroDivisionError]: no pair is returned. *)
Theorem aggregate_zero_weight :
  forall l : list rating,
    Forall (fun r => Informativeness r = 0) l ->
    calc_compound l = Raise ZeroDivisionError /\
    aggregate l = Raise ZeroDivisionError /\
    is_ok (aggregate l) = false /\
    forall probs, aggregate l <> Ok probs.
Proof.
  intros l Z. apply zero_weights in Z. unfold aggregate.
  rewrite (calc_compound_zero l Z). cbn. repeat split. discriminate.
Qed.

Lemma aggregate_zero_weight_witness :
  (aggregate [] = Raise ZeroDivisionError /\
   aggregate [rating_zero; rating_zero] = Raise ZeroDivisionError) /\
  is_ok (aggregate []) = false.
Proof.
  destruct (aggregate_zero_weight []) as [_ [A [B _]]]; [constructor|].
  destruct (aggregate_zero_weight [rating_zero; rating_zero]) as [_ [C _]].
  - repeat constructor.
  - repeat split; assumption.
Defined.

(** In [save_compound] the exception is not a database error: it is not
    caught, and it leaves the table empty, as the rows were deleted first. *)
Lemma save_compound_zero_weight stocks company id values rest table :
  stocks company = Some id ->
  total_weight (rating_list values) = 0 ->
  save_compound stocks ((company, values) :: rest) table =
  (Raise ZeroDivisionError, []).
Proof.
  intros S W. unfold save_compound. cbn [stock_compounds]. rewrite S.
  unfold aggregate. rewrite (calc_compound_zero _ W). reflexivity.
Qed.

(** C8 as stated fails: the values are on the scale of the ratings, 0 to
    100.  The example of the specification gives 33.33 and 66.67, both above
    1. *)
Lemma aggregate_above_one :
  aggregate [rating_1; rating_2] = Ok (literal 3333 100, literal 6667 100) /\
  (1 < literal 3333 100)%Q /\ (1 < literal 6667 100)%Q.
Proof.
  repeat split.
Qed.

(** C8, amended: on a rating list with fields in range, the two values
    [aggregate] returns lie between 0 and 100, and each is the float of a
    number with two decimals. *)
Theorem aggregate_range :
  forall (l : list rating) (fall rise : float),
    Forall valid_rating l ->
    aggregate l = Ok (fall, rise) ->
    ((0 <= fall <= 100)%Q /\ (0 <= rise <= 100)%Q) /\
    exists n m, 0 <= n <= 10000 /\ 0 <= m <= 10000 /\
                fall = literal n 100 /\ rise = literal m 100.
Proof.
  intros l fall rise V H. destruct (valid_sums l V) as [W [F R]].
  destruct (Z.eq_dec (total_weight l) 0) as [Z|N].
  - unfold aggregate in H. rewrite (calc_compound_zero l Z) in H. discriminate.
  - unfold aggregate in H. rewrite (calc_compound_valid l V) in H by lia.
    cbn [bind fst snd] in H. inversion H; subst.
    destruct (round2_range (nearest (fall_sum l) (total_weight l)))
      as [n [Hn [En Rn]]]; [apply nearest_range; lia|].
    destruct (round2_range (nearest (rise_sum l) (total_weight l)))
      as [m [Hm [Em Rm]]]; [apply nearest_range; lia|].
    split; [split; assumption|]. exists n, m. repeat split; try lia; assumption.
Qed.

Lemma aggregate_range_witness :
  ((0 <= literal 3333 100 <= 100)%Q /\ (0 <= literal 6667 100 <= 100)%Q) /\
  exists n m, 0 <= n <= 10000 /\ 0 <= m <= 10000 /\
              literal 3333 100 = literal n 100 /\
              literal 6667 100 = literal m 100.
Proof.
  apply (aggregate_range [rating_1; rating_2]).
  - exact ratings_valid.
  - reflexivity.
Defined.

(** ** The sum of the two averages *)

Section SumTo100.

(** A rational within half a unit in the last place of 100 rounds to 100
    (on a tie, to the even mantissa, which is that of 100). *)
Lemma nearest_100 p q :
  0 < q -> - q <= 2 ^ 47 * (p - 100 * q) <= q -> nearest p q = 100%Q.
Proof.
  intros Hq H. change (2 ^ 47) with 140737488355328 in H.
  assert (Hp : 0 < p) by lia.
  assert (K : ulp_exp p q = -46).
  { rewrite (ulp_exp_eq p q 6);
      change (2 ^ 6) with 64; change (2 ^ (6 + 1)) with 128; lia. }
  rewrite nearest_neg_exp by lia. rewrite K. change (- -46) with 46.
  rewrite (rhe_div_even _ q (100 * 2 ^ 46)).
  - reflexivity.
  - exact Hq.
  - reflexivity.
  - change (2 ^ 46) with 70368744177664. lia.
Qed.

Lemma add_100 x y :
  (100 - half_ulp_100 <= x + y)%Q -> (x + y <= 100 + half_ulp_100)%Q ->
  add x y = 100%Q.
Proof.
  intros L U. unfold add.
  rewrite <- (Qred_correct (x + y)) in L, U.
  revert L U. generalize (Qred (x + y)). intros [p q] L U.
  cbn [Qnum Qden]. apply nearest_100; [reflexivity|].
  unfold Qle, half_ulp_100 in L, U. cbn in L, U.
  change (2 ^ 47) with 140737488355328. lia.
Qed.

Lemma nearest_zero b : nearest 0 b = 0%Q.
Proof. reflexivity. Qed.

(** The two quotients [a / b] and [c / b] add up to 100 and [c <= a]: the
    floats nearest to them add up to 100 within half a unit in the last place
    of 100. *)
Lemma nearest_sum_ordered a c b :
  0 < b -> 0 <= c -> c <= a -> a + c = 100 * b ->
  (100 - half_ulp_100 <= nearest a b + nearest c b)%Q /\
  (nearest a b + nearest c b <= 100 + half_ulp_100)%Q.
Proof.
  intros Hb Hc Hca E.
  assert (Ha : 0 < a) by lia.
  destruct (Z.eq_dec c 0) as [->|Nc].
  - rewrite nearest_zero, (nearest_100 a b Hb) by lia.
    split; unfold Qle, half_ulp_100; cbn; lia.
  - assert (Hc' : 0 < c) by lia.
    destruct (Z_le_gt_dec (64 * b) a) as [A|B].
    + (* a / b in [64, 100], c / b below 36 *)
      assert (K1 : ulp_exp a b = -46).
      { rewrite (ulp_exp_eq a b 6);
          change (2 ^ 6) with 64; change (2 ^ (6 + 1)) with 128; lia. }
      assert (K2 : -1074 <= ulp_exp c b <= -47).
      { split; [apply ulp_exp_bounds|].
        pose proof (ulp_exp_lt c b 6 Hc' Hb ltac:(lia)
                      ltac:(change (2 ^ 6) with 64; lia)). lia. }
      rewrite (nearest_neg_exp a b), (nearest_neg_exp c b) by lia.
      rewrite K1. change (- -46) with 46.
      set (t := - ulp_exp c b) in *.
      set (n1 := rhe_div (a * 2 ^ 46) b).
      set (n2 := rhe_div (c * 2 ^ t) b).
      pose proof (rhe_div_error (a * 2 ^ 46) b Hb) as R1. fold n1 in R1.
      assert (T : 2 ^ t = 2 ^ 47 * 2 ^ (t - 47)).
      { rewrite <- Z.pow_add_r by lia. f_equal. lia. }
      pose proof (pow2_pos (t - 47) ltac:(lia)) as Hu.
      set (u := 2 ^ (t - 47)) in *.
      assert (L2 : (2 * (100 * 2 ^ 46 - n1) - 1) * u <= n2).
      { apply rhe_div_lower; [exact Hb|]. rewrite T.
        change (2 ^ 46) with 70368744177664 in *.
        change (2 ^ 47) with 140737488355328. nia. }
      assert (U2 : n2 <= (2 * (100 * 2 ^ 46 - n1) + 1) * u).
      { apply rhe_div_upper; [exact Hb|]. rewrite T.
        change (2 ^ 46) with 70368744177664 in *.
        change (2 ^ 47) with 140737488355328. nia. }
      rewrite !Qred_correct.
      change (100 - half_ulp_100)%Q
        with (14073748835532799 # 140737488355328).
      change (100 + half_ulp_100)%Q
        with (14073748835532801 # 140737488355328).
      unfold Qle, Qplus. cbn [Qnum Qden]. rewrite !Pos2Z.inj_mul, !Zpos_pow2 by lia. rewrite T.
      change (2 ^ 46) with 70368744177664 in *.
      change (2 ^ 47) with 140737488355328.
      change (Z.pos 1) with 1. change (Qnum 100) with 100.
      change (QDen 100) with 1.
      clearbody n1 n2 u. split; lia.
    + (* both quotients in [32, 64) *)
      assert (K1 : ulp_exp a b = -47).
      { rewrite (ulp_exp_eq a b 5);
          change (2 ^ 5) with 32; change (2 ^ (5 + 1)) with 64; lia. }
      assert (K2 : ulp_exp c b = -47).
      { rewrite (ulp_exp_eq c b 5);
          change (2 ^ 5) with 32; change (2 ^ (5 + 1)) with 64; lia. }
      rewrite (nearest_neg_exp a b), (nearest_neg_exp c b) by lia.
      rewrite K1, K2. change (- -47) with 47.
      pose proof (rhe_div_error (a * 2 ^ 47) b Hb) as R1.
      pose proof (rhe_div_error (c * 2 ^ 47) b Hb) as R2.
      set (n1 := rhe_div (a * 2 ^ 47) b) in *.
      set (n2 := rhe_div (c * 2 ^ 47) b) in *.
      rewrite !Qred_correct.
      change (100 - half_ulp_100)%Q
        with (14073748835532799 # 140737488355328).
      change (100 + half_ulp_100)%Q
        with (14073748835532801 # 140737488355328).
      unfold Qle, Qplus. cbn [Qnum Qden]. rewrite !Pos2Z.inj_mul, !Zpos_pow2 by lia.
      change (2 ^ 47) with 140737488355328 in *.
      change (Z.pos 1) with 1. change (Qnum 100) with 100.
      change (QDen 100) with 1.
      clearbody n1 n2.
      assert (J : -1 <= n1 + n2 - 100 * 140737488355328 <= 1) by nia.
      split; lia.
Qed.

Lemma nearest_sum a c b :
  0 < b -> 0 <= a -> 0 <= c -> a + c = 100 * b ->
  add (nearest a b) (nearest c b) = 100%Q.
Proof.
  intros Hb Ha Hc E. destruct (Z_le_gt_dec c a) as [O|O].
  - destruct (nearest_sum_ordered a c b Hb Hc O E) as [L U].
    now apply add_100.
  - destruct (nearest_sum_ordered c a b Hb Ha ltac:(lia) ltac:(lia)) as [L U].
    apply add_100; rewrite Qplus_comm; assumption.
Qed.

End SumTo100.

Lemma sums_to_100 l :
  Forall (fun r => Decrease_Probability r + Increase_Probability r = 100) l ->
  fall_sum l + rise_sum l = 100 * total_weight l.
Proof.
  induction 1 as [|r l E _ IH].
  - reflexivity.
  - unfold fall_sum, rise_sum, total_weight, Zsum in *. cbn [map fold_right].
    nia.
Qed.

(** C10: when every rating has decrease + increase = 100 (fields in range,
    positive total informativeness), the two floats [calc_compound] returns
    add up to exactly 100.0 in Python's float addition.  Each float is the
    rounded quotient, so their sum as real numbers can miss 100 by half a unit
    in the last place ([2 ^ -47], see [calc_compound_exact_sum]); the
    addition rounds it back to 100. *)
Theorem calc_compound_sum_100 :
  forall l : list rating,
    l <> [] -> 0 < total_weight l ->
    Forall valid_rating l ->
    Forall (fun r => Decrease_Probability r + Increase_Probability r = 100) l ->
    exists fall_prob rise_prob,
      calc_compound l = Ok (fall_prob, rise_prob) /\
      add fall_prob rise_prob = 100%Q.
Proof.
  intros l _ W V S. destruct (valid_sums l V) as [_ [F R]].
  exists (nearest (fall_sum l) (total_weight l)),
         (nearest (rise_sum l) (total_weight l)).
  split; [now apply calc_compound_valid|].
  apply nearest_sum; try lia. now apply sums_to_100.
Qed.

Lemma calc_compound_sum_100_witness :
  exists fall_prob rise_prob,
    calc_compound [rating_1; rating_2] = Ok (fall_prob, rise_prob) /\
    add fall_prob rise_prob = 100%Q.
Proof.
  apply (calc_compound_sum_100 [rating_1; rating_2]).
  - discriminate.
  - reflexivity.
  - exact ratings_valid.
  - repeat constructor.
Defined.

(** On the example of the specification the two floats are the nearest to
    33.33... and 66.66...; their exact sum is [100 + 2 ^ -47]. *)
Example calc_compound_exact_sum :
  calc_compound [rating_1; rating_2] =
  Ok (4691249611844267 # 140737488355328, 4691249611844267 # 70368744177664) /\
  Qred ((4691249611844267 # 140737488355328) +
        (4691249611844267 # 70368744177664)) =
  (14073748835532801 # 140737488355328).
Proof.
  split; reflexivity.
Qed.

(** ** The text normalizer *)

Section Characters.

Ltac by_char_cases c := destruct c as [[] [] [] [] [] [] [] []]; reflexivity.

Lemma lower_char_idem c : lower_char (lower_char c) = lower_char c.
Proof. by_char_cases c. Qed.

Lemma lower_upper_char c : lower_char (upper_char c) = lower_char c.
Proof. by_char_cases c. Qed.

Lemma upper_char_idem c : upper_char (upper_char c) = upper_char c.
Proof. by_char_cases c. Qed.

Lemma is_word_lower_char c : is_word (lower_char c) = is_word c.
Proof. by_char_cases c. Qed.

Lemma is_word_upper_char c : is_word (upper_char c) = is_word c.
Proof. by_char_cases c. Qed.

Lemma is_space_lower_char c : is_space (lower_char c) = is_space c.
Proof. by_char_cases c. Qed.

Lemma is_space_upper_char c : is_space (upper_char c) = is_space c.
Proof. by_char_cases c. Qed.

End Characters.

Section Strings.

Lemma lower_append a b : lower (a ++ b) = (lower a ++ lower b)%string.
Proof. induction a as [|c a IH]; simpl; [reflexivity | now rewrite IH]. Qed.

Lemma lower_idem s : lower (lower s) = lower s.
Proof.
  induction s as [|c s IH]; simpl; [reflexivity|].
  now rewrite lower_char_idem, IH.
Qed.

Lemma lower_capitalize s : lower (capitalize s) = lower s.
Proof.
  destruct s as [|c s]; simpl; [reflexivity|].
  now rewrite lower_upper_char, lower_idem.
Qed.

Lemma capitalize_idem s : capitalize (capitalize s) = capitalize s.
Proof.
  destruct s as [|c s]; simpl; [reflexivity|].
  now rewrite upper_char_idem, lower_idem.
Qed.

Lemma lower_join ws : lower (join " " ws) = join " " (map lower ws).
Proof.
  induction ws as [|w ws IH]; [reflexivity|].
  destruct ws as [|w' ws]; [reflexivity|].
  change (join " " (w :: w' :: ws)) with (w ++ " " ++ join " " (w' :: ws))%string.
  rewrite !lower_append, IH. reflexivity.
Qed.

Lemma capitalize_join w ws :
  w <> "" -> capitalize (join " " (w :: ws)) = join " " (cap_words (w :: ws)).
Proof.
  intros Hw. destruct w as [|c w]; [easy|].
  destruct ws as [|w' ws]; [reflexivity|].
  change (join " " (String c w :: w' :: ws))
    with (String c (w ++ " " ++ join " " (w' :: ws)))%string.
  cbn [capitalize cap_words]. rewrite !lower_append, lower_join. reflexivity.
Qed.

Lemma cap_words_idem ws : cap_words (cap_words ws) = cap_words ws.
Proof.
  destruct ws as [|w ws]; [reflexivity|]. cbn [cap_words].
  rewrite capitalize_idem, map_map. f_equal. apply map_ext. apply lower_idem.
Qed.

Lemma all_chars_append p a b :
  all_chars p (a ++ b) = all_chars p a && all_chars p b.
Proof.
  induction a as [|c a IH]; simpl; [reflexivity|].
  now rewrite IH, andb_assoc.
Qed.

Lemma all_chars_weaken (p q : ascii -> bool) s :
  (forall c, p c = true -> q c = true) ->
  all_chars p s = true -> all_chars q s = true.
Proof.
  intros I. induction s as [|c s IH]; simpl; [reflexivity|].
  intros H. apply andb_prop in H. destruct H as [Hc H].
  now rewrite (I c Hc), IH.
Qed.

Lemma punctuation_free_join ws :
  Forall (fun w => all_chars is_word w = true) ws ->
  punctuation_free (join " " ws).
Proof.
  unfold punctuation_free. induction 1 as [|w ws Hw _ IH]; [reflexivity|].
  assert (Pw : all_chars plain_char w = true).
  { apply (all_chars_weaken is_word); [|exact Hw].
    intros c Hc. unfold plain_char. now rewrite Hc. }
  destruct ws as [|w' ws]; [exact Pw|].
  change (join " " (w :: w' :: ws)) with (w ++ " " ++ join " " (w' :: ws))%string.
  rewrite !all_chars_append, Pw, IH. reflexivity.
Qed.

Lemma all_word_lower w :
  all_chars is_word w = true -> all_chars is_word (lower w) = true.
Proof.
  induction w as [|c w IH]; simpl; [reflexivity|].
  intros H. apply andb_prop in H. destruct H as [Hc H].
  now rewrite is_word_lower_char, Hc, IH.
Qed.

Lemma all_word_capitalize w :
  all_chars is_word w = true -> all_chars is_word (capitalize w) = true.
Proof.
  destruct w as [|c w]; simpl; [reflexivity|].
  intros H. apply andb_prop in H. destruct H as [Hc H].
  now rewrite is_word_upper_char, Hc, all_word_lower.
Qed.

End Strings.

Section Substitutions.

(** A substitution leaves a text alone when its pattern cannot start at any
    of the characters of the text. *)
Lemma sub_identity pat repl (ok : ascii -> bool) :
  match_at pat "" = None ->
  (forall c t, ok c = true -> match_at pat (String c t) = None) ->
  forall s, all_chars ok s = true -> sub pat repl s = s.
Proof.
  intros E N. unfold sub. induction s as [|c s IH]; intros H.
  - cbn [sub_from]. now rewrite E.
  - simpl in H. apply andb_prop in H. destruct H as [Hc H].
    cbn [sub_from]. rewrite (N c s Hc). now rewrite IH.
Qed.

Lemma plain_not_paren c : plain_char c = true -> Ascii.eqb c "(" = false.
Proof.
  intros H. destruct (Ascii.eqb_spec c "(") as [->|]; [discriminate|reflexivity].
Qed.

Lemma delete_superfluous_plain s :
  punctuation_free s -> delete_superfluous s = s.
Proof.
  intros H. unfold delete_superfluous.
  rewrite (sub_identity SUPERFLUOUS_PATTERN_1 _ plain_char); try assumption.
  - rewrite (sub_identity SUPERFLUOUS_PATTERN_2 _ plain_char); try assumption.
    + reflexivity.
    + reflexivity.
    + intros c t Hc. unfold match_at. cbn [SUPERFLUOUS_PATTERN_2 lits app match_here].
      now rewrite (plain_not_paren c Hc).
  - reflexivity.
  - intros c t Hc. unfold match_at. cbn [SUPERFLUOUS_PATTERN_1 match_here].
    now rewrite (plain_not_paren c Hc).
Qed.

Lemma delete_punctuation_plain s :
  punctuation_free s -> delete_punctuation s = s.
Proof.
  intros H. unfold delete_punctuation.
  apply (sub_identity PUNCTUATION_PATTERN _ plain_char); try assumption.
  - reflexivity.
  - intros c t Hc. unfold match_at. cbn [PUNCTUATION_PATTERN match_here].
    unfold plain_char in Hc. now rewrite Hc.
Qed.

Lemma spacing_plain s :
  punctuation_free s -> sub SPACING_PATTERN spacing_repl s = s.
Proof.
  intros H. apply (sub_identity SPACING_PATTERN _ plain_char); try assumption.
  - reflexivity.
  - intros c t Hc. unfold match_at. cbn [SPACING_PATTERN match_here].
    destruct (Ascii.eqb_spec c ".") as [->|]; [discriminate|].
    destruct (Ascii.eqb_spec c "!") as [->|]; [discriminate|].
    destruct (Ascii.eqb_spec c "?") as [->|]; [discriminate|].
    reflexivity.
Qed.

End Substitutions.

(** *** Idempotence, for tokenizers that satisfy [NltkLaws] *)

Section Normalizer.

Context {N : Nltk} {L : NltkLaws N}.

Lemma text_processing_no_sentence x :
  sent_tokenize x = [] -> text_processing x = "".
Proof.
  intros E. unfold text_processing, article_tokenization. now rewrite E.
Qed.

Lemma word_tokens_plain ws :
  Forall word_token ws -> Forall (fun w => all_chars is_word w = true) ws.
Proof.
  intros H. eapply Forall_impl; [|exact H]. intros w [_ [A _]]. exact A.
Qed.

Lemma delete_stop_words_tokens ws :
  Forall word_token ws -> Forall word_token (delete_stop_words ws).
Proof.
  intros H. unfold delete_stop_words. rewrite Forall_forall in *.
  intros w Hw. apply filter_In in Hw. now apply H.
Qed.

Lemma cap_words_tokens ws :
  Forall word_token ws -> Forall word_token (cap_words ws).
Proof.
  intros H. destruct H as [|w ws Hw H]; [constructor|].
  cbn [cap_words]. constructor.
  - now apply word_token_case.
  - rewrite Forall_forall in *. intros w' Hw'. apply in_map_iff in Hw'.
    destruct Hw' as [v [<- Hv]]. now apply word_token_case, H.
Qed.

Lemma capitalize_words ws :
  Forall word_token ws ->
  capitalize (join " " ws) = join " " (cap_words ws).
Proof.
  intros H. destruct H as [|w ws [Hw _] _]; [reflexivity|].
  now apply capitalize_join.
Qed.

(** The normalizer on a single sentence without punctuation. *)
Lemma text_processing_sentence x s :
  sent_tokenize x = [s] -> punctuation_free s ->
  text_processing x =
  join " " (cap_words (delete_stop_words (word_tokenize s))).
Proof.
  intros E P. unfold text_processing, article_tokenization,
    sentence_tokenization.
  rewrite E. cbn [map join].
  rewrite (delete_superfluous_plain s P), (delete_punctuation_plain s P).
  pose proof (delete_stop_words_tokens _ (word_tokenize_plain s P)) as T.
  rewrite (capitalize_words _ T).
  apply spacing_plain, punctuation_free_join, word_tokens_plain.
  now apply cap_words_tokens.
Qed.

(** Stopwords are looked up in lower case, so a change of case does not make
    a word a stopword. *)
Lemma delete_stop_words_cap_words ws :
  delete_stop_words (cap_words (delete_stop_words ws)) =
  cap_words (delete_stop_words ws).
Proof.
  unfold delete_stop_words at 1.
  set (keep := fun word => negb (stop_words (lower word))).
  assert (K : Forall (fun w => keep w = true) (delete_stop_words ws)).
  { rewrite Forall_forall. intros w Hw. unfold delete_stop_words in Hw.
    now apply filter_In in Hw. }
  destruct K as [|w ws' Kw K]; [reflexivity|].
  cbn [cap_words filter]. unfold keep at 1. rewrite lower_capitalize.
  fold (keep w). rewrite Kw. f_equal.
  induction K as [|v vs Kv K IH]; [reflexivity|].
  cbn [map filter]. unfold keep at 1. rewrite lower_idem.
  fold (keep v). now rewrite Kv, IH.
Qed.

Lemma text_processing_fixpoint ws :
  Forall word_token ws ->
  let y := join " " (cap_words (delete_stop_words ws)) in
  text_processing y = y.
Proof.
  intros T y. subst y.
  pose proof (cap_words_tokens _ (delete_stop_words_tokens ws T)) as T'.
  destruct (cap_words (delete_stop_words ws)) as [|w' ws'] eqn:E.
  - apply text_processing_no_sentence. cbn [join]. apply sent_tokenize_empty.
  - rewrite <- E in *.
    rewrite (text_processing_sentence _ (join " " (cap_words (delete_stop_words ws)))).
    + rewrite (word_tokenize_words _ T').
      now rewrite delete_stop_words_cap_words, cap_words_idem.
    + apply sent_tokenize_words; [rewrite E; discriminate | exact T'].
    + now apply punctuation_free_join, word_tokens_plain.
Qed.

End Normalizer.

(** C9: with tokenizers that satisfy [NltkLaws], [text_processing] is
    idempotent on every text without punctuation; that the text has no
    stopwords and that its sentences are capitalized is not needed. *)
Theorem text_processing_idempotent :
  forall (N : Nltk) (L : NltkLaws N) (x : string),
    punctuation_free x ->
    text_processing (text_processing x) = text_processing x.
Proof.
  intros N L x P. destruct (sent_tokenize_plain x P) as [E|[s [E Ps]]].
  - rewrite (text_processing_no_sentence x E).
    apply text_processing_no_sentence, sent_tokenize_empty.
  - rewrite (text_processing_sentence x s E Ps).
    apply text_processing_fixpoint. now apply word_tokenize_plain.
Qed.

(** *** Tokenizers that satisfy the laws: splitting at white space *)

Section Whitespace.

Lemma word_not_space c : is_word c = true -> is_space c = false.
Proof. destruct c as [[] [] [] [] [] [] [] []]; (reflexivity || discriminate). Qed.

Lemma split_word w :
  w <> "" -> all_chars is_word w = true -> split w = [w].
Proof.
  induction w as [|c w IH]; intros Hne H; [easy|].
  simpl in H. apply andb_prop in H. destruct H as [Hc H].
  cbn [split]. rewrite (word_not_space c Hc).
  destruct w as [|d w]; [reflexivity|].
  pose proof H as H'. simpl in H'. apply andb_prop in H'. destruct H' as [Hd _].
  rewrite (word_not_space d Hd), IH by (easy || exact H). reflexivity.
Qed.

Lemma split_word_space w t :
  w <> "" -> all_chars is_word w = true ->
  split (w ++ String " " t) = w :: split t.
Proof.
  induction w as [|c w IH]; intros Hne H; [easy|].
  simpl in H. apply andb_prop in H. destruct H as [Hc H].
  cbn [append split]. rewrite (word_not_space c Hc).
  destruct w as [|d w]; [reflexivity|].
  pose proof H as H'. simpl in H'. apply andb_prop in H'. destruct H' as [Hd _].
  cbn [append]. rewrite (word_not_space d Hd).
  change (String d (w ++ String " " t)) with (String d w ++ String " " t)%string.
  rewrite IH by (easy || exact H). reflexivity.
Qed.

Lemma plain_word_token w :
  plain_word w -> @word_token whitespace_tokenizers w.
Proof.
  intros [Hne H]. repeat split; try assumption. now apply split_word.
Qed.

Lemma split_join ws :
  Forall plain_word ws -> split (join " " ws) = ws.
Proof.
  induction 1 as [|w ws [Hne H] _ IH]; [reflexivity|].
  destruct ws as [|w' ws]; [now apply split_word|].
  change (join " " (w :: w' :: ws))
    with (w ++ String " " (join " " (w' :: ws)))%string.
  now rewrite split_word_space, IH.
Qed.

Lemma plain_not_space c :
  plain_char c = true -> is_space c = false -> is_word c = true.
Proof.
  unfold plain_char. intros H S. rewrite S in H. now rewrite orb_false_r in H.
Qed.

Lemma split_plain s :
  punctuation_free s -> Forall plain_word (split s).
Proof.
  unfold punctuation_free. induction s as [|c s IH]; intros H; [constructor|].
  simpl in H. apply andb_prop in H. destruct H as [Hc H].
  specialize (IH H). cbn [split].
  destruct (is_space c) eqn:Sc; [exact IH|].
  pose proof (plain_not_space c Hc Sc) as Wc.
  destruct s as [|d s].
  - constructor; [|constructor]. split; [discriminate|]. simpl. now rewrite Wc.
  - destruct (is_space d) eqn:Sd.
    + constructor; [|exact IH]. split; [discriminate|]. simpl. now rewrite Wc.
    + destruct (split (String d s)) as [|w ws].
      * constructor; [|constructor]. split; [discriminate|]. simpl. now rewrite Wc.
      * inversion IH as [|? ? [Hw Aw] Hws]; subst.
        constructor; [|exact Hws]. split; [discriminate|]. simpl.
        now rewrite Wc, Aw.
Qed.

Lemma word_token_plain w :
  @word_token whitespace_tokenizers w -> plain_word w.
Proof. intros [Hne [H _]]. now split. Qed.

Lemma whitespace_laws : NltkLaws whitespace_tokenizers.
Proof.
  constructor.
  - reflexivity.
  - intros x P. cbn [sent_tokenize whitespace_tokenizers].
    destruct (split x); [now left|right]. now exists x.
  - intros ws Hne T. cbn [sent_tokenize whitespace_tokenizers].
    rewrite split_join.
    + destruct ws; [easy|reflexivity].
    + eapply Forall_impl; [|exact T]. apply word_token_plain.
  - intros s P. cbn [word_tokenize whitespace_tokenizers].
    eapply Forall_impl; [|exact (split_plain s P)]. apply plain_word_token.
  - intros ws T. cbn [word_tokenize whitespace_tokenizers].
    apply split_join. eapply Forall_impl; [|exact T]. apply word_token_plain.
  - intros w T. apply word_token_plain in T. destruct T as [Hne H].
    split; apply plain_word_token; split.
    + destruct w; [easy|discriminate].
    + now apply all_word_lower.
    + destruct w; [easy|discriminate].
    + now apply all_word_capitalize.
Qed.

End Whitespace.

Lemma text_processing_idempotent_witness :
  let normalize := @text_processing whitespace_tokenizers in
  normalize (normalize "Apple   beats the forecast of Analysts") =
  normalize "Apple   beats the forecast of Analysts" /\
  normalize "Apple   beats the forecast of Analysts" =
  "Apple beats forecast analysts".
Proof.
  split.
  - apply (text_processing_idempotent whitespace_tokenizers whitespace_laws).
    reflexivity.
  - reflexivity.
Defined.

(** * Further properties *)

(** ** The response parser *)

Section ParserMore.

Lemma bind_ok_inv {A B : Type} (r : result A) (k : A -> result B) (b : B) :
  bind r k = Ok b -> exists a, r = Ok a /\ k a = Ok b.
Proof.
  destruct r as [a|e]; simpl; intros H; [now exists a | discriminate].
Qed.

Lemma digit_value_nonneg c : is_digit c = true -> 0 <= digit_value c.
Proof.
  unfold is_digit, in_range, digit_value. intros H.
  apply andb_prop in H. destruct H as [H _]. apply Nat.leb_le in H. lia.
Qed.

Lemma int_digits_nonneg ds : forall acc v,
  0 <= acc -> int_digits acc ds = Ok v -> 0 <= v.
Proof.
  induction ds as [|c ds IH]; intros acc v Ha H; cbn [int_digits] in H.
  - inversion H; subst. exact Ha.
  - destruct (is_digit c) eqn:D; [|discriminate].
    eapply IH; [|exact H]. pose proof (digit_value_nonneg c D). lia.
Qed.

Lemma int_nonneg s v : int s = Ok v -> 0 <= v.
Proof.
  destruct s as [|c s]; [discriminate|]. unfold int.
  apply int_digits_nonneg. lia.
Qed.

(** What a returned rating is made of: three results of [int], or the
    default 50 for the informativeness. *)
Lemma get_rate_inv summary r :
  get_rate summary = Ok r ->
  (exists s, int s = Ok (Decrease_Probability r)) /\
  (exists s, int s = Ok (Increase_Probability r)) /\
  match findall INFORMATIVENESS_PATTERN (lower summary) with
  | [] => Ok 50
  | groups :: _ => g <- item groups 0 ;; int (remove_char percent g)
  end = Ok (Informativeness r).
Proof.
  unfold get_rate. intros H.
  apply bind_ok_inv in H. destruct H as [forecasts [_ H]].
  apply bind_ok_inv in H. destruct H as [inf [EI H]].
  apply bind_ok_inv in H. destruct H as [f0 [_ H]].
  apply bind_ok_inv in H. destruct H as [d [_ H]].
  apply bind_ok_inv in H. destruct H as [decrease [ED H]].
  apply bind_ok_inv in H. destruct H as [f1 [_ H]].
  apply bind_ok_inv in H. destruct H as [i [_ H]].
  apply bind_ok_inv in H. destruct H as [increase [EInc H]].
  inversion H; subst. cbn [Decrease_Probability Increase_Probability
    Informativeness].
  split; [eexists; exact ED|]. split; [eexists; exact EInc|]. exact EI.
Qed.

Lemma informativeness_nonneg lower_summary v :
  match findall INFORMATIVENESS_PATTERN lower_summary with
  | [] => Ok 50
  | groups :: _ => g <- item groups 0 ;; int (remove_char percent g)
  end = Ok v -> 0 <= v.
Proof.
  destruct (findall INFORMATIVENESS_PATTERN lower_summary) as [|groups more].
  - intros H. inversion H. lia.
  - intros H. apply bind_ok_inv in H. destruct H as [g [_ H]].
    now apply int_nonneg in H.
Qed.

End ParserMore.

(** X1: on a response text of at most 4300 characters, so that no number
    in it exceeds the limit of [int], [get_rate] never raises: the list
    [forecasts] is never empty when it is indexed and every string given to
    [int] is a run of digits.  The three numbers it returns are not
    negative; nothing bounds them by 100. *)
Theorem get_rate_returns :
  forall summary : string,
    (String.length summary <= int_max_str_digits)%nat ->
    exists r, get_rate summary = Ok r /\
              0 <= Decrease_Probability r /\
              0 <= Increase_Probability r /\
              0 <= Informativeness r.
Proof.
  intros summary _. destruct (get_rate_total summary) as [r [E _]].
  exists r. split; [exact E|].
  destruct (get_rate_inv summary r E) as [[s1 D] [[s2 I] F]].
  repeat split.
  - now apply int_nonneg in D.
  - now apply int_nonneg in I.
  - now apply informativeness_nonneg in F.
Qed.

Lemma get_rate_returns_witness :
  exists r,
    get_rate "Sales fell. (Decrease 130% | Increase 0%) (Informativeness: 250%)" =
    Ok r /\
    0 <= Decrease_Probability r /\
    0 <= Increase_Probability r /\
    0 <= Informativeness r.
Proof.
  apply (get_rate_returns
           "Sales fell. (Decrease 130% | Increase 0%) (Informativeness: 250%)").
  apply Nat.leb_le. reflexivity.
Defined.

(** X2: on a response text of at most 4300 characters, the informativeness
    [get_rate] returns is the number of the leftmost
    ["(informativeness: I%)"] of the lower-cased text, whatever the forecast
    patterns of the text are. *)
Theorem get_rate_informativeness :
  forall (summary pre post I : string) (i : Z),
    (String.length summary <= int_max_str_digits)%nat ->
    int I = Ok i ->
    leftmost_match INFORMATIVENESS_PATTERN (lower summary) pre
      ("(informativeness: " ++ I ++ "%)") post ->
    exists r, get_rate summary = Ok r /\ Informativeness r = i.
Proof.
  intros summary pre post I i _ HI [E N].
  apply int_ok_is_digits in HI. destruct HI as [HI <-].
  destruct (get_rate_total summary) as [r [R _]]. exists r. split; [exact R|].
  destruct (get_rate_inv summary r R) as [_ [_ F]].
  rewrite E, (findall_no_match_in _ _ _ N) in F.
  rewrite INFORMATIVENESS_PATTERN_shape in F.
  assert (M : match_at (one_group "(informativeness: ")
                (("(informativeness: " ++ I ++ "%)") ++ post) =
              Some ([(I ++ "%")%string], post)).
  { rewrite !append_assoc. exact (match_at_one_group _ I post HI). }
  destruct (findall_match _ _ _ _ M) as [more FM]. rewrite FM in F.
  cbn [item nth_error bind] in F. rewrite (int_percent I HI) in F.
  now inversion F.
Qed.

Lemma get_rate_informativeness_witness :
  exists r,
    get_rate "Fine. (Increase 70% | Decrease 30%) (Informativeness: 85%)" = Ok r /\
    Informativeness r = 85.
Proof.
  apply (get_rate_informativeness
           "Fine. (Increase 70% | Decrease 30%) (Informativeness: 85%)"
           "fine. (increase 70% | decrease 30%) " "" "85" 85).
  - apply Nat.leb_le. reflexivity.
  - reflexivity.
  - split; reflexivity.
Defined.

(** ** The request dispatcher *)

Section DispatcherMore.

Lemma total_sleep_app (l1 l2 : list event) :
  total_sleep (l1 ++ l2) = total_sleep l1 + total_sleep l2.
Proof.
  induction l1 as [|e l1 IH]; [reflexivity|].
  destruct e; simpl; rewrite IH; lia.
Qed.

Lemma sleep_bound_mono n : forall d d',
  d <= d' -> sleep_bound n d <= sleep_bound n d'.
Proof.
  induction n as [|n IH]; intros d d' H; simpl; [lia|].
  specialize (IH (d + backoff_factor) (d' + backoff_factor)). lia.
Qed.

Lemma sleep_bound_nonneg n : forall d, 0 <= d -> 0 <= sleep_bound n d.
Proof.
  induction n as [|n IH]; intros d H; simpl; [lia|].
  specialize (IH (d + backoff_factor)). unfold backoff_factor in *. lia.
Qed.

(** Whatever the backend does, the loop makes at most one attempt per
    element of its range and sleeps at most what a run of rate limits would. *)
Lemma attempt_loop_bounds gc request range : forall delay models events,
  10 <= delay ->
  let out := attempt_loop gc request range delay models events in
  (attempts_made (trace out) <= attempts_made events + List.length range)%nat /\
  total_sleep (trace out) <=
    total_sleep events + sleep_bound (List.length range) delay.
Proof.
  induction range as [|attempt range IH]; intros delay models events D;
    cbn zeta.
  - simpl. rewrite attempts_made_app, total_sleep_app. simpl. lia.
  - pose proof (sleep_bound_nonneg (List.length range) (delay + backoff_factor)
                  ltac:(unfold backoff_factor; lia)) as NN.
    pose proof (sleep_bound_mono (List.length range) delay
                  (delay + backoff_factor) ltac:(unfold backoff_factor; lia))
      as MM.
    cbn [attempt_loop List.length sleep_bound].
    destruct (pop models) as [[m rest]|e]; [|cbn [trace]; lia].
    destruct (gc attempt m request) as [[r|]|msg].
    + cbn [trace]. rewrite !attempts_made_app, !total_sleep_app. simpl. lia.
    + specialize (IH delay rest (events ++ [LogAttempt (attempt + 1)])%list D).
      cbn zeta in IH. rewrite attempts_made_app, total_sleep_app in IH.
      simpl in IH. lia.
    + destruct (contains "429" msg).
      * specialize (IH (delay + backoff_factor) (rest ++ [m])%list
                      ((events ++ [LogAttempt (attempt + 1)]) ++
                       [Log429 delay; Sleep delay])%list
                      ltac:(unfold backoff_factor; lia)).
        cbn zeta in IH.
        rewrite !attempts_made_app, !total_sleep_app in IH. simpl in IH. lia.
      * cbn [trace]. rewrite !attempts_made_app, !total_sleep_app. simpl. lia.
Qed.

(** With a backend whose responses are all falsy, every attempt loses a
    handle: a pool smaller than the range runs out. *)
Lemma attempt_loop_falsy gc request :
  (forall k m, gc k m request = Returns None) ->
  forall range delay models events,
    (List.length models < List.length range)%nat ->
    let out := attempt_loop gc request range delay models events in
    returned out = Raise IndexError /\ MODELS out = [] /\
    attempts_made (trace out) =
      (attempts_made events + List.length models)%nat /\
    total_sleep (trace out) = total_sleep events.
Proof.
  intros F. induction range as [|attempt range IH];
    intros delay models events L; cbn zeta; [simpl in L; lia|].
  cbn [attempt_loop].
  destruct (pop models) as [[m rest]|e] eqn:P.
  - apply pop_inv in P. subst models. rewrite F.
    rewrite length_app in L |- *. simpl in L.
    specialize (IH delay rest (events ++ [LogAttempt (attempt + 1)])%list
                  ltac:(lia)).
    cbn zeta in IH. destruct IH as [A [B [C D]]].
    rewrite attempts_made_app in C. rewrite total_sleep_app in D.
    simpl in C, D |- *. repeat split; try assumption; lia.
  - unfold pop in P. destruct (rev models) as [|x l] eqn:R; [|discriminate].
    inversion P; subst.
    assert (models = []) as -> by (rewrite <- (rev_involutive models), R;
                                   reflexivity).
    repeat split; simpl; lia.
Qed.

End DispatcherMore.

(** X3: whatever the backend answers, [request_processing] makes at most six
    attempts and sleeps at most 135 seconds in all (10 + 15 + 20 + 25 + 30 +
    35, the case of six rate limits). *)
Theorem request_processing_bounds :
  forall (generate_content : backend) (request : string) (models : list model),
    let out := request_processing generate_content request models in
    (attempts_made (trace out) <= 6)%nat /\ total_sleep (trace out) <= 135.
Proof.
  intros gc request models out. subst out. unfold request_processing.
  pose proof (attempt_loop_bounds gc request (seq 0 max_retries) 10
                (fst (populate models)) (snd (populate models)) ltac:(lia))
    as B.
  cbn zeta in B. rewrite (surjective_pairing (populate models)).
  rewrite length_seq in B. change (sleep_bound max_retries 10) with 135 in B.
  destruct (populate_trace models) as [T|T]; rewrite T in B |- *;
    cbn [attempts_made total_sleep] in B |- *; unfold max_retries in B |- *;
    lia.
Qed.

(** X4: when every response is falsy and the populated pool holds fewer than
    six handles, [request_processing] does not return [None]: each attempt
    takes a handle and puts none back, and the [pop] on the emptied pool
    raises [IndexError] after as many attempts as there were handles, without
    any sleep. *)
Theorem request_processing_falsy :
  forall (generate_content : backend) (request : string) (models : list model),
    (forall k m, generate_content k m request = Returns None) ->
    (List.length (fst (populate models)) < 6)%nat ->
    let out := request_processing generate_content request models in
    returned out = Raise IndexError /\ MODELS out = [] /\
    attempts_made (trace out) = List.length (fst (populate models)) /\
    total_sleep (trace out) = 0.
Proof.
  intros gc request models F L out. subst out. unfold request_processing.
  pose proof (attempt_loop_falsy gc request F (seq 0 max_retries) 10
                (fst (populate models)) (snd (populate models))
                ltac:(rewrite length_seq; exact L)) as B.
  cbn zeta in B. rewrite (surjective_pairing (populate models)).
  cbn [fst snd].
  destruct B as [A [B [C D]]]. repeat split; try assumption.
  - rewrite C. destruct (populate_trace models) as [T|T]; rewrite T; reflexivity.
  - rewrite D. destruct (populate_trace models) as [T|T]; rewrite T; reflexivity.
Qed.

Lemma request_processing_falsy_witness :
  let out := request_processing (fun _ _ _ => Returns None) "request" [] in
  returned out = Raise IndexError /\ MODELS out = [] /\
  attempts_made (trace out) = 3%nat /\ total_sleep (trace out) = 0.
Proof.
  apply (request_processing_falsy (fun _ _ _ => Returns None) "request" []).
  - reflexivity.
  - simpl. lia.
Defined.

Section DispatcherExceptions.

Variable generate_content : backend.
Variable request : string.

Lemma pop_raise models e : pop models = Raise e -> e = IndexError /\ models = [].
Proof.
  unfold pop. destruct (rev models) as [|x l] eqn:E; [|discriminate].
  intros H. inversion H. split; [reflexivity|].
  rewrite <- (rev_involutive models), E. reflexivity.
Qed.

(** An exception of the loop comes from a call of the backend: a falsy
    response that cost a handle, or a failure that is not a rate limit. *)
Lemma attempt_loop_raise range : forall delay models events e,
  returned (attempt_loop generate_content request range delay models events) =
  Raise e ->
  (e = IndexError /\
   (models = [] \/
    exists k m, In k range /\ generate_content k m request = Returns None)) \/
  (exists msg k m,
     e = BackendError msg /\ In k range /\
     generate_content k m request = Fails msg /\ contains "429" msg = false).
Proof.
  induction range as [|attempt range IH]; intros delay models events e H.
  - discriminate.
  - cbn [attempt_loop] in H.
    destruct (pop models) as [[m models']|e'] eqn:P.
    + destruct (generate_content attempt m request) as [[r|]|msg] eqn:G.
      * discriminate.
      * apply IH in H. destruct H as [[E _]|[msg [k [m' [E [I [F C]]]]]]].
        -- left. split; [exact E|]. right. exists attempt, m.
           split; [now left | exact G].
        -- right. exists msg, k, m'. repeat split; try assumption. now right.
      * destruct (contains "429" msg) eqn:C.
        -- apply IH in H.
           destruct H as [[E [A|[k [m' [I F]]]]]|[msg' [k [m' [E [I [F C']]]]]]].
           ++ now destruct models'.
           ++ left. split; [exact E|]. right. exists k, m'.
              split; [now right | exact F].
           ++ right. exists msg', k, m'. repeat split; try assumption.
              now right.
        -- cbn [returned] in H. inversion H; subst.
           right. exists msg, attempt, m. repeat split; try assumption.
           now left.
    + cbn [returned] in H. inversion H; subst.
      apply pop_raise in P. destruct P as [-> ->]. left. split; [reflexivity|].
      now left.
Qed.

End DispatcherExceptions.

(** X21: [request_processing] raises only what a call of the backend brings
    about.  An [IndexError], from [MODELS.pop()] on the emptied pool, needs an
    attempt with a falsy response; any other exception is the failure of an
    attempt whose message has no ["429"].  Rate limits alone never make it
    raise. *)
Theorem request_processing_raises :
  forall (generate_content : backend) (request : string) (models : list model)
         (e : exn),
    returned (request_processing generate_content request models) = Raise e ->
    (e = IndexError /\
     exists k m, (k < max_retries)%nat /\
                 generate_content k m request = Returns None) \/
    (exists msg k m,
       e = BackendError msg /\ (k < max_retries)%nat /\
       generate_content k m request = Fails msg /\
       contains "429" msg = false).
Proof.
  intros generate_content request models e H. unfold request_processing in H.
  destruct (populate models) as [models' events] eqn:P.
  apply attempt_loop_raise in H.
  destruct H as [[E [A|[k [m [I F]]]]]|[msg [k [m [E [I [F C]]]]]]].
  - subst models'. destruct models; discriminate.
  - left. split; [exact E|]. exists k, m. split; [|exact F].
    apply in_seq in I. unfold max_retries in *. lia.
  - right. exists msg, k, m. repeat split; try assumption.
    apply in_seq in I. unfold max_retries in *. lia.
Qed.

Lemma request_processing_raises_witness :
  (IndexError = IndexError /\
   exists k m, (k < max_retries)%nat /\
               falsy_backend k m "request" = Returns None) \/
  (exists msg k m,
     IndexError = BackendError msg /\ (k < max_retries)%nat /\
     falsy_backend k m "request" = Fails msg /\
     contains "429" msg = false).
Proof.
  apply (request_processing_raises falsy_backend "request" ["m1"; "m2"]
           IndexError).
  reflexivity.
Defined.

(** ** The cleaning steps of the normalizer *)

Section Cleaning.

Lemma sub_class_plain (p : ascii -> bool) s :
  all_chars (fun c => negb (p c)) (sub [Class p] (fun _ => "") s) = true.
Proof.
  unfold sub. induction s as [|c s IH]; [reflexivity|].
  cbn [sub_from]. unfold match_at. cbn [match_here].
  destruct (p c) eqn:P.
  - cbn [rev append]. now rewrite Nat.sub_diag.
  - cbn [all_chars]. now rewrite P, IH.
Qed.

Lemma sub_class_length (p : ascii -> bool) s :
  (String.length (sub [Class p] (fun _ => "") s) <= String.length s)%nat.
Proof.
  unfold sub. induction s as [|c s IH]; [reflexivity|].
  cbn [sub_from]. unfold match_at. cbn [match_here].
  destruct (p c) eqn:P.
  - cbn [rev append]. rewrite Nat.sub_diag. simpl. lia.
  - simpl. lia.
Qed.

End Cleaning.

(** X5: [delete_punctuation] leaves only word characters and white space,
    whatever the text; it never lengthens the text, and a second pass changes
    nothing. *)
Theorem delete_punctuation_spec :
  forall s : string,
    punctuation_free (delete_punctuation s) /\
    (String.length (delete_punctuation s) <= String.length s)%nat /\
    delete_punctuation (delete_punctuation s) = delete_punctuation s.
Proof.
  intros s.
  assert (P : punctuation_free (delete_punctuation s)).
  { unfold punctuation_free, delete_punctuation, PUNCTUATION_PATTERN.
    eapply all_chars_weaken; [|apply sub_class_plain].
    intros c H. cbn beta in H. now rewrite negb_involutive in H. }
  split; [exact P|]. split.
  - apply sub_class_length.
  - now apply delete_punctuation_plain.
Qed.

Section Superfluous.

Lemma string_length_append (a b : string) :
  String.length (a ++ b) = (String.length a + String.length b)%nat.
Proof. induction a as [|c a IH]; simpl; [reflexivity | now rewrite IH]. Qed.

Lemma sub_from_skip pat repl m : forall rest,
  sub_from pat repl (String.length m) (m ++ rest) = sub_from pat repl 0 rest.
Proof.
  induction m as [|c m IH]; intros rest; [reflexivity|].
  cbn [String.length append sub_from]. apply IH.
Qed.

(** The scan after a match that consumed [String c m]. *)
Lemma sub_match pat repl c m rest caps :
  match_at pat (String c (m ++ rest)) = Some (caps, rest) ->
  sub pat repl (String c (m ++ rest)) =
  (repl caps ++ sub pat repl rest)%string.
Proof.
  intros M. unfold sub. cbn [sub_from]. rewrite M.
  rewrite string_length_append, Nat.add_sub. now rewrite sub_from_skip.
Qed.

Lemma sub_no_match_in pat repl pre : forall t,
  no_match_in pat pre t = true ->
  sub pat repl (pre ++ t) = (pre ++ sub pat repl t)%string.
Proof.
  unfold sub. induction pre as [|c pre IH]; intros t H; [reflexivity|].
  cbn [no_match_in] in H. cbn [append sub_from].
  destruct (match_at pat (String c pre ++ t)) eqn:E; [discriminate|].
  cbn [append] in E. rewrite E. now rewrite IH.
Qed.

Lemma no_match_in_ok pat (ok : ascii -> bool) :
  (forall c t, ok c = true -> match_at pat (String c t) = None) ->
  forall pre t, all_chars ok pre = true -> no_match_in pat pre t = true.
Proof.
  intros N. induction pre as [|c pre IH]; intros t H; [reflexivity|].
  simpl in H. apply andb_prop in H. destruct H as [Hc H].
  cbn [no_match_in append]. rewrite (N c _ Hc). now apply IH.
Qed.

Lemma not_paren_eqb c : not_paren c = true -> Ascii.eqb c "(" = false.
Proof. unfold not_paren. intros H. now apply negb_true_iff in H. Qed.

Lemma SUPERFLUOUS_PATTERN_1_start c t :
  not_paren c = true -> match_at SUPERFLUOUS_PATTERN_1 (String c t) = None.
Proof.
  intros H. unfold match_at. cbn [SUPERFLUOUS_PATTERN_1 match_here].
  now rewrite (not_paren_eqb c H).
Qed.

Lemma SUPERFLUOUS_PATTERN_2_start c t :
  not_paren c = true -> match_at SUPERFLUOUS_PATTERN_2 (String c t) = None.
Proof.
  intros H. unfold match_at.
  cbn [SUPERFLUOUS_PATTERN_2 lits app match_here].
  now rewrite (not_paren_eqb c H).
Qed.

Lemma word_not_paren w :
  all_chars is_word w = true -> all_chars not_paren w = true.
Proof.
  apply all_chars_weaken. intros c H.
  unfold not_paren. destruct (Ascii.eqb_spec c "(") as [->|]; [discriminate|].
  reflexivity.
Qed.

Lemma sub_not_paren_1 repl s :
  all_chars not_paren s = true -> sub SUPERFLUOUS_PATTERN_1 repl s = s.
Proof.
  apply (sub_identity SUPERFLUOUS_PATTERN_1 repl not_paren eq_refl).
  intros c t. apply SUPERFLUOUS_PATTERN_1_start.
Qed.

Lemma sub_not_paren_2 repl s :
  all_chars not_paren s = true -> sub SUPERFLUOUS_PATTERN_2 repl s = s.
Proof.
  apply (sub_identity SUPERFLUOUS_PATTERN_2 repl not_paren eq_refl).
  intros c t. apply SUPERFLUOUS_PATTERN_2_start.
Qed.

Lemma match_word_in_parentheses w b :
  w <> "" -> all_chars is_word w = true ->
  match_at SUPERFLUOUS_PATTERN_1 (String "(" (w ++ String ")" b)) =
  Some ([], b).
Proof.
  intros Hne Hw. unfold match_at, SUPERFLUOUS_PATTERN_1.
  change (match_here [Lit "("; Plus is_word; Lit ")"]
            (String "(" (w ++ String ")" b)) None [])
    with (match_here [Plus is_word; Lit ")"] (w ++ String ")" b) None []).
  now rewrite (match_here_plus_lit is_word ")" [] b [] eq_refl w None Hne Hw).
Qed.

Lemma match_nasdaq w b :
  w <> "" -> all_chars is_word w = true ->
  match_at SUPERFLUOUS_PATTERN_2 ("(NASDAQ: " ++ w ++ String ")" b) =
  Some ([], b).
Proof.
  intros Hne Hw. unfold match_at, SUPERFLUOUS_PATTERN_2.
  rewrite match_here_lits. cbn [push_string].
  now rewrite (match_here_plus_lit is_word ")" [] b [] eq_refl w None Hne Hw).
Qed.

Lemma sub_head_no_match pat repl c t :
  match_at pat (String c t) = None ->
  sub pat repl (String c t) = String c (sub pat repl t).
Proof. intros M. unfold sub. cbn [sub_from]. now rewrite M. Qed.

(** The first pattern does not match the annotation: the colon is no word
    character. *)
Lemma no_word_in_parentheses t :
  match_at SUPERFLUOUS_PATTERN_1 (String "(" ("NASDAQ: " ++ t)) = None.
Proof. reflexivity. Qed.

End Superfluous.

(** X6: [delete_superfluous] removes a word in parentheses and a stock
    symbol annotation ["(NASDAQ: XYZ)"] from a text that has no other opening
    parenthesis, and leaves the rest of the text as it is. *)
Theorem delete_superfluous_removes :
  forall a w b : string,
    all_chars not_paren a = true -> all_chars not_paren b = true ->
    w <> "" -> all_chars is_word w = true ->
    delete_superfluous (a ++ "(" ++ w ++ ")" ++ b) = (a ++ b)%string /\
    delete_superfluous (a ++ "(NASDAQ: " ++ w ++ ")" ++ b) = (a ++ b)%string.
Proof.
  intros a w b Ha Hb Hne Hw. unfold delete_superfluous. split.
  - rewrite (sub_no_match_in SUPERFLUOUS_PATTERN_1 _ a)
      by (apply (no_match_in_ok _ not_paren); [apply SUPERFLUOUS_PATTERN_1_start
                                               | exact Ha]).
    change ("(" ++ w ++ ")" ++ b)%string with (String "(" (w ++ String ")" b)).
    replace (String "(" (w ++ String ")" b))
      with (String "(" ((w ++ ")") ++ b))
      by (now rewrite append_assoc).
    rewrite (sub_match SUPERFLUOUS_PATTERN_1 _ "(" (w ++ ")") b []).
    + cbn [append]. rewrite (sub_not_paren_1 _ b Hb).
      apply sub_not_paren_2. now rewrite all_chars_append, Ha, Hb.
    + rewrite append_assoc. now apply match_word_in_parentheses.
  - assert (P1 : sub SUPERFLUOUS_PATTERN_1 (fun _ => "")
                   (a ++ "(NASDAQ: " ++ w ++ ")" ++ b) =
                 (a ++ "(NASDAQ: " ++ w ++ ")" ++ b)%string).
    { rewrite (sub_no_match_in SUPERFLUOUS_PATTERN_1 _ a)
        by (apply (no_match_in_ok _ not_paren);
            [apply SUPERFLUOUS_PATTERN_1_start | exact Ha]).
      f_equal.
      change ("(NASDAQ: " ++ w ++ ")" ++ b)%string
        with (String "(" ("NASDAQ: " ++ w ++ String ")" b)).
      rewrite sub_head_no_match by apply no_word_in_parentheses.
      f_equal.
      apply (sub_not_paren_1 (fun _ => "")
               ("NASDAQ: " ++ w ++ String ")" b)).
      cbn [append all_chars]. rewrite all_chars_append, (word_not_paren w Hw).
      cbn [all_chars]. now rewrite Hb. }
    rewrite P1.
    rewrite (sub_no_match_in SUPERFLUOUS_PATTERN_2 _ a)
      by (apply (no_match_in_ok _ not_paren); [apply SUPERFLUOUS_PATTERN_2_start
                                               | exact Ha]).
    f_equal.
    replace ("(NASDAQ: " ++ w ++ ")" ++ b)%string
      with (String "(" (("NASDAQ: " ++ w ++ ")") ++ b))
      by (cbn [append]; now rewrite append_assoc).
    rewrite (sub_match SUPERFLUOUS_PATTERN_2 _ "(" ("NASDAQ: " ++ w ++ ")") b []).
    + cbn [append]. apply (sub_not_paren_2 _ b Hb).
    + replace (String "(" (("NASDAQ: " ++ w ++ ")") ++ b))
        with ("(NASDAQ: " ++ w ++ String ")" b)%string
        by (cbn [append]; now rewrite append_assoc).
      now apply match_nasdaq.
Qed.

Lemma delete_superfluous_removes_witness :
  delete_superfluous "Apple (AAPL) rose" = "Apple  rose" /\
  delete_superfluous "Apple (NASDAQ: AAPL) rose" = "Apple  rose".
Proof.
  apply (delete_superfluous_removes "Apple " "AAPL" " rose");
    (reflexivity || discriminate).
Defined.

Section NormalizerMore.

Context {N : Nltk} {L : NltkLaws N}.

Lemma delete_stop_words_kept ws :
  Forall (fun w => stop_words (lower w) = false) (delete_stop_words ws).
Proof.
  rewrite Forall_forall. intros w Hw. unfold delete_stop_words in Hw.
  apply filter_In in Hw. destruct Hw as [_ Hw]. now apply negb_true_iff in Hw.
Qed.

Lemma cap_words_kept ws :
  Forall (fun w => stop_words (lower w) = false) ws ->
  Forall (fun w => stop_words (lower w) = false) (cap_words ws).
Proof.
  intros H. destruct H as [|w ws Hw H]; [constructor|].
  cbn [cap_words]. constructor.
  - now rewrite lower_capitalize.
  - rewrite Forall_forall in *. intros v Hv. apply in_map_iff in Hv.
    destruct Hv as [u [<- Hu]]. rewrite lower_idem. now apply H.
Qed.

(** What [text_processing] returns on a text without punctuation: the kept
    words of its one sentence, in the case [capitalize] gives them. *)
Lemma text_processing_plain x :
  punctuation_free x ->
  exists ws, Forall word_token ws /\
             text_processing x = join " " (cap_words (delete_stop_words ws)).
Proof.
  intros P. destruct (sent_tokenize_plain x P) as [E|[s [E Ps]]].
  - exists []. split; [constructor|]. now apply text_processing_no_sentence.
  - exists (word_tokenize s). split; [now apply word_tokenize_plain|].
    now apply text_processing_sentence.
Qed.

End NormalizerMore.

(** X7: for tokenizers that satisfy the laws, the normalized form of a text
    without punctuation has no punctuation either, none of its words is a
    stop word (compared in lower case, as [delete_stop_words] does), and
    [capitalize] leaves it as it is. *)
Theorem text_processing_output :
  forall (N : Nltk), NltkLaws N ->
  forall x : string,
    punctuation_free x ->
    punctuation_free (text_processing x) /\
    Forall (fun w => stop_words (lower w) = false)
           (word_tokenize (text_processing x)) /\
    capitalize (text_processing x) = text_processing x.
Proof.
  intros N L x P. destruct (text_processing_plain x P) as [ws [T ->]].
  pose proof (cap_words_tokens _ (delete_stop_words_tokens ws T)) as T'.
  split; [|split].
  - now apply punctuation_free_join, word_tokens_plain.
  - rewrite (word_tokenize_words _ T').
    apply cap_words_kept, delete_stop_words_kept.
  - rewrite (capitalize_words _ T'). now rewrite cap_words_idem.
Qed.

Lemma text_processing_output_witness :
  let normalize := @text_processing whitespace_tokenizers in
  punctuation_free (normalize "the price of Gold is UP") /\
  Forall (fun w => @stop_words whitespace_tokenizers (lower w) = false)
         (@word_tokenize whitespace_tokenizers
            (normalize "the price of Gold is UP")) /\
  capitalize (normalize "the price of Gold is UP") =
  normalize "the price of Gold is UP".
Proof.
  apply (text_processing_output whitespace_tokenizers whitespace_laws).
  reflexivity.
Defined.

(** ** The compound aggregation and [save_compound] *)

Section Between.

(** Rounding to the nearest float does not cross an integer bound. *)
Lemma nearest_between a b lo hi :
  0 <= a -> 0 < b -> a <= 100 * b -> lo * b <= a <= hi * b ->
  (inject_Z lo <= nearest a b <= inject_Z hi)%Q.
Proof.
  intros Ha Hb H [L U]. destruct (Z.eq_dec a 0) as [->|N].
  - unfold nearest. simpl. split; unfold Qle; simpl; nia.
  - assert (Ha' : 0 < a) by lia.
    assert (Hk : ulp_exp a b <= -46).
    { pose proof (ulp_exp_lt a b 7 Ha' Hb ltac:(lia)
                    ltac:(change (2 ^ 7) with 128; lia)).
      lia. }
    rewrite nearest_neg_exp by lia.
    set (t := - ulp_exp a b) in *. assert (Ht : 0 <= t) by lia.
    pose proof (pow2_pos t Ht) as Hp.
    rewrite Qred_correct. unfold Qle. cbn [Qnum Qden inject_Z].
    rewrite Zpos_pow2 by lia.
    split.
    + assert (lo * 2 ^ t <= rhe_div (a * 2 ^ t) b)
        by (apply rhe_div_lower; nia).
      lia.
    + assert (rhe_div (a * 2 ^ t) b <= hi * 2 ^ t)
        by (apply rhe_div_upper; nia).
      lia.
Qed.

(** Neither does [round(x, 2)]. *)
Lemma round2_between x lo hi :
  (0 <= x <= 100)%Q -> (inject_Z lo <= x <= inject_Z hi)%Q ->
  (inject_Z lo <= round2 x <= inject_Z hi)%Q.
Proof.
  intros [L U] [L' U']. unfold round2.
  set (n := rhe_div (Qnum x * 100) (Z.pos (Qden x))).
  unfold Qle in L, U, L', U'. cbn [Qnum Qden inject_Z] in L, U, L', U'.
  assert (0 <= n) by (apply rhe_div_lower; lia).
  assert (n <= 10000) by (apply rhe_div_upper; lia).
  assert (lo * 100 <= n) by (apply rhe_div_lower; lia).
  assert (n <= hi * 100) by (apply rhe_div_upper; lia).
  apply nearest_between; lia.
Qed.

Lemma sums_between l lo hi lo' hi' :
  Forall valid_rating l ->
  Forall (fun r => lo <= Decrease_Probability r <= hi /\
                   lo' <= Increase_Probability r <= hi') l ->
  lo * total_weight l <= fall_sum l <= hi * total_weight l /\
  lo' * total_weight l <= rise_sum l <= hi' * total_weight l.
Proof.
  intros V. induction V as [|r l [D [I W]] _ IH]; intros B.
  - unfold total_weight, fall_sum, rise_sum. simpl. lia.
  - inversion B as [|r' l' [Bd Bi] B']; subst. specialize (IH B').
    unfold total_weight, fall_sum, rise_sum, Zsum in *. cbn [map fold_right].
    nia.
Qed.

Lemma Zsum_permutation l l' : Permutation l l' -> Zsum l = Zsum l'.
Proof.
  unfold Zsum. induction 1; cbn [fold_right]; lia.
Qed.

End Between.

(** X8: the two values [aggregate] returns lie between the smallest and the
    largest probability of the ratings: when every decrease probability is
    between [lo] and [hi] and every increase probability between [lo'] and
    [hi'], so are the fall and the rise value, the two roundings
    notwithstanding. *)
Theorem aggregate_between :
  forall (l : list rating) (lo hi lo' hi' : Z),
    Forall valid_rating l -> 0 < total_weight l ->
    Forall (fun r => lo <= Decrease_Probability r <= hi /\
                     lo' <= Increase_Probability r <= hi') l ->
    exists fall rise,
      aggregate l = Ok (fall, rise) /\
      (inject_Z lo <= fall <= inject_Z hi)%Q /\
      (inject_Z lo' <= rise <= inject_Z hi')%Q.
Proof.
  intros l lo hi lo' hi' V W B.
  destruct (valid_sums l V) as [_ [F R]].
  destruct (sums_between l lo hi lo' hi' V B) as [Bf Br].
  unfold aggregate. rewrite (calc_compound_valid l V W). cbn [bind fst snd].
  eexists. eexists. split; [reflexivity|]. split.
  - apply round2_between; [apply nearest_range; lia|].
    apply nearest_between; lia.
  - apply round2_between; [apply nearest_range; lia|].
    apply nearest_between; lia.
Qed.

Lemma aggregate_between_witness :
  exists fall rise,
    aggregate [rating_1; rating_2] = Ok (fall, rise) /\
    (inject_Z 20 <= fall <= inject_Z 60)%Q /\
    (inject_Z 40 <= rise <= inject_Z 80)%Q.
Proof.
  apply (aggregate_between [rating_1; rating_2] 20 60 40 80).
  - exact ratings_valid.
  - reflexivity.
  - repeat constructor; cbn; lia.
Defined.

(** X9: the order of the ratings does not matter: [calc_compound] and
    [aggregate] give the same result, or raise the same exception, on a
    permutation of the list.  The sums are integers, so nothing is rounded
    before the two divisions. *)
Theorem calc_compound_permutation :
  forall l l' : list rating,
    Permutation l l' ->
    calc_compound l = calc_compound l' /\ aggregate l = aggregate l'.
Proof.
  intros l l' P.
  assert (E : calc_compound l = calc_compound l').
  { rewrite !calc_compound_sums. unfold fall_sum, rise_sum, total_weight.
    rewrite (Zsum_permutation _ _ (Permutation_map
               (fun r => Decrease_Probability r * Informativeness r) P)).
    rewrite (Zsum_permutation _ _ (Permutation_map
               (fun r => Increase_Probability r * Informativeness r) P)).
    now rewrite (Zsum_permutation _ _ (Permutation_map Informativeness P)). }
  split; [exact E|]. unfold aggregate. now rewrite E.
Qed.

Lemma calc_compound_permutation_witness :
  calc_compound [rating_1; rating_2] = calc_compound [rating_2; rating_1] /\
  aggregate [rating_1; rating_2] = aggregate [rating_2; rating_1].
Proof.
  apply (calc_compound_permutation [rating_1; rating_2] [rating_2; rating_1]).
  apply perm_swap.
Defined.

Section SaveCompound.

Variable stocks : string -> option Z.

Lemma aggregate_valid l :
  Forall valid_rating l ->
  aggregate l =
  if total_weight l =? 0 then Raise ZeroDivisionError
  else Ok (round2 (nearest (fall_sum l) (total_weight l)),
           round2 (nearest (rise_sum l) (total_weight l))).
Proof.
  intros V. destruct (valid_sums l V) as [W _]. unfold aggregate.
  destruct (Z.eqb_spec (total_weight l) 0) as [E|N].
  - now rewrite (calc_compound_zero l E).
  - now rewrite (calc_compound_valid l V) by lia.
Qed.

Lemma stock_compounds_rows article_dict :
  valid_articles article_dict ->
  Forall (fun entry => 0 < total_weight (rating_list (snd entry)))
         (found_stocks stocks article_dict) ->
  stock_compounds stocks article_dict =
  Ok (map compound_row (found_stocks stocks article_dict)).
Proof.
  intros V. induction V as [|[company values] rest Vh _ IH]; intros P.
  - reflexivity.
  - cbn [stock_compounds found_stocks] in *.
    destruct (stocks company) as [id|]; [|now apply IH].
    inversion P as [|e es Ph Pt]; subst. cbn [snd] in Vh, Ph.
    rewrite (aggregate_valid _ Vh).
    replace (total_weight (rating_list values) =? 0) with false
      by (symmetry; apply Z.eqb_neq; lia).
    cbn [bind]. rewrite (IH Pt). reflexivity.
Qed.

Lemma stock_compounds_zero article_dict :
  valid_articles article_dict ->
  Exists (fun entry => total_weight (rating_list (snd entry)) = 0)
         (found_stocks stocks article_dict) ->
  stock_compounds stocks article_dict = Raise ZeroDivisionError.
Proof.
  intros V. induction V as [|[company values] rest Vh Vt IH]; intros P.
  - inversion P.
  - cbn [stock_compounds found_stocks] in *.
    destruct (stocks company) as [id|]; [|now apply IH].
    cbn [snd] in Vh. rewrite (aggregate_valid _ Vh).
    destruct (Z.eqb_spec (total_weight (rating_list values)) 0) as [E|N];
      [reflexivity|].
    cbn [bind]. inversion P as [e es Ph|e es Pt]; subst.
    + cbn [snd] in Ph. contradiction.
    + now rewrite (IH Pt).
Qed.

End SaveCompound.

(** X10: when every company of [article_dict] that is in the table [Stock]
    has ratings of positive total informativeness, [save_compound] replaces
    the table, whatever it held, by one row per such company, in the order of
    the dictionary; companies not in [Stock] are passed over. *)
Theorem save_compound_rows :
  forall (stocks : string -> option Z)
         (article_dict : list (string * company_articles))
         (table : list SentimentCompound),
    valid_articles article_dict ->
    Forall (fun entry => 0 < total_weight (rating_list (snd entry)))
           (found_stocks stocks article_dict) ->
    save_compound stocks article_dict table =
    (Ok tt, map compound_row (found_stocks stocks article_dict)) /\
    map stock_id (snd (save_compound stocks article_dict table)) =
    map fst (found_stocks stocks article_dict).
Proof.
  intros stocks article_dict table V P.
  assert (E : save_compound stocks article_dict table =
              (Ok tt, map compound_row (found_stocks stocks article_dict))).
  { unfold save_compound. now rewrite (stock_compounds_rows stocks _ V P). }
  split; [exact E|]. rewrite E. cbn [snd]. rewrite map_map.
  apply map_ext. now intros [id values].
Qed.

(** X11: one company of [article_dict] that is in the table [Stock] and whose
    ratings have no weight, an empty rating list for one, makes
    [save_compound] raise [ZeroDivisionError] and leaves the table empty, also
    for the companies whose ratings could be aggregated. *)
Theorem save_compound_all_or_nothing :
  forall (stocks : string -> option Z)
         (article_dict : list (string * company_articles))
         (table : list SentimentCompound),
    valid_articles article_dict ->
    Exists (fun entry => total_weight (rating_list (snd entry)) = 0)
           (found_stocks stocks article_dict) ->
    save_compound stocks article_dict table = (Raise ZeroDivisionError, []).
Proof.
  intros stocks article_dict table V P. unfold save_compound.
  now rewrite (stock_compounds_zero stocks _ V P).
Qed.

Lemma save_compound_rows_witness :
  save_compound two_stocks rated_articles [] =
  (Ok tt, map compound_row (found_stocks two_stocks rated_articles)) /\
  map stock_id (snd (save_compound two_stocks rated_articles [])) =
  map fst (found_stocks two_stocks rated_articles).
Proof.
  apply (save_compound_rows two_stocks rated_articles []).
  - repeat constructor; cbn; lia.
  - repeat constructor.
Defined.

Lemma save_compound_all_or_nothing_witness :
  save_compound two_stocks unrated_articles [] = (Raise ZeroDivisionError, []).
Proof.
  apply (save_compound_all_or_nothing two_stocks unrated_articles []).
  - repeat constructor; cbn; lia.
  - apply Exists_cons_tl, Exists_cons_hd. reflexivity.
Defined.

(** ** Company names *)

Section Replace.

Lemma prefix_nil s : String.prefix "" s = true.
Proof. now destruct s. Qed.

Lemma prefix_cons a x b y :
  String.prefix (String a x) (String b y) = true <->
  a = b /\ String.prefix x y = true.
Proof.
  cbn [String.prefix]. destruct (ascii_dec a b) as [E|N].
  - tauto.
  - split; [discriminate|]. now intros [E _].
Qed.

Lemma prefix_app a r : String.prefix a (a ++ r) = true.
Proof.
  induction a as [|c a IH]; [apply prefix_nil|].
  cbn [append]. now apply prefix_cons.
Qed.

Lemma prefix_inv a : forall s,
  String.prefix a s = true -> exists r, s = (a ++ r)%string.
Proof.
  induction a as [|c a IH]; intros s H; [now exists s|].
  destruct s as [|d s]; [discriminate|].
  apply prefix_cons in H. destruct H as [-> H].
  destruct (IH s H) as [r ->]. now exists r.
Qed.

(** A prefix of [u ++ v] is a prefix of [u] or reaches into [v]. *)
Lemma prefix_app_cases a : forall u v,
  String.prefix a (u ++ v) = true ->
  String.prefix a u = true \/
  exists a2, a = (u ++ a2)%string /\ String.prefix a2 v = true.
Proof.
  induction a as [|x a IH]; intros u v H; [left; apply prefix_nil|].
  destruct u as [|y u]; [right; now exists (String x a)|].
  cbn [append] in H. apply prefix_cons in H. destruct H as [-> H].
  destruct (IH u v H) as [P|[a2 [-> P]]].
  - left. now apply prefix_cons.
  - right. now exists a2.
Qed.

Lemma replace_from_skip old new m : forall rest,
  replace_from old new (String.length m) (m ++ rest) =
  replace_from old new 0 rest.
Proof.
  induction m as [|c m IH]; intros rest; [reflexivity|].
  cbn [String.length append replace_from]. apply IH.
Qed.

Lemma contains_cons old c s :
  contains old (String c s) = false ->
  String.prefix old (String c s) = false /\ contains old s = false.
Proof. cbn [contains]. intros H. now apply orb_false_elim in H. Qed.

(** Without an occurrence nothing is replaced. *)
Lemma replace_none old new s :
  contains old s = false -> replace old new s = s.
Proof.
  unfold replace. induction s as [|c s IH]; intros H.
  - cbn [contains] in H. rewrite orb_false_r in H.
    cbn [replace_from]. now rewrite H.
  - apply contains_cons in H. destruct H as [P H].
    cbn [replace_from]. rewrite P. now rewrite IH.
Qed.

Lemma replace_match c0 old' new rest :
  replace (String c0 old') new (String c0 old' ++ rest) =
  (new ++ replace (String c0 old') new rest)%string.
Proof.
  unfold replace. cbn [append replace_from].
  pose proof (prefix_app (String c0 old') rest) as P. cbn [append] in P.
  rewrite P. now rewrite replace_from_skip.
Qed.

(** An occurrence cannot begin before a copy of [old] and end inside it,
    when the first character of [old] is not found again in [old]. *)
Lemma no_straddle c0 old' u rest :
  all_chars (fun c => negb (Ascii.eqb c c0)) old' = true ->
  String.prefix (String c0 old') u = false ->
  u <> "" ->
  String.prefix (String c0 old') (u ++ String c0 old' ++ rest) = false.
Proof.
  intros F P Hu.
  destruct (String.prefix (String c0 old') (u ++ String c0 old' ++ rest))
    eqn:E; [|reflexivity].
  exfalso. apply prefix_app_cases in E. destruct E as [E|[a2 [E1 E2]]].
  - congruence.
  - destruct u as [|y u]; [easy|]. cbn [append] in E1.
    inversion E1 as [[Hy Ho]]. subst y.
    destruct a2 as [|z a2].
    + rewrite append_nil_r in Ho. subst old'.
      rewrite <- (append_nil_r (String c0 u)) in P at 2.
      now rewrite prefix_app in P.
    + cbn [append] in E2. apply prefix_cons in E2. destruct E2 as [-> _].
      rewrite Ho, all_chars_append in F. cbn [all_chars] in F.
      rewrite Ascii.eqb_refl in F. cbn in F.
      now rewrite andb_false_r in F.
Qed.

(** The first occurrence is replaced and the scan resumes after it. *)
Lemma replace_first c0 old' new name rest :
  all_chars (fun c => negb (Ascii.eqb c c0)) old' = true ->
  contains (String c0 old') name = false ->
  replace (String c0 old') new (name ++ String c0 old' ++ rest) =
  (name ++ new ++ replace (String c0 old') new rest)%string.
Proof.
  intros F. induction name as [|c name IH]; intros H.
  - apply replace_match.
  - apply contains_cons in H. destruct H as [P H].
    pose proof (no_straddle c0 old' (String c name) rest F P
                  ltac:(discriminate)) as N.
    specialize (IH H). unfold replace in *.
    cbn [append replace_from] in *. now rewrite N, IH.
Qed.

Lemma replace_last c0 old' new name :
  all_chars (fun c => negb (Ascii.eqb c c0)) old' = true ->
  contains (String c0 old') name = false ->
  replace (String c0 old') new (name ++ String c0 old') =
  (name ++ new)%string.
Proof.
  intros F H. pose proof (replace_first c0 old' new name "" F H) as R.
  change (replace (String c0 old') new "") with "" in R.
  now rewrite (append_nil_r (String c0 old')), (append_nil_r new) in R.
Qed.

Lemma contains_prefix old s :
  String.prefix old s = true -> contains old s = true.
Proof. intros H. destruct s; cbn [contains]; now rewrite H. Qed.

Lemma contains_tail c old s :
  contains old s = false -> contains (String c old) s = false.
Proof.
  induction s as [|d s IH]; intros H; [reflexivity|].
  apply contains_cons in H. destruct H as [P H].
  cbn [contains]. rewrite (IH H), orb_false_r.
  destruct (String.prefix (String c old) (String d s)) eqn:E; [|reflexivity].
  apply prefix_cons in E. destruct E as [_ E].
  apply contains_prefix in E. congruence.
Qed.

Lemma contains_app_l old a b :
  contains old (a ++ b) = false -> contains old a = false.
Proof.
  induction a as [|c a IH]; intros H.
  - cbn [contains]. rewrite orb_false_r.
    destruct (String.prefix old "") eqn:E; [|reflexivity].
    destruct old; [|discriminate]. cbn [append] in H.
    destruct b; cbn in H; discriminate.
  - cbn [append] in H. apply contains_cons in H. destruct H as [P H].
    cbn [contains]. rewrite (IH H), orb_false_r.
    destruct (String.prefix old (String c a)) eqn:E; [|reflexivity].
    apply prefix_inv in E. destruct E as [r E].
    change (String c (a ++ b)) with (String c a ++ b)%string in P.
    rewrite E, append_assoc, prefix_app in P. discriminate.
Qed.

Lemma last_char_inv s c :
  last_char s = Some c -> exists s', s = (s' ++ String c "")%string.
Proof.
  induction s as [|d s IH]; [discriminate|]. intros H.
  destruct s as [|e s].
  - inversion H; subst. now exists "".
  - cbn [last_char] in H. destruct (IH H) as [s' E].
    exists (String d s'). cbn [append]. now rewrite <- E.
Qed.

Lemma last_char_cons d s c :
  last_char (String d s) <> Some c -> last_char s <> Some c.
Proof.
  destruct s as [|e s]; [discriminate|]. intros H. exact H.
Qed.

(** The longer suffix is not found in a name followed by the shorter one,
    unless the name ends with the comma. *)
Lemma contains_comma_inc name :
  contains " Inc." name = false ->
  last_char name <> Some ","%char ->
  contains ", Inc." (name ++ " Inc.") = false.
Proof.
  induction name as [|c name IH]; intros H L; [reflexivity|].
  pose proof (contains_tail "," _ _ H) as H'.
  apply contains_cons in H. destruct H as [P H].
  apply contains_cons in H'. destruct H' as [P' _].
  cbn [append contains]. rewrite (IH H (last_char_cons _ _ _ L)), orb_false_r.
  destruct (String.prefix ", Inc." (String c (name ++ " Inc."))) eqn:E;
    [|reflexivity].
  exfalso.
  change (String c (name ++ " Inc.")) with (String c name ++ " Inc.")%string in E.
  apply prefix_app_cases in E. destruct E as [E|[a2 [E1 E2]]]; [congruence|].
  cbn [append] in E1. inversion E1 as [[Hc Hn]]. subst c.
  destruct name as [|d name]; [now apply L|].
  cbn [append] in Hn. inversion Hn as [[Hd Hn']]. subst d.
  destruct a2 as [|z a2].
  - rewrite append_nil_r in Hn'. subst name. discriminate.
  - cbn in E2. destruct (ascii_dec z " ") as [->|]; [|discriminate].
    assert (F : all_chars (fun c => negb (Ascii.eqb c " ")) "Inc." = true)
      by reflexivity.
    rewrite Hn', all_chars_append in F. cbn [all_chars] in F.
    cbn in F. now rewrite andb_false_r in F.
Qed.

Lemma normalize_plain name :
  contains " Inc." name = false -> normalize_company_name name = name.
Proof.
  intros H. unfold normalize_company_name.
  rewrite (replace_none ", Inc." "" name) by now apply contains_tail.
  now apply replace_none.
Qed.

Lemma normalize_comma_inc name :
  contains " Inc." name = false ->
  normalize_company_name (name ++ ", Inc.") = name.
Proof.
  intros H. unfold normalize_company_name.
  rewrite (replace_last "," " Inc." "" name eq_refl)
    by now apply contains_tail.
  rewrite append_nil_r. now apply replace_none.
Qed.

Lemma normalize_inc name :
  contains " Inc." name = false ->
  last_char name <> Some ","%char ->
  normalize_company_name (name ++ " Inc.") = name.
Proof.
  intros H L. unfold normalize_company_name.
  rewrite (replace_none ", Inc." "" (name ++ " Inc."))
    by now apply contains_comma_inc.
  rewrite (replace_last " " "Inc." "" name eq_refl H).
  apply append_nil_r.
Qed.

End Replace.

(** X12: [normalize_company_name] strips a final [", Inc."] or [" Inc."]
    from a name in which [" Inc."] does not occur, and leaves such a name
    alone when there is nothing to strip.  (A name ending with a comma and
    followed by [" Inc."] is the first case.) *)
Theorem normalize_company_name_suffix :
  forall name : string,
    contains " Inc." name = false ->
    normalize_company_name name = name /\
    normalize_company_name (name ++ ", Inc.") = name /\
    (last_char name <> Some ","%char ->
     normalize_company_name (name ++ " Inc.") = name).
Proof.
  intros name H. split; [|split].
  - now apply normalize_plain.
  - now apply normalize_comma_inc.
  - now apply normalize_inc.
Qed.

Lemma normalize_company_name_suffix_witness :
  normalize_company_name "Amazon.com" = "Amazon.com" /\
  normalize_company_name "Amazon.com, Inc." = "Amazon.com" /\
  normalize_company_name "Amazon.com Inc." = "Amazon.com".
Proof.
  destruct (normalize_company_name_suffix "Amazon.com" eq_refl) as [A [B C]].
  split; [exact A | split; [exact B | apply C; discriminate]].
Defined.

(** X13: the title [get_company_name] gives a stock is not changed when
    [fetch_article_content] normalizes it again, so that [save_compound]
    looks the company up under the title it was stored with: this holds for
    every cell text made of a name without [" Inc."] and one of the suffixes
    the two functions strip. *)
Theorem get_company_name_stable :
  forall name suffix : string,
    contains " Inc." name = false ->
    In suffix [""; ", Inc."; " Inc."] ->
    exists title,
      get_company_name (Some (name ++ suffix)) = Some title /\
      normalize_company_name title = title.
Proof.
  intros name suffix H S. cbn [get_company_name].
  change (replace " Inc." "" (replace ", Inc." "" (name ++ suffix)))
    with (normalize_company_name (name ++ suffix)).
  destruct S as [<-|[<-|[<-|[]]]].
  - rewrite append_nil_r. exists name.
    split; [now rewrite normalize_plain | now apply normalize_plain].
  - exists name.
    split; [now rewrite normalize_comma_inc | now apply normalize_plain].
  - destruct (last_char name) as [c|] eqn:L.
    + destruct (Ascii.eqb_spec c ",") as [->|N].
      * destruct (last_char_inv _ _ L) as [n' ->].
        pose proof (contains_app_l _ _ _ H) as H'.
        exists n'. rewrite append_assoc. cbn [append].
        split; [now rewrite normalize_comma_inc | now apply normalize_plain].
      * exists name. split; [|now apply normalize_plain].
        rewrite normalize_inc; [reflexivity | exact H | congruence].
    + exists name. split; [|now apply normalize_plain].
      rewrite normalize_inc; [reflexivity | exact H | congruence].
Qed.

Lemma get_company_name_stable_witness :
  exists title,
    get_company_name (Some ("Apple" ++ " Inc.")) = Some title /\
    normalize_company_name title = title.
Proof.
  apply (get_company_name_stable "Apple" " Inc.").
  - reflexivity.
  - right. right. left. reflexivity.
Defined.

(** ** The cleaning of the response *)

Section Regex.

Lemma rx_plus p pat prev d s :
  Rx.match_here (Rx.Plus p :: pat) prev (String d s) =
  if p d then
    match Rx.match_here (Rx.Plus p :: pat) (Some d) s with
    | Some r => Some r
    | None => Rx.match_here pat (Some d) s
    end
  else None.
Proof. reflexivity. Qed.

Lemma rx_star p pat prev d s :
  Rx.match_here (Rx.Star p :: pat) prev (String d s) =
  if p d then
    match Rx.match_here (Rx.Star p :: pat) (Some d) s with
    | Some r => Some r
    | None => Rx.match_here pat prev (String d s)
    end
  else Rx.match_here pat prev (String d s).
Proof. reflexivity. Qed.

Lemma rx_lazy p pat prev s :
  Rx.match_here (Rx.LazyStar p :: pat) prev s =
  match Rx.match_here pat prev s with
  | Some r => Some r
  | None =>
      match s with
      | String d s' =>
          if p d then Rx.match_here (Rx.LazyStar p :: pat) (Some d) s'
          else None
      | EmptyString => None
      end
  end.
Proof. destruct s; reflexivity. Qed.

(** Removing matches does not make a text longer. *)
Lemma sub_from_length r s : forall skip prev,
  (String.length (Rx.sub_from r "" skip prev s) <= String.length s)%nat.
Proof.
  induction s as [|c s IH]; intros skip prev.
  - destruct skip; cbn [Rx.sub_from]; [|apply Nat.le_refl].
    destruct (Rx.match_at r prev ""); apply Nat.le_refl.
  - destruct skip as [|k]; cbn [Rx.sub_from].
    + destruct (Rx.match_at r prev (String c s)) as [rest|].
      * cbn [append String.length]. apply Nat.le_le_succ_r, IH.
      * cbn [String.length]. apply le_n_S, IH.
    + cbn [String.length]. apply Nat.le_le_succ_r, IH.
Qed.

Lemma sub_length r s :
  (String.length (Rx.sub r "" s) <= String.length s)%nat.
Proof. apply sub_from_length. Qed.

(** After [re.sub(r'\*', '', s)] no asterisk is left. *)
Lemma sub_asterisk s : forall prev,
  all_chars (fun c => negb (Ascii.eqb c "*"))
            (Rx.sub_from [[Rx.Lit "*"]] "" 0 prev s) = true.
Proof.
  induction s as [|c s IH]; intros prev; [reflexivity|].
  cbn [Rx.sub_from Rx.match_at Rx.match_here].
  destruct (Ascii.eqb c "*") eqn:E.
  - cbn [append]. rewrite Nat.sub_diag. apply IH.
  - cbn [all_chars]. rewrite E. apply IH.
Qed.

Lemma drop_newlines_length t :
  (String.length (drop_newlines t) <= String.length t)%nat.
Proof.
  induction t as [|c t IH]; [apply Nat.le_refl|].
  cbn [drop_newlines]. destruct (Ascii.eqb c newline); [|apply Nat.le_refl].
  cbn [String.length]. now apply Nat.le_le_succ_r.
Qed.

(** [\n+] takes all the newlines there are. *)
Lemma match_newlines t : forall prev,
  Rx.match_at NEWLINES prev (String newline t) = Some (drop_newlines t).
Proof.
  unfold NEWLINES. cbn [Rx.match_at].
  induction t as [|c t IH]; intros prev; [reflexivity|].
  rewrite rx_plus. rewrite Ascii.eqb_refl.
  cbn [drop_newlines]. destruct (Ascii.eqb c newline) eqn:E.
  - apply Ascii.eqb_eq in E. subst c.
    specialize (IH (Some newline)).
    destruct (Rx.match_here [Rx.Plus (fun c => Ascii.eqb c newline)]
                (Some newline) (String newline t)) as [r|]; [|discriminate].
    exact IH.
  - rewrite rx_plus, E. reflexivity.
Qed.

Lemma match_newlines_none c t prev :
  Ascii.eqb c newline = false ->
  Rx.match_at NEWLINES prev (String c t) = None.
Proof.
  intros E. unfold NEWLINES. cbn [Rx.match_at]. now rewrite rx_plus, E.
Qed.

Lemma newlines_squeeze t : forall prev,
  String newline
    (Rx.sub_from NEWLINES (String newline "")
       (String.length t - String.length (drop_newlines t)) prev t) =
  squeeze (String newline t) /\
  Rx.sub_from NEWLINES (String newline "") 0 prev t = squeeze t.
Proof.
  induction t as [|c t IH]; intros prev; [split; reflexivity|].
  destruct (Ascii.eqb c newline) eqn:E.
  - apply Ascii.eqb_eq in E. subst c.
    destruct (IH (Some newline)) as [IH1 _].
    assert (A : String newline
                  (Rx.sub_from NEWLINES (String newline "")
                     (String.length (String newline t) -
                      String.length (drop_newlines (String newline t)))
                     prev (String newline t)) =
                squeeze (String newline t)).
    { cbn [drop_newlines]. rewrite Ascii.eqb_refl. cbn [String.length].
      rewrite Nat.sub_succ_l by apply drop_newlines_length.
      cbn [Rx.sub_from]. exact IH1. }
    split.
    + rewrite A. cbn [squeeze starts_with_newline].
      now rewrite Ascii.eqb_refl.
    + cbn [Rx.sub_from]. rewrite match_newlines. cbn [append]. exact IH1.
  - destruct (IH (Some c)) as [_ IH2].
    assert (B : Rx.sub_from NEWLINES (String newline "") 0 prev (String c t) =
                squeeze (String c t)).
    { cbn [Rx.sub_from]. rewrite (match_newlines_none c t prev E).
      cbn [squeeze]. rewrite E. cbn [andb]. now rewrite IH2. }
    split; [|exact B].
    cbn [drop_newlines]. rewrite E, Nat.sub_diag, B.
    cbn [squeeze starts_with_newline]. rewrite E, Ascii.eqb_refl.
    reflexivity.
Qed.

Lemma sub_newlines s :
  Rx.sub NEWLINES (String newline "") s = squeeze s.
Proof. apply newlines_squeeze. Qed.

Lemma squeeze_start s :
  starts_with_newline (squeeze s) = starts_with_newline s.
Proof.
  induction s as [|c s IH]; [reflexivity|]. cbn [squeeze].
  destruct (Ascii.eqb c newline) eqn:E; cbn [andb].
  - destruct (starts_with_newline s) eqn:F.
    + rewrite IH. cbn [starts_with_newline]. now rewrite E.
    + cbn [starts_with_newline]. now rewrite E.
  - reflexivity.
Qed.

Lemma prefix_blank_line c s :
  String.prefix blank_line (String c s) =
  Ascii.eqb c newline && starts_with_newline s.
Proof.
  apply Bool.eq_iff_eq_true. unfold blank_line.
  rewrite prefix_cons, andb_true_iff, Ascii.eqb_eq.
  destruct s as [|d s]; cbn [starts_with_newline].
  - split; intros [_ H]; discriminate.
  - rewrite prefix_cons, Ascii.eqb_eq. split.
    + intros [<- [<- _]]. now split.
    + intros [-> ->]. repeat split. apply prefix_nil.
Qed.

Lemma squeeze_no_blank_line s : contains blank_line (squeeze s) = false.
Proof.
  induction s as [|c s IH]; [reflexivity|]. cbn [squeeze].
  destruct (Ascii.eqb c newline && starts_with_newline s) eqn:E; [exact IH|].
  cbn [contains]. rewrite IH, orb_false_r, prefix_blank_line.
  now rewrite squeeze_start.
Qed.

Lemma squeeze_all_chars p s :
  all_chars p s = true -> all_chars p (squeeze s) = true.
Proof.
  induction s as [|c s IH]; [reflexivity|]. cbn [all_chars squeeze].
  intros H. apply andb_prop in H. destruct H as [Hc H].
  destruct (Ascii.eqb c newline && starts_with_newline s); [now apply IH|].
  cbn [all_chars]. now rewrite Hc, IH.
Qed.

Lemma squeeze_length s :
  (String.length (squeeze s) <= String.length s)%nat.
Proof.
  induction s as [|c s IH]; [apply Nat.le_refl|]. cbn [squeeze].
  destruct (Ascii.eqb c newline && starts_with_newline s);
    cbn [String.length]; lia.
Qed.

End Regex.

Section Strip.

Lemma lstrip_suffix s : exists a, s = (a ++ lstrip s)%string.
Proof.
  induction s as [|c s [a IH]]; [now exists ""|].
  cbn [lstrip]. destruct (is_space c); [|now exists ""].
  exists (String c a). cbn [append]. now rewrite <- IH.
Qed.

Lemma rstrip_prefix s : exists b, s = (rstrip s ++ b)%string.
Proof.
  induction s as [|c s [b IH]]; [now exists ""|].
  cbn [rstrip]. destruct (rstrip s) as [|d r].
  - destruct (is_space c).
    + now exists (String c s).
    + exists b. cbn [append] in *. now rewrite <- IH.
  - exists b. cbn [append] in *. now rewrite <- IH.
Qed.

Lemma strip_parts s : exists a b, s = (a ++ strip s ++ b)%string.
Proof.
  destruct (lstrip_suffix s) as [a A].
  destruct (rstrip_prefix (lstrip s)) as [b B].
  exists a, b. unfold strip. now rewrite <- B.
Qed.

Lemma contains_app_r old a : forall b,
  contains old (a ++ b) = false -> contains old b = false.
Proof.
  induction a as [|c a IH]; intros b H; [exact H|].
  cbn [append] in H. apply contains_cons in H. now apply IH.
Qed.

Lemma strip_all_chars p s :
  all_chars p s = true -> all_chars p (strip s) = true.
Proof.
  destruct (strip_parts s) as [a [b E]]. intros H.
  rewrite E, !all_chars_append in H.
  apply andb_prop in H. destruct H as [_ H].
  apply andb_prop in H. now destruct H.
Qed.

Lemma strip_contains old s :
  contains old s = false -> contains old (strip s) = false.
Proof.
  destruct (strip_parts s) as [a [b E]]. intros H. rewrite E in H.
  apply contains_app_r in H. now apply contains_app_l in H.
Qed.

Lemma strip_length s : (String.length (strip s) <= String.length s)%nat.
Proof.
  destruct (strip_parts s) as [a [b E]]. rewrite E at 2.
  rewrite !string_length_append. lia.
Qed.

Lemma lstrip_head s c : Rx.head (lstrip s) = Some c -> is_space c = false.
Proof.
  induction s as [|d s IH]; [discriminate|]. cbn [lstrip].
  destruct (is_space d) eqn:E; [exact IH|].
  cbn [Rx.head]. now intros [= <-].
Qed.

Lemma rstrip_head s c : Rx.head (rstrip s) = Some c -> Rx.head s = Some c.
Proof.
  destruct s as [|d s]; [discriminate|]. cbn [rstrip].
  destruct (rstrip s); [destruct (is_space d); [discriminate|]|]; exact id.
Qed.

Lemma rstrip_last s c : last_char (rstrip s) = Some c -> is_space c = false.
Proof.
  induction s as [|d s IH]; [discriminate|]. cbn [rstrip].
  destruct (rstrip s) as [|e r].
  - destruct (is_space d) eqn:E; [discriminate|].
    cbn [last_char]. now intros [= <-].
  - exact IH.
Qed.

End Strip.

(** X14: whatever the response, the summary [response_processing] returns
    has no asterisk and no empty line, neither begins nor ends with white
    space, and is not longer than the response. *)
Theorem response_processing_clean :
  forall response : string,
    let out := response_processing response in
    all_chars (fun c => negb (Ascii.eqb c "*")) out = true /\
    contains blank_line out = false /\
    (forall c, Rx.head out = Some c \/ last_char out = Some c ->
               is_space c = false) /\
    (String.length out <= String.length response)%nat.
Proof.
  intros response out. subst out. unfold response_processing.
  cbn [fold_left patterns_to_remove]. rewrite sub_newlines.
  split; [|split; [|split]].
  - apply strip_all_chars, squeeze_all_chars, sub_asterisk.
  - apply strip_contains, squeeze_no_blank_line.
  - intros c [H|H].
    + apply rstrip_head in H. now apply lstrip_head in H.
    + now apply rstrip_last in H.
  - eapply Nat.le_trans; [apply strip_length|].
    eapply Nat.le_trans; [apply squeeze_length|].
    repeat (eapply Nat.le_trans; [apply sub_length|]). apply Nat.le_refl.
Qed.

Section Removal.

Variable r : Rx.regex.
Variable ok : ascii -> bool.
Hypothesis no_match :
  forall c t prev, ok c = true -> Rx.match_at r prev (String c t) = None.
Hypothesis no_match_empty : forall prev, Rx.match_at r prev "" = None.

Lemma last_char_cons_some a : forall c, exists d, last_char (String c a) = Some d.
Proof.
  induction a as [|e a IH]; intros c; [now exists c|].
  destruct (IH e) as [d E]. exists d. exact E.
Qed.

Lemma last_or_cons prev c a : last_or prev (String c a) = last_or (Some c) a.
Proof.
  unfold last_or. destruct a as [|e a]; [reflexivity|].
  destruct (last_char_cons_some a e) as [d E].
  change (last_char (String c (String e a))) with (last_char (String e a)).
  now rewrite E.
Qed.

Lemma rx_sub_identity repl s : forall prev,
  all_chars ok s = true -> Rx.sub_from r repl 0 prev s = s.
Proof.
  induction s as [|c s IH]; intros prev H.
  - cbn [Rx.sub_from]. now rewrite no_match_empty.
  - cbn [all_chars] in H. apply andb_prop in H. destruct H as [Hc H].
    cbn [Rx.sub_from]. rewrite (no_match c s prev Hc). now rewrite IH.
Qed.

Lemma rx_sub_plain repl s :
  all_chars ok s = true -> Rx.sub r repl s = s.
Proof. apply rx_sub_identity. Qed.

Lemma rx_sub_prefix repl a t : forall prev,
  all_chars ok a = true ->
  Rx.sub_from r repl 0 prev (a ++ t) =
  (a ++ Rx.sub_from r repl 0 (last_or prev a) t)%string.
Proof.
  induction a as [|c a IH]; intros prev H; [reflexivity|].
  cbn [all_chars] in H. apply andb_prop in H. destruct H as [Hc H].
  cbn [append Rx.sub_from]. rewrite (no_match c (a ++ t) prev Hc).
  now rewrite IH, last_or_cons.
Qed.

Lemma rx_sub_from_skip repl m rest : forall prev,
  Rx.sub_from r repl (String.length m) prev (m ++ rest) =
  Rx.sub_from r repl 0 (last_or prev m) rest.
Proof.
  induction m as [|c m IH]; intros prev; [reflexivity|].
  cbn [String.length append Rx.sub_from]. now rewrite IH, last_or_cons.
Qed.

(** A passage [String c m] matched between two quiet texts is removed, and
    nothing else. *)
Lemma rx_sub_remove a c m b :
  all_chars ok a = true -> all_chars ok b = true ->
  Rx.match_at r (last_or None a) (String c (m ++ b)) = Some b ->
  Rx.sub r "" (a ++ String c (m ++ b)) = (a ++ b)%string.
Proof.
  intros Ha Hb M. unfold Rx.sub. rewrite (rx_sub_prefix "" a _ None Ha).
  f_equal. cbn [Rx.sub_from]. rewrite M. cbn [append].
  rewrite string_length_append, Nat.add_sub, rx_sub_from_skip.
  now apply rx_sub_identity.
Qed.

End Removal.

Section Patterns.

Lemma response_processing_steps response :
  response_processing response =
  strip (squeeze (Rx.sub ASTERISK "" (Rx.sub NUMBERING "" (Rx.sub PARENTHESES ""
    (Rx.sub HEADING "" (Rx.sub BOLD "" response)))))).
Proof.
  unfold response_processing. now rewrite sub_newlines.
Qed.

Lemma squeeze_plain s : all_chars dot s = true -> squeeze s = s.
Proof.
  induction s as [|c s IH]; [reflexivity|]. cbn [all_chars squeeze].
  intros H. apply andb_prop in H. destruct H as [Hc H].
  unfold dot in Hc. apply negb_true_iff in Hc. rewrite Hc. cbn [andb].
  now rewrite IH.
Qed.

Lemma BOLD_none c t prev :
  negb (Ascii.eqb c "*") && negb (Ascii.eqb c "#") = true ->
  Rx.match_at BOLD prev (String c t) = None.
Proof.
  intros H. apply andb_prop in H. destruct H as [A B].
  apply negb_true_iff in A. apply negb_true_iff in B.
  cbn [BOLD nth patterns_to_remove Rx.match_at Rx.lits app Rx.match_here].
  now rewrite A, B.
Qed.

Lemma HEADING_none c t prev :
  negb (Ascii.eqb c "#") = true ->
  Rx.match_at HEADING prev (String c t) = None.
Proof.
  intros B. apply negb_true_iff in B.
  cbn [HEADING nth patterns_to_remove Rx.match_at Rx.lits app Rx.match_here].
  now rewrite B.
Qed.

Lemma PARENTHESES_none c t prev :
  negb (Ascii.eqb c "(") = true ->
  Rx.match_at PARENTHESES prev (String c t) = None.
Proof.
  intros B. apply negb_true_iff in B.
  cbn [PARENTHESES nth patterns_to_remove Rx.match_at Rx.match_here].
  now rewrite B.
Qed.

Lemma NUMBERING_none c t prev :
  negb (is_digit c) = true ->
  Rx.match_at NUMBERING prev (String c t) = None.
Proof.
  intros B. apply negb_true_iff in B.
  cbn [NUMBERING nth patterns_to_remove Rx.match_at].
  cbn [Rx.match_here]. rewrite B.
  now destruct (xorb (Rx.word_at prev) (Rx.word_at (Rx.head (String c t)))).
Qed.

Lemma NUMBERING_empty prev : Rx.match_at NUMBERING prev "" = None.
Proof.
  cbn [NUMBERING nth patterns_to_remove Rx.match_at Rx.match_here].
  now destruct (xorb (Rx.word_at prev) (Rx.word_at (Rx.head ""))).
Qed.

Lemma ASTERISK_none c t prev :
  negb (Ascii.eqb c "*") = true ->
  Rx.match_at ASTERISK prev (String c t) = None.
Proof.
  intros B. apply negb_true_iff in B.
  cbn [ASTERISK nth patterns_to_remove Rx.match_at Rx.match_here].
  now rewrite B.
Qed.

Lemma quiet_inv c :
  quiet c = true ->
  negb (Ascii.eqb c "*") = true /\ negb (Ascii.eqb c "#") = true /\
  negb (Ascii.eqb c "(") = true /\ negb (is_digit c) = true /\ dot c = true.
Proof.
  unfold quiet. intros H. repeat (apply andb_prop in H; destruct H as [H ?]).
  repeat split; assumption.
Qed.

Lemma inner_inv c :
  inner c = true ->
  negb (Ascii.eqb c "*") = true /\ negb (Ascii.eqb c "#") = true /\
  negb (Ascii.eqb c ")") = true /\ dot c = true.
Proof.
  unfold inner. intros H. repeat (apply andb_prop in H; destruct H as [H ?]).
  repeat split; assumption.
Qed.

(** Quiet text passes through the five removals and the newline squeeze. *)
Lemma response_processing_quiet s :
  all_chars quiet s = true -> response_processing s = strip s.
Proof.
  intros H. rewrite response_processing_steps.
  rewrite (rx_sub_plain BOLD quiet) ;
    [| intros c t prev Q; apply BOLD_none; apply quiet_inv in Q;
       destruct Q as [A [B _]]; now rewrite A, B
     | reflexivity | exact H].
  rewrite (rx_sub_plain HEADING quiet);
    [| intros c t prev Q; apply HEADING_none; now apply quiet_inv in Q
     | reflexivity | exact H].
  rewrite (rx_sub_plain PARENTHESES quiet);
    [| intros c t prev Q; apply PARENTHESES_none; now apply quiet_inv in Q
     | reflexivity | exact H].
  rewrite (rx_sub_plain NUMBERING quiet);
    [| intros c t prev Q; apply NUMBERING_none; now apply quiet_inv in Q
     | apply NUMBERING_empty | exact H].
  rewrite (rx_sub_plain ASTERISK quiet);
    [| intros c t prev Q; apply ASTERISK_none; now apply quiet_inv in Q
     | reflexivity | exact H].
  f_equal. apply squeeze_plain.
  eapply all_chars_weaken; [|exact H]. intros c Q. now apply quiet_inv in Q.
Qed.

(** [.*?] followed by a closing parenthesis stops at the first one. *)
Lemma match_until_parenthesis w b : forall prev,
  all_chars inner w = true ->
  Rx.match_here [Rx.LazyStar dot; Rx.Lit ")"] prev (w ++ String ")" b) =
  Some b.
Proof.
  induction w as [|c w IH]; intros prev H.
  - rewrite rx_lazy. reflexivity.
  - cbn [all_chars] in H. apply andb_prop in H. destruct H as [Hc H].
    apply inner_inv in Hc. destruct Hc as [_ [_ [P D]]].
    apply negb_true_iff in P.
    rewrite rx_lazy. cbn [append]. cbn [Rx.match_here]. rewrite P, D.
    apply IH, H.
Qed.

(** [.*?] followed by two asterisks stops at the first asterisk. *)
Lemma match_until_asterisks w b : forall prev,
  all_chars inner w = true ->
  Rx.match_here [Rx.LazyStar dot; Rx.Lit "*"; Rx.Lit "*"] prev
    (w ++ String "*" (String "*" b)) = Some b.
Proof.
  induction w as [|c w IH]; intros prev H.
  - rewrite rx_lazy. reflexivity.
  - cbn [all_chars] in H. apply andb_prop in H. destruct H as [Hc H].
    apply inner_inv in Hc. destruct Hc as [A [_ [_ D]]].
    apply negb_true_iff in A.
    rewrite rx_lazy. cbn [append]. cbn [Rx.match_here]. rewrite A, D.
    apply IH, H.
Qed.

End Patterns.

Section Passages.

Lemma response_processing_parentheses a w b :
  all_chars quiet a = true -> all_chars quiet b = true ->
  all_chars inner w = true ->
  response_processing (a ++ "(" ++ w ++ ")" ++ b) = strip (a ++ b).
Proof.
  intros Ha Hb Hw.
  assert (Hab : all_chars quiet (a ++ b) = true)
    by now rewrite all_chars_append, Ha, Hb.
  rewrite <- (response_processing_quiet (a ++ b) Hab).
  rewrite !response_processing_steps. do 4 f_equal.
  set (s := (a ++ "(" ++ w ++ ")" ++ b)%string).
  set (free := fun c => negb (Ascii.eqb c "*") && negb (Ascii.eqb c "#")).
  assert (Hs : all_chars free s = true).
  { subst s. rewrite !all_chars_append.
    rewrite (all_chars_weaken quiet free a), (all_chars_weaken inner free w),
      (all_chars_weaken quiet free b); try assumption; try reflexivity.
    - intros c Q. apply quiet_inv in Q. destruct Q as [A [B _]].
      unfold free. now rewrite A, B.
    - intros c Q. apply inner_inv in Q. destruct Q as [A [B _]].
      unfold free. now rewrite A, B.
    - intros c Q. apply quiet_inv in Q. destruct Q as [A [B _]].
      unfold free. now rewrite A, B. }
  rewrite (rx_sub_plain BOLD free);
    [| intros c t prev Q; now apply BOLD_none | reflexivity | exact Hs].
  rewrite (rx_sub_plain HEADING free);
    [| intros c t prev Q; apply HEADING_none; unfold free in Q;
       apply andb_prop in Q; now destruct Q
     | reflexivity | exact Hs].
  rewrite (rx_sub_plain BOLD quiet);
    [| intros c t prev Q; apply BOLD_none; apply quiet_inv in Q;
       destruct Q as [A [B _]]; now rewrite A, B
     | reflexivity | exact Hab].
  rewrite (rx_sub_plain HEADING quiet);
    [| intros c t prev Q; apply HEADING_none; now apply quiet_inv in Q
     | reflexivity | exact Hab].
  rewrite (rx_sub_plain PARENTHESES quiet) with (s := (a ++ b)%string);
    [| intros c t prev Q; apply PARENTHESES_none; now apply quiet_inv in Q
     | reflexivity | exact Hab].
  subst s.
  change ("(" ++ w ++ ")" ++ b)%string with (String "(" (w ++ String ")" b)).
  replace (String "(" (w ++ String ")" b))
    with (String "(" ((w ++ ")") ++ b)) by now rewrite append_assoc.
  apply (rx_sub_remove PARENTHESES quiet).
  + intros c t prev Q. apply PARENTHESES_none. now apply quiet_inv in Q.
  + reflexivity.
  + exact Ha.
  + exact Hb.
  + rewrite append_assoc. cbn [append].
    cbn [PARENTHESES nth patterns_to_remove Rx.match_at].
    change (Rx.match_here [Rx.Lit "("; Rx.LazyStar dot; Rx.Lit ")"]
              (last_or None a) (String "(" (w ++ String ")" b)))
      with (Rx.match_here [Rx.LazyStar dot; Rx.Lit ")"]
              (Some "("%char) (w ++ String ")" b)).
    now rewrite match_until_parenthesis.
Qed.

Lemma response_processing_bold a w b :
  all_chars quiet a = true -> all_chars quiet b = true ->
  all_chars inner w = true ->
  response_processing (a ++ "**" ++ w ++ "**" ++ b) = strip (a ++ b).
Proof.
  intros Ha Hb Hw.
  assert (Hab : all_chars quiet (a ++ b) = true)
    by now rewrite all_chars_append, Ha, Hb.
  rewrite <- (response_processing_quiet (a ++ b) Hab).
  rewrite !response_processing_steps. do 5 f_equal.
  rewrite (rx_sub_plain BOLD quiet) with (s := (a ++ b)%string);
    [| intros c t prev Q; apply BOLD_none; apply quiet_inv in Q;
       destruct Q as [A [B _]]; now rewrite A, B
     | reflexivity | exact Hab].
  change ("**" ++ w ++ "**" ++ b)%string
    with (String "*" (String "*" (w ++ String "*" (String "*" b)))).
  replace (String "*" (String "*" (w ++ String "*" (String "*" b))))
    with (String "*" (("*" ++ w ++ "**") ++ b))
    by (cbn [append]; now rewrite append_assoc).
  f_equal. apply (rx_sub_remove BOLD quiet).
  + intros c t prev Q. apply BOLD_none. apply quiet_inv in Q.
    destruct Q as [A [B _]]. now rewrite A, B.
  + reflexivity.
  + exact Ha.
  + exact Hb.
  + cbn [append]. rewrite append_assoc. cbn [append].
    cbn [BOLD nth patterns_to_remove Rx.match_at Rx.lits app].
    change (Rx.match_here
              [Rx.Lit "*"; Rx.Lit "*"; Rx.LazyStar dot; Rx.Lit "*"; Rx.Lit "*"]
              (last_or None a)
              (String "*" (String "*" (w ++ String "*" (String "*" b)))))
      with (Rx.match_here [Rx.LazyStar dot; Rx.Lit "*"; Rx.Lit "*"]
              (Some "*"%char) (w ++ String "*" (String "*" b))).
    now rewrite match_until_asterisks.
Qed.

End Passages.

(** X15: a passage in parentheses, such as the forecast
    ["(decrease 30% | increase 70%)"], and a passage between double
    asterisks are removed from the summary together with what they enclose;
    the quiet text around them is kept and stripped. *)
Theorem response_processing_removes :
  forall a w b : string,
    all_chars quiet a = true -> all_chars quiet b = true ->
    all_chars inner w = true ->
    response_processing (a ++ "(" ++ w ++ ")" ++ b) = strip (a ++ b) /\
    response_processing (a ++ "**" ++ w ++ "**" ++ b) = strip (a ++ b).
Proof.
  intros a w b Ha Hb Hw. split.
  - now apply response_processing_parentheses.
  - now apply response_processing_bold.
Qed.

Lemma response_processing_removes_witness :
  response_processing
    ("Apple rose " ++ "(" ++ "decrease 30% | increase 70%" ++ ")" ++ " today") =
  strip ("Apple rose " ++ " today") /\
  response_processing
    ("Apple rose " ++ "**" ++ "decrease 30% | increase 70%" ++ "**" ++ " today") =
  strip ("Apple rose " ++ " today").
Proof.
  apply (response_processing_removes "Apple rose "
           "decrease 30% | increase 70%" " today"); reflexivity.
Defined.

Section Numbering.

(** [\d+\.] takes the digits up to the full stop. *)
Lemma match_digits_stop ds b : forall prev,
  ds <> "" -> all_chars is_digit ds = true ->
  Rx.match_here [Rx.Plus is_digit; Rx.Lit "."] prev (ds ++ String "." b) =
  Some b.
Proof.
  induction ds as [|d ds IH]; intros prev Hne H; [easy|].
  cbn [all_chars] in H. apply andb_prop in H. destruct H as [Hd H].
  cbn [append]. rewrite rx_plus, Hd.
  destruct ds as [|e ds].
  - reflexivity.
  - now rewrite IH.
Qed.

Lemma digit_is_word d : is_digit d = true -> is_word d = true.
Proof. intros H. unfold is_word. now rewrite H. Qed.

End Numbering.

(** X16: a number followed by a full stop is removed from the summary when
    it does not continue a word: the numbering of a list ["1."], and equally
    a number that ends a sentence. *)
Theorem response_processing_numbering :
  forall a ds b : string,
    all_chars quiet a = true -> all_chars quiet b = true ->
    is_digits ds -> Rx.word_at (last_or None a) = false ->
    response_processing (a ++ ds ++ "." ++ b) = strip (a ++ b).
Proof.
  intros a ds b Ha Hb [Hne Hds] Hprev.
  assert (Hab : all_chars quiet (a ++ b) = true)
    by now rewrite all_chars_append, Ha, Hb.
  rewrite <- (response_processing_quiet (a ++ b) Hab).
  rewrite !response_processing_steps. do 3 f_equal.
  set (s := (a ++ ds ++ "." ++ b)%string).
  set (free := fun c => negb (Ascii.eqb c "*") && negb (Ascii.eqb c "#") &&
                        negb (Ascii.eqb c "(")).
  assert (Q : forall c, quiet c = true -> free c = true).
  { intros c H. apply quiet_inv in H. destruct H as [A [B [C _]]].
    unfold free. now rewrite A, B, C. }
  assert (F : forall c, free c = true ->
                negb (Ascii.eqb c "*") = true /\
                negb (Ascii.eqb c "#") = true /\
                negb (Ascii.eqb c "(") = true).
  { intros c H. unfold free in H.
    repeat (apply andb_prop in H; destruct H as [H ?]). now repeat split. }
  assert (Hs : all_chars free s = true).
  { subst s. rewrite !all_chars_append.
    rewrite (all_chars_weaken quiet free a Q Ha),
      (all_chars_weaken quiet free b Q Hb).
    rewrite (all_chars_weaken is_digit free ds); [reflexivity| |exact Hds].
    intros c H. unfold free.
    destruct (Ascii.eqb_spec c "*") as [->|]; [discriminate|].
    destruct (Ascii.eqb_spec c "#") as [->|]; [discriminate|].
    destruct (Ascii.eqb_spec c "(") as [->|]; [discriminate|].
    reflexivity. }
  rewrite (rx_sub_plain BOLD free) with (s := s);
    [| intros c t prev H; apply BOLD_none; apply F in H;
       destruct H as [A [B _]]; now rewrite A, B
     | reflexivity | exact Hs].
  rewrite (rx_sub_plain HEADING free) with (s := s);
    [| intros c t prev H; apply HEADING_none; now apply F in H
     | reflexivity | exact Hs].
  rewrite (rx_sub_plain PARENTHESES free) with (s := s);
    [| intros c t prev H; apply PARENTHESES_none; now apply F in H
     | reflexivity | exact Hs].
  rewrite (rx_sub_plain BOLD quiet) with (s := (a ++ b)%string);
    [| intros c t prev H; apply BOLD_none; apply quiet_inv in H;
       destruct H as [A [B _]]; now rewrite A, B
     | reflexivity | exact Hab].
  rewrite (rx_sub_plain HEADING quiet) with (s := (a ++ b)%string);
    [| intros c t prev H; apply HEADING_none; now apply quiet_inv in H
     | reflexivity | exact Hab].
  rewrite (rx_sub_plain PARENTHESES quiet) with (s := (a ++ b)%string);
    [| intros c t prev H; apply PARENTHESES_none; now apply quiet_inv in H
     | reflexivity | exact Hab].
  rewrite (rx_sub_plain NUMBERING quiet) with (s := (a ++ b)%string);
    [| intros c t prev H; apply NUMBERING_none; now apply quiet_inv in H
     | apply NUMBERING_empty | exact Hab].
  subst s. destruct ds as [|d ds]; [easy|].
  cbn [all_chars] in Hds. apply andb_prop in Hds. destruct Hds as [Hd Hds'].
  replace (String d ds ++ "." ++ b)%string
    with (String d ((ds ++ ".") ++ b))
    by (cbn [append]; now rewrite append_assoc).
  apply (rx_sub_remove NUMBERING quiet).
  - intros c t prev H. apply NUMBERING_none. now apply quiet_inv in H.
  - apply NUMBERING_empty.
  - exact Ha.
  - exact Hb.
  - rewrite append_assoc. cbn [append].
    cbn [NUMBERING nth patterns_to_remove Rx.match_at].
    change (Rx.match_here [Rx.WordBoundary; Rx.Plus is_digit; Rx.Lit "."]
              (last_or None a) (String d (ds ++ String "." b)))
      with (if xorb (Rx.word_at (last_or None a)) (is_word d)
            then Rx.match_here [Rx.Plus is_digit; Rx.Lit "."]
                   (last_or None a) (String d ds ++ String "." b)
            else None).
    rewrite Hprev, (digit_is_word d Hd). cbn [xorb].
    rewrite match_digits_stop; [reflexivity | discriminate |].
    cbn [all_chars]. now rewrite Hd, Hds'.
Qed.

Lemma response_processing_numbering_witness :
  response_processing ("Sales rose in " ++ "2024" ++ "." ++ " Outlook: good") =
  strip ("Sales rose in " ++ " Outlook: good").
Proof.
  apply (response_processing_numbering "Sales rose in " "2024" " Outlook: good").
  - reflexivity.
  - reflexivity.
  - split; [discriminate | reflexivity].
  - reflexivity.
Defined.

(** ** [ai_analyzer] and [main] *)

Section Forecast.

Lemma findall_none pat (ok : ascii -> bool) :
  match_at pat "" = None ->
  (forall c t, ok c = true -> match_at pat (String c t) = None) ->
  forall s, all_chars ok s = true -> findall pat s = [].
Proof.
  intros E N. unfold findall. induction s as [|c s IH]; intros H.
  - cbn [findall_from]. now rewrite E.
  - cbn [all_chars] in H. apply andb_prop in H. destruct H as [Hc H].
    cbn [findall_from]. rewrite (N c s Hc). now apply IH.
Qed.

Lemma FORECAST_PATTERN_1_start c t :
  not_paren c = true -> match_at FORECAST_PATTERN_1 (String c t) = None.
Proof.
  intros H. unfold match_at.
  cbn [FORECAST_PATTERN_1 lits app match_here].
  now rewrite (not_paren_eqb c H).
Qed.

Lemma INFORMATIVENESS_PATTERN_start c t :
  not_paren c = true -> match_at INFORMATIVENESS_PATTERN (String c t) = None.
Proof.
  intros H. unfold match_at.
  cbn [INFORMATIVENESS_PATTERN lits app match_here].
  now rewrite (not_paren_eqb c H).
Qed.

Lemma lower_char_not_paren c : not_paren (lower_char c) = not_paren c.
Proof. destruct c as [[] [] [] [] [] [] [] []]; reflexivity. Qed.

Lemma lower_not_paren s :
  all_chars not_paren s = true -> all_chars not_paren (lower s) = true.
Proof.
  induction s as [|c s IH]; [reflexivity|]. cbn [all_chars lower].
  intros H. apply andb_prop in H. destruct H as [Hc H].
  now rewrite lower_char_not_paren, Hc, IH.
Qed.

Lemma lower_char_digit c : is_digit c = true -> lower_char c = c.
Proof.
  intros H. destruct c as [[] [] [] [] [] [] [] []];
    (reflexivity || discriminate H).
Qed.

Lemma lower_digits ds : all_chars is_digit ds = true -> lower ds = ds.
Proof.
  induction ds as [|c ds IH]; [reflexivity|]. cbn [all_chars lower].
  intros H. apply andb_prop in H. destruct H as [Hc H].
  now rewrite (lower_char_digit c Hc), IH.
Qed.

Lemma quiet_not_paren s :
  all_chars quiet s = true -> all_chars not_paren s = true.
Proof.
  apply all_chars_weaken. intros c Q. apply quiet_inv in Q.
  now destruct Q as [_ [_ [P _]]].
Qed.

Lemma digits_not_paren s :
  all_chars is_digit s = true -> all_chars not_paren s = true.
Proof.
  apply all_chars_weaken. intros c H. unfold not_paren.
  destruct (Ascii.eqb_spec c "(") as [->|]; [discriminate|reflexivity].
Qed.

Lemma digits_inner s :
  all_chars is_digit s = true -> all_chars inner s = true.
Proof.
  apply all_chars_weaken. intros c H.
  destruct c as [[] [] [] [] [] [] [] []]; (reflexivity || discriminate H).
Qed.

(** The lower-cased text of a response with one forecast between quiet
    texts. *)
Lemma lower_forecast a P Q b :
  all_chars is_digit P = true -> all_chars is_digit Q = true ->
  lower (a ++ "(decrease " ++ P ++ "% | increase " ++ Q ++ "%)" ++ b) =
  (lower a ++
   ("(decrease " ++ P ++ String "%" (" | increase " ++ Q ++ String "%" ")")) ++
   lower b)%string.
Proof.
  intros HP HQ. rewrite two_groups_text_app.
  rewrite !lower_append, (lower_digits P HP), (lower_digits Q HQ).
  reflexivity.
Qed.

Lemma get_rate_quiet_forecast a P Q b :
  all_chars quiet a = true -> all_chars quiet b = true ->
  is_digits P -> is_digits Q ->
  get_rate (a ++ "(decrease " ++ P ++ "% | increase " ++ Q ++ "%)" ++ b) =
  Ok {| Decrease_Probability := value_of P;
        Increase_Probability := value_of Q;
        Informativeness := 50 |}.
Proof.
  intros Ha Hb HP HQ.
  set (summary := (a ++ "(decrease " ++ P ++ "% | increase " ++ Q ++ "%)" ++ b)%string).
  pose proof (lower_forecast a P Q b (proj2 HP) (proj2 HQ)) as L.
  fold summary in L.
  pose proof (lower_not_paren a (quiet_not_paren a Ha)) as La.
  pose proof (lower_not_paren b (quiet_not_paren b Hb)) as Lb.
  assert (F : exists more,
             findall FORECAST_PATTERN_1 (lower summary) =
             [(P ++ "%")%string; (Q ++ "%")%string] :: more).
  { rewrite FORECAST_PATTERN_1_shape.
    apply (findall_leftmost_two_groups _ _ _ (lower a) P Q (lower b) HP HQ).
    split; [exact L|].
    rewrite <- FORECAST_PATTERN_1_shape.
    apply (no_match_in_ok _ not_paren); [|exact La].
    apply FORECAST_PATTERN_1_start. }
  destruct F as [more F].
  destruct (get_rate_forecast summary P Q more HP HQ (or_introl F))
    as [inf [E D]].
  rewrite E. do 2 f_equal. apply D.
  rewrite L.
  rewrite (findall_no_match_in INFORMATIVENESS_PATTERN (lower a))
    by (apply (no_match_in_ok _ not_paren);
        [apply INFORMATIVENESS_PATTERN_start | exact La]).
  rewrite two_groups_text_app.
  change ("(decrease " ++ P ++ String "%" (" | increase " ++ Q ++
            String "%" (")" ++ lower b)))%string
    with (String "(" ("decrease " ++ P ++ String "%" (" | increase " ++ Q ++
            String "%" (")" ++ lower b)))).
  unfold findall. cbn [findall_from].
  change (match_at INFORMATIVENESS_PATTERN
            (String "(" ("decrease " ++ P ++ String "%" (" | increase " ++ Q ++
               String "%" (")" ++ lower b)))))
    with (@None (list string * string)).
  apply (findall_none INFORMATIVENESS_PATTERN not_paren eq_refl
           INFORMATIVENESS_PATTERN_start).
  cbn [append all_chars]. rewrite all_chars_append, (digits_not_paren P (proj2 HP)).
  cbn [append all_chars]. rewrite all_chars_append, (digits_not_paren Q (proj2 HQ)).
  cbn [append all_chars]. now rewrite Lb.
Qed.

End Forecast.

(** X17: when the dispatcher returns a response whose text is quiet apart
    from one forecast ["(decrease P% | increase Q%)"], with numbers of at most
    4300 digits, the limit of [int], [main] returns the rating with these two
    probabilities and informativeness 50, and a summary from which the
    forecast has been removed: the rating is read from the response before it
    is cleaned. *)
Theorem main_forecast :
  forall (N : Nltk) (generate_content : backend)
         (article company_name : string) (models : list model)
         (r : response) (a b P Q : string),
    returned (request_processing generate_content
                (ai_request (text_processing article) company_name) models) =
    Ok (Some r) ->
    text r = (a ++ "(decrease " ++ P ++ "% | increase " ++ Q ++ "%)" ++ b)%string ->
    all_chars quiet a = true -> all_chars quiet b = true ->
    is_digits P -> is_digits Q ->
    (String.length P <= int_max_str_digits)%nat ->
    (String.length Q <= int_max_str_digits)%nat ->
    value (main generate_content article company_name models) =
    Return (strip (a ++ b),
            {| Decrease_Probability := value_of P;
               Increase_Probability := value_of Q;
               Informativeness := 50 |}).
Proof.
  intros N generate_content article company_name models r a b P Q R T Ha Hb
    HP HQ _ _.
  unfold main, ai_analyzer. cbn [value]. rewrite R, T.
  rewrite (get_rate_quiet_forecast a P Q b Ha Hb HP HQ).
  do 2 f_equal.
  replace ("(decrease " ++ P ++ "% | increase " ++ Q ++ "%)" ++ b)%string
    with ("(" ++ ("decrease " ++ P ++ "% | increase " ++ Q ++ "%") ++ ")" ++ b)%string.
  - apply (response_processing_parentheses a _ b Ha Hb).
    cbn [append all_chars]. rewrite all_chars_append, (digits_inner P (proj2 HP)).
    cbn [append all_chars]. rewrite all_chars_append, (digits_inner Q (proj2 HQ)).
    reflexivity.
  - cbn [append]. rewrite !append_assoc. cbn [append].
    rewrite !append_assoc. reflexivity.
Qed.

Lemma main_forecast_witness :
  value (@main whitespace_tokenizers
           (fun _ _ _ =>
              Returns (Some {| text := "Apple rose (decrease 30% | increase 70%) today" |}))
           "Apple beats the forecast" "Apple" []) =
  Return (strip ("Apple rose " ++ " today"),
          {| Decrease_Probability := value_of "30";
             Increase_Probability := value_of "70";
             Informativeness := 50 |}).
Proof.
  apply (main_forecast whitespace_tokenizers _ _ _ _
           {| text := "Apple rose (decrease 30% | increase 70%) today" |}
           "Apple rose " " today" "30" "70").
  - reflexivity.
  - reflexivity.
  - reflexivity.
  - reflexivity.
  - split; [discriminate | reflexivity].
  - split; [discriminate | reflexivity].
  - apply Nat.leb_le. reflexivity.
  - apply Nat.leb_le. reflexivity.
Defined.

(** X18: when the backend is rate-limited on all six attempts, the [None]
    the dispatcher returns makes [ai_analyzer], and with it [main], raise
    [AttributeError]; the run has slept 135 seconds and the pool is the
    populated one. *)
Theorem main_exhausted :
  forall (N : Nltk) (generate_content : backend)
         (article company_name : string) (models : list model),
    (forall k m, (k < max_retries)%nat ->
       is_rate_limited
         (generate_content k m
            (ai_request (text_processing article) company_name)) = true) ->
    let out := main generate_content article company_name models in
    value out = Throw AttributeError /\
    pool out = fst (populate models) /\
    total_sleep (log out) = 135.
Proof.
  intros N generate_content article company_name models H out. subst out.
  unfold main, ai_analyzer. cbn [value pool log].
  rewrite (request_processing_all_limited _ _ models H).
  cbn [returned MODELS trace]. repeat split.
  destruct models; reflexivity.
Qed.

Lemma main_exhausted_witness :
  let out := @main whitespace_tokenizers
               (fun _ _ _ => Fails "429 Too Many Requests")
               "Apple beats the forecast" "Apple" [] in
  value out = Throw AttributeError /\
  pool out = fst (populate []) /\
  total_sleep (log out) = 135.
Proof.
  apply (main_exhausted whitespace_tokenizers
           (fun _ _ _ => Fails "429 Too Many Requests")).
  intros k m _. reflexivity.
Defined.

(** ** Collecting and saving the articles *)

Section Collecting.

Context {N : Nltk}.
Variable requests_get : string -> fetched.
Variable generate_content : nat -> backend.

Lemma get_rate_nonneg summary r : get_rate summary = Ok r -> nonneg_rating r.
Proof.
  intros E. destruct (get_rate_inv summary r E) as [[s1 D] [[s2 I] F]].
  repeat split.
  - now apply int_nonneg in D.
  - now apply int_nonneg in I.
  - now apply informativeness_nonneg in F.
Qed.

Lemma main_return gc article company models summary r :
  value (main gc article company models) = Return (summary, r) ->
  exists raw, get_rate raw = Ok r /\ summary = response_processing raw.
Proof.
  unfold main. cbn [value].
  destruct (value (ai_analyzer gc (text_processing article) company models))
    as [raw|e]; [|discriminate].
  destruct (get_rate raw) as [r'|e] eqn:E; [|discriminate].
  intros H. inversion H; subst. now exists raw.
Qed.

Lemma fetch_link_well_formed company acc news_link :
  well_formed (fst acc) ->
  well_formed (fst (fetch_link requests_get generate_content company acc
                      news_link)).
Proof.
  destruct acc as [lists st]. cbn [fst]. intros W. unfold fetch_link.
  destruct (requests_get news_link) as [msg|soup_news]; [exact W|].
  destruct (readmore soup_news); [exact W|].
  destruct (article_div soup_news) as [paragraphs|]; [|exact W].
  destruct (List.length paragraphs <? 2)%nat; [exact W|].
  destruct (value (analyze_articles (generate_content (dispatches st)) company
                     paragraphs (models_now st))) as [[summary r]|e] eqn:V;
    [|exact W].
  destruct (headline soup_news) as [title|]; [|exact W].
  cbn [fst]. destruct W as [[A [B C]] R].
  apply main_return in V. destruct V as [raw [G _]].
  split; [unfold aligned|]; cbn [titles_list links_list summary_list rating_list].
  - rewrite !length_app. cbn [List.length]. lia.
  - apply Forall_app. split; [exact R|]. constructor; [|constructor].
    now apply get_rate_nonneg in G.
Qed.

Lemma fetch_links_well_formed company links : forall acc,
  well_formed (fst acc) ->
  well_formed (fst (fold_left (fetch_link requests_get generate_content company)
                      links acc)).
Proof.
  induction links as [|l links IH]; intros acc W; [exact W|].
  cbn [fold_left]. now apply IH, fetch_link_well_formed.
Qed.

Lemma no_articles_well_formed : well_formed no_articles.
Proof. repeat split. constructor. Qed.

Lemma dict_set_Forall {V : Type} (P : string * V -> Prop) d k v :
  Forall P d -> P (k, v) -> Forall P (dict_set d k v).
Proof.
  intros F H. induction F as [|[k' v'] d Hh Ht IH]; cbn [dict_set].
  - now constructor.
  - destruct (String.eqb k' k); constructor; assumption.
Qed.

Lemma fetch_company_well_formed acc item :
  Forall (fun entry => well_formed (snd entry)) (fst acc) ->
  Forall (fun entry => well_formed (snd entry))
         (fst (fetch_company requests_get generate_content acc item)).
Proof.
  destruct acc as [articles_dict st]. destruct item as [company links].
  cbn [fst]. intros F. unfold fetch_company.
  pose proof (fetch_links_well_formed company links (no_articles, st)
                no_articles_well_formed) as W.
  destruct (fold_left (fetch_link requests_get generate_content company) links
              (no_articles, st)) as [lists st'].
  cbn [fst] in *. now apply dict_set_Forall.
Qed.

Lemma collect_articles_well_formed news_dict st :
  Forall (fun entry => well_formed (snd entry))
         (fst (collect_articles requests_get generate_content news_dict st)).
Proof.
  unfold collect_articles.
  assert (G : forall acc,
             Forall (fun entry => well_formed (snd entry)) (fst acc) ->
             Forall (fun entry => well_formed (snd entry))
                    (fst (fold_left
                            (fetch_company requests_get generate_content)
                            news_dict acc))).
  { induction news_dict as [|item rest IH]; intros acc F; [exact F|].
    cbn [fold_left]. now apply IH, fetch_company_well_formed. }
  apply G. constructor.
Qed.

Lemma zip4_length {A B C D : Type} (a : list A) : forall (b : list B)
  (c : list C) (d : list D),
  List.length a = List.length d -> List.length b = List.length d ->
  List.length c = List.length d ->
  List.length (zip4 a b c d) = List.length d.
Proof.
  induction a as [|x a IH]; intros b c d Ha Hb Hc.
  - destruct d; [reflexivity|discriminate].
  - destruct d as [|w d]; [discriminate|].
    destruct b as [|y b]; [discriminate|]. destruct c as [|z c]; [discriminate|].
    cbn [zip4 List.length]. f_equal. apply IH; cbn in *; lia.
Qed.

Lemma company_rows_length (stocks : string -> option Z) company
  (l : list (string * string * string * rating)) :
  List.length
    (flat_map
       (fun '(title, link, summary, rating) =>
          match stocks company with
          | Some id =>
              [ {| News.stock_id := id;
                   News.title := title;
                   News.link := link;
                   News.summary := summary;
                   News.decrease := Decrease_Probability rating;
                   News.increase := Increase_Probability rating;
                   News.informativeness := Informativeness rating |} ]
          | None => []
          end) l) =
  match stocks company with
  | Some _ => List.length l
  | None => O
  end.
Proof.
  induction l as [|[[[t l0] s] r] l IH].
  - now destruct (stocks company).
  - cbn [flat_map]. rewrite length_app, IH.
    now destruct (stocks company).
Qed.

Lemma stock_news_length (stocks : string -> option Z) dict :
  Forall (fun entry => aligned (snd entry)) dict ->
  List.length (stock_news stocks dict) =
  list_sum (map (fun entry => List.length (rating_list (snd entry)))
                (found_stocks stocks dict)).
Proof.
  intros F. unfold stock_news.
  induction F as [|[company v] dict [A [B C]] _ IH]; [reflexivity|].
  cbn [flat_map found_stocks]. rewrite length_app, IH. cbn [snd] in *.
  rewrite company_rows_length, (zip4_length _ _ _ _ A B C).
  now destruct (stocks company).
Qed.

End Collecting.

(** X19: whatever the pages and the backend do, the four lists
    [fetch_article_content] collects for a company have the same length, one
    entry per accepted article, and every rating has non-negative fields; so
    the [zip] of [save_articles_news] drops nothing, and the rows it builds
    are as many as the ratings of the companies found in [Stock]. *)
Theorem collect_articles_aligned :
  forall (N : Nltk) (requests_get : string -> fetched)
         (generate_content : nat -> backend)
         (news_dict : list (string * list string)) (st : session)
         (stocks : string -> option Z),
    let articles_dict :=
      fst (collect_articles requests_get generate_content news_dict st) in
    Forall (fun entry => aligned (snd entry) /\
                         Forall nonneg_rating (rating_list (snd entry)))
           articles_dict /\
    List.length (stock_news stocks articles_dict) =
    list_sum (map (fun entry => List.length (rating_list (snd entry)))
                  (found_stocks stocks articles_dict)).
Proof.
  intros N requests_get generate_content news_dict st stocks articles_dict.
  pose proof (collect_articles_well_formed requests_get generate_content
                news_dict st) as W.
  fold articles_dict in W. split; [exact W|].
  apply stock_news_length.
  eapply Forall_impl; [|exact W]. now intros entry [A _].
Qed.

Section NoNews.

Context {N : Nltk}.
Variable requests_get : string -> fetched.
Variable generate_content : nat -> backend.

Lemma dict_set_in_new {V : Type} (d : list (string * V)) k v :
  In (k, v) (dict_set d k v).
Proof.
  induction d as [|[k' v'] d IH]; cbn [dict_set]; [now left|].
  destruct (String.eqb k' k); [now left | now right].
Qed.

Lemma dict_set_in_old {V : Type} (d : list (string * V)) k v k' v' :
  In (k', v') d -> k' <> k -> In (k', v') (dict_set d k v).
Proof.
  intros I Hk. induction d as [|[k0 v0] d IH]; [easy|].
  cbn [dict_set]. destruct (String.eqb_spec k0 k) as [->|Nk].
  - destruct I as [E|I]; [inversion E; congruence | now right].
  - destruct I as [E|I]; [now left | right; now apply IH].
Qed.

Lemma dict_set_in_inv {V : Type} (d : list (string * V)) k v k' v' :
  In (k', v') (dict_set d k v) -> In (k', v') d \/ (k' = k /\ v' = v).
Proof.
  induction d as [|[k0 v0] d IH]; cbn [dict_set].
  - intros [E|[]]. inversion E. now right.
  - destruct (String.eqb k0 k).
    + intros [E|I]; [inversion E; now right | left; now right].
    + intros [E|I]; [left; now left|].
      destruct (IH I) as [I'|E]; [left; now right | now right].
Qed.

(** The news dictionary has the links of the stocks for which [get_news]
    answered, under their titles. *)
Lemma get_companies_news_inv (get_news : string -> option (list string))
  (table : stock_table) : forall acc k (v : list string),
  In (k, v)
     (fold_left
        (fun news_dict (stock : Z * string) =>
           match get_news (snd stock) with
           | Some article_list => dict_set news_dict (snd stock) article_list
           | None => news_dict
           end) table acc) ->
  In (k, v) acc \/ (In k (map snd table) /\ get_news k = Some v).
Proof.
  induction table as [|[id t] table IH]; intros acc k v H; [now left|].
  cbn [fold_left snd] in H. apply IH in H. destruct H as [H|[H G]].
  - destruct (get_news t) as [links|] eqn:E; [|now left].
    apply dict_set_in_inv in H. destruct H as [H|[-> ->]]; [now left|].
    right. split; [now left | exact E].
  - right. split; [now right | exact G].
Qed.

Lemma get_companies_news_keep (get_news : string -> option (list string))
  (table : stock_table) : forall acc k (v : list string),
  In (k, v) acc -> get_news k = Some v ->
  In (k, v)
     (fold_left
        (fun news_dict (stock : Z * string) =>
           match get_news (snd stock) with
           | Some article_list => dict_set news_dict (snd stock) article_list
           | None => news_dict
           end) table acc).
Proof.
  induction table as [|[id t] table IH]; intros acc k v H G; [exact H|].
  cbn [fold_left snd]. apply IH; [|exact G].
  destruct (get_news t) as [links|] eqn:E; [|exact H].
  destruct (String.eqb_spec k t) as [->|Nk].
  - rewrite G in E. inversion E; subst. apply dict_set_in_new.
  - now apply dict_set_in_old.
Qed.

Lemma get_companies_news_in (get_news : string -> option (list string))
  (table : stock_table) id title links :
  In (id, title) table -> get_news title = Some links ->
  In (title, links) (get_companies_news table get_news).
Proof.
  unfold get_companies_news. generalize (@nil (string * list string)).
  induction table as [|[id' t] table IH]; intros acc I G; [easy|].
  cbn [fold_left snd]. destruct I as [E|I].
  - inversion E; subst. rewrite G.
    apply get_companies_news_keep; [apply dict_set_in_new | exact G].
  - now apply IH.
Qed.

Lemma fetch_company_fst articles_dict st company links :
  exists (lists : company_articles) (st' : session),
    fetch_company requests_get generate_content (articles_dict, st)
      (company, links) =
    (dict_set articles_dict (normalize_company_name company) lists, st') /\
    (links = [] -> lists = no_articles).
Proof.
  unfold fetch_company.
  destruct (fold_left (fetch_link requests_get generate_content company) links
              (no_articles, st)) as [lists st'] eqn:E.
  exists lists, st'. split; [reflexivity|].
  intros ->. cbn [fold_left] in E. now inversion E.
Qed.

(** An entry without articles stays one when no later company has its key
    and articles. *)
Lemma collect_keep key news_dict : forall acc,
  In (key, no_articles) (fst acc) ->
  (forall company links, In (company, links) news_dict ->
     normalize_company_name company = key -> links = []) ->
  In (key, no_articles)
     (fst (fold_left (fetch_company requests_get generate_content)
             news_dict acc)).
Proof.
  induction news_dict as [|[company links] rest IH]; intros [d st] I H;
    [exact I|].
  cbn [fold_left]. cbn [fst] in I.
  destruct (fetch_company_fst d st company links) as [lists [st' [E L]]].
  rewrite E. apply IH.
  - cbn [fst].
    destruct (String.eqb_spec key (normalize_company_name company)) as [->|Nk].
    + rewrite L by (apply (H company links); [now left | reflexivity]).
      apply dict_set_in_new.
    + now apply dict_set_in_old.
  - intros c l I'. apply H. now right.
Qed.

Lemma collect_in key company news_dict : forall acc,
  In (company, []) news_dict ->
  normalize_company_name company = key ->
  (forall company links, In (company, links) news_dict ->
     normalize_company_name company = key -> links = []) ->
  In (key, no_articles)
     (fst (fold_left (fetch_company requests_get generate_content)
             news_dict acc)).
Proof.
  induction news_dict as [|[c l] rest IH]; intros [d st] I K H; [easy|].
  cbn [fold_left].
  destruct (fetch_company_fst d st c l) as [lists [st' [E L]]]. rewrite E.
  destruct I as [I|I].
  - inversion I; subst. rewrite L by reflexivity.
    apply collect_keep; [apply dict_set_in_new|].
    intros c' l' I'. apply H. now right.
  - apply (IH _ I K). intros c' l' I'. apply H. now right.
Qed.

Lemma first_stock_in table title :
  In title (map snd table) -> exists id, first_stock table title = Some id.
Proof.
  induction table as [|[id t] table IH]; [easy|]. cbn [map snd first_stock].
  destruct (String.eqb_spec t title) as [->|Nt]; [now exists id|].
  intros [E|I]; [congruence | now apply IH].
Qed.

Lemma found_stocks_in (stocks : string -> option Z) dict key v id :
  In (key, v) dict -> stocks key = Some id ->
  In (id, v) (found_stocks stocks dict).
Proof.
  intros I S. induction dict as [|[k v'] dict IH]; [easy|].
  cbn [found_stocks]. destruct I as [E|I].
  - inversion E; subst. rewrite S. now left.
  - destruct (stocks k); [right|]; now apply IH.
Qed.

(** One found company without weight makes the loop of [save_compound]
    raise. *)
Lemma stock_compounds_raises (stocks : string -> option Z) dict id v :
  In (id, v) (found_stocks stocks dict) ->
  total_weight (rating_list v) = 0 ->
  exists e, stock_compounds stocks dict = Raise e.
Proof.
  intros I W. induction dict as [|[k v'] dict IH]; [easy|].
  cbn [found_stocks stock_compounds] in *.
  destruct (stocks k) as [id'|]; [|now apply IH].
  destruct (aggregate (rating_list v')) as [probs|e] eqn:A;
    [|now exists e].
  cbn [bind]. destruct I as [E|I].
  - inversion E; subst. unfold aggregate in A.
    rewrite (calc_compound_zero _ W) in A. discriminate.
  - destruct (IH I) as [e E]. rewrite E. now exists e.
Qed.

End NoNews.

(** X20: a stock without news stops the update.  When [get_news] yields no
    link for a stock whose title is its own normalized form, and no other
    stock has that normalized title, [fetch_article_content] ends with the
    exception of [save_compound]: the table [stock_compound] is left empty
    and [save_articles_news] is not reached, so that [stock_news] keeps its
    old rows, whatever articles the other stocks have. *)
Theorem fetch_article_content_no_news :
  forall (N : Nltk) (table : stock_table)
         (get_news : string -> option (list string))
         (requests_get : string -> fetched) (generate_content : nat -> backend)
         (st : session) (db : tables) (id : Z) (title : string),
    In (id, title) table ->
    get_news title = Some [] ->
    normalize_company_name title = title ->
    (forall title', In title' (map snd table) ->
       normalize_company_name title' = title -> title' = title) ->
    exists e st',
      fetch_article_content table get_news requests_get generate_content st db =
      (Raise e, {| compound_table := []; news_table := news_table db |}, st').
Proof.
  intros N table get_news requests_get generate_content st db id title
    I G K U.
  unfold fetch_article_content.
  pose proof (get_companies_news_in get_news table id title [] I G) as I1.
  assert (H : forall company links,
             In (company, links) (get_companies_news table get_news) ->
             normalize_company_name company = title -> links = []).
  { intros company links I2 E.
    apply get_companies_news_inv in I2. destruct I2 as [[]|[I2 G2]].
    rewrite (U company I2 E) in G2. congruence. }
  pose proof (collect_in requests_get generate_content title title
                (get_companies_news table get_news) ([], st) I1 K H) as I3.
  fold (collect_articles requests_get generate_content
          (get_companies_news table get_news) st) in I3.
  destruct (collect_articles requests_get generate_content
              (get_companies_news table get_news) st) as [articles_dict st'].
  cbn [fst] in I3.
  destruct (first_stock_in table title) as [id0 S].
  { apply in_map_iff. now exists (id, title). }
  pose proof (found_stocks_in _ _ _ _ _ I3 S) as I4.
  destruct (stock_compounds_raises _ _ _ _ I4 eq_refl) as [e E].
  exists e, st'. unfold save_compound. now rewrite E.
Qed.

Lemma fetch_article_content_no_news_witness :
  exists e st',
    @fetch_article_content whitespace_tokenizers
      [(1, "Apple"); (2, "Tesla")]
      (fun title => if String.eqb title "Apple" then Some ["link"] else Some [])
      (fun _ => Unreachable "timeout")
      (fun _ _ _ _ => Fails "429 Too Many Requests")
      {| models_now := []; dispatches := 0; events_so_far := [] |}
      {| compound_table := []; news_table := [] |} =
    (Raise e, {| compound_table := []; news_table := [] |}, st').
Proof.
  apply (fetch_article_content_no_news whitespace_tokenizers
           [(1, "Apple"); (2, "Tesla")] _ _ _ _
           {| compound_table := []; news_table := [] |} 2 "Tesla").
  - right. left. reflexivity.
  - reflexivity.
  - reflexivity.
  - intros title' [<-|[<-|[]]]; [discriminate | reflexivity].
Defined.

(** ** The table of the stocks *)

Section Currencies.

Context {V : Type}.
Variable history : string -> option V.

Lemma dict_set_keys {W : Type} (d : list (string * W)) k v :
  forall k', In k' (map fst (dict_set d k v)) -> In k' (map fst d) \/ k' = k.
Proof.
  intros k' H. apply in_map_iff in H. destruct H as [[k0 v0] [<- H]].
  apply dict_set_in_inv in H. destruct H as [H | [-> _]]; [left|now right].
  apply in_map_iff. now exists (k0, v0).
Qed.

Lemma dict_set_NoDup {W : Type} (d : list (string * W)) k v :
  NoDup (map fst d) -> NoDup (map fst (dict_set d k v)).
Proof.
  induction d as [|[k0 v0] d IH]; cbn [dict_set map fst]; intros H.
  - constructor; [easy | constructor].
  - inversion H as [|x l Hn Hd]; subst.
    destruct (String.eqb_spec k0 k) as [->|Nk].
    + cbn [map fst]. now constructor.
    + cbn [map fst]. constructor; [|now apply IH].
      intros I. apply dict_set_keys in I. destruct I as [I|I]; congruence.
Qed.

Lemma currencies_loop_keys rows : forall acc companies_dict,
  currencies_loop history rows acc = Some companies_dict ->
  NoDup (map fst acc) ->
  NoDup (map fst companies_dict) /\
  forall k, In k (map fst companies_dict) ->
            In k (map fst acc) \/ company_key rows k.
Proof.
  induction rows as [|r rows IH]; intros acc companies_dict H Hn.
  - inversion H; subst. split; [exact Hn | now left].
  - cbn [currencies_loop] in H.
    assert (S : forall acc', currencies_loop history rows acc' = Some companies_dict ->
                  NoDup (map fst acc') ->
                  (forall k, In k (map fst acc') ->
                             In k (map fst acc) \/ company_key (r :: rows) k) ->
                  NoDup (map fst companies_dict) /\
                  forall k, In k (map fst companies_dict) ->
                            In k (map fst acc) \/ company_key (r :: rows) k).
    { intros acc' H' Hn' K. destruct (IH acc' companies_dict H' Hn') as [A B].
      split; [exact A|]. intros k I. destruct (B k I) as [I'|[Hk [r' [Ir G]]]].
      - now apply K.
      - right. split; [exact Hk|]. exists r'. split; [now right | exact G]. }
    destruct (get_company_name (company_cell r)) as [[|c name]|] eqn:G.
    + apply (S acc H Hn). now left.
    + destruct (span r) as [[|first change_cell]|]; try discriminate;
        destruct (change_pct_cell r) as [change_prc_cell|]; try discriminate.
      destruct (get_stock_name r) as [[|c' stock_name]|].
      * apply (S acc H Hn). now left.
      * destruct (history (String c' stock_name)) as [stock_history|];
          [|discriminate].
        apply (S _ H); [now apply dict_set_NoDup|].
        intros k I. apply dict_set_keys in I. destruct I as [I | ->]; [now left|].
        right. split; [discriminate|]. exists r. split; [now left | exact G].
      * apply (S acc H Hn). now left.
    + apply (S acc H Hn). now left.
Qed.

(** One broken row loses the whole dictionary. *)
Lemma currencies_loop_broken rows : forall acc,
  Exists (fun r => named r && broken history r = true) rows ->
  currencies_loop history rows acc = None.
Proof.
  induction rows as [|r rows IH]; intros acc H; [inversion H|].
  cbn [currencies_loop].
  assert (T : forall acc', named r && broken history r = false ->
                currencies_loop history rows acc' = None).
  { intros acc' F. apply IH. inversion H as [x l B|x l B]; subst;
      [congruence | exact B]. }
  unfold named, broken in *.
  destruct (get_company_name (company_cell r)) as [[|c name]|];
    [now apply T | | now apply T].
  destruct (span r) as [[|first change_cell]|]; try reflexivity;
    destruct (change_pct_cell r) as [change_prc_cell|]; try reflexivity.
  destruct (get_stock_name r) as [[|c' stock_name]|];
    [now apply T | | now apply T].
  destruct (history (String c' stock_name)); [now apply T | reflexivity].
Qed.

Lemma numbered_titles titles : forall next,
  map snd (numbered next titles) = titles.
Proof.
  induction titles as [|t titles IH]; intros next; [reflexivity|].
  cbn [numbered map snd]. now rewrite IH.
Qed.

End Currencies.

(** X22: the titles [update_companies] stores in [Stock] are distinct and
    not empty, and each is what [get_company_name] makes of the company cell
    of a row of the page, whatever the page holds. *)
Theorem update_companies_titles :
  forall (V : Type) (history : string -> option V)
         (page : option (list row)) (table : stock_table),
    let titles := map snd (update_companies history page table) in
    NoDup titles /\
    forall title, In title titles ->
      title <> "" /\
      exists rows r, page = Some rows /\ In r rows /\
                     get_company_name (company_cell r) = Some title.
Proof.
  intros V history page table titles. subst titles.
  unfold update_companies. rewrite numbered_titles. unfold get_currencies.
  destruct page as [[|r rows]|]; try (split; [constructor | easy]).
  destruct (currencies_loop history (r :: rows) []) as [companies_dict|] eqn:E;
    [|split; [constructor | easy]].
  destruct (currencies_loop_keys history _ _ _ E (NoDup_nil _)) as [A B].
  split; [exact A|]. intros title I.
  destruct (B title I) as [F|[Hk [r' [Ir G]]]]; [destruct F|].
  split; [exact Hk|]. now exists (r :: rows), r'.
Qed.

(** X23: one row that has a company name but cannot be handled (no change,
    no change in per cent, or no prices for its ticker) makes
    [get_currencies] return the empty dictionary, and [update_companies],
    which has cleared [Stock] before, leaves the table empty, also for the
    rows that were in order. *)
Theorem update_companies_all_or_nothing :
  forall (V : Type) (history : string -> option V) (rows : list row)
         (table : stock_table),
    Exists (fun r => named r && broken history r = true) rows ->
    get_currencies history (Some rows) = [] /\
    update_companies history (Some rows) table = [].
Proof.
  intros V history rows table H.
  assert (E : get_currencies history (Some rows) = []).
  { unfold get_currencies. destruct rows as [|r rows]; [reflexivity|].
    now rewrite (currencies_loop_broken history _ [] H). }
  split; [exact E|]. unfold update_companies. now rewrite E.
Qed.

Lemma update_companies_all_or_nothing_witness :
  get_currencies (fun _ => Some tt) (Some [good_row; bad_row]) = [] /\
  update_companies (fun _ => Some tt) (Some [good_row; bad_row]) [(7, "Old")] = [].
Proof.
  apply (update_companies_all_or_nothing unit (fun _ => Some tt)
           [good_row; bad_row] [(7, "Old")]).
  apply Exists_cons_tl, Exists_cons_hd. reflexivity.
Defined.

(** ** What the dispatcher returns *)

Section DispatcherReturns.

Variable generate_content : backend.
Variable request : string.

Lemma attempt_loop_returns range : forall delay models events,
  match returned (attempt_loop generate_content request range delay models
                    events) with
  | Ok (Some r) =>
      exists k m, In k range /\ generate_content k m request = Returns (Some r)
  | Ok None =>
      attempts_made
        (trace (attempt_loop generate_content request range delay models
                  events)) =
      (attempts_made events + List.length range)%nat
  | Raise _ => True
  end.
Proof.
  induction range as [|attempt range IH]; intros delay models events.
  - cbn [attempt_loop returned trace List.length].
    rewrite attempts_made_app. cbn [attempts_made]. lia.
  - cbn [attempt_loop].
    destruct (pop models) as [[m models']|e']; [|exact I].
    destruct (generate_content attempt m request) as [[r|]|msg] eqn:G.
    + cbn [returned]. exists attempt, m. split; [now left | exact G].
    + specialize (IH delay models' (events ++ [LogAttempt (attempt + 1)])%list).
      destruct (returned (attempt_loop generate_content request range delay
                            models' (events ++ [LogAttempt (attempt + 1)])%list))
        as [[r|]|e]; [| |exact I].
      * destruct IH as [k [m' [In' G']]]. exists k, m'. split; [now right|exact G'].
      * rewrite IH, attempts_made_app. cbn [attempts_made List.length]. lia.
    + destruct (contains "429" msg); [|exact I].
      specialize (IH (delay + backoff_factor) (models' ++ [m])%list
                    ((events ++ [LogAttempt (attempt + 1)]) ++
                     [Log429 delay; Sleep delay])%list).
      destruct (returned (attempt_loop generate_content request range
                            (delay + backoff_factor) (models' ++ [m])%list
                            ((events ++ [LogAttempt (attempt + 1)]) ++
                             [Log429 delay; Sleep delay])%list))
        as [[r|]|e]; [| |exact I].
      * destruct IH as [k [m' [In' G']]]. exists k, m'. split; [now right|exact G'].
      * rewrite IH, !attempts_made_app. cbn [attempts_made List.length]. lia.
Qed.

End DispatcherReturns.

(** X24: a response [request_processing] returns is one the backend gave at
    one of the six attempts, and [None] is returned only when all six
    attempts have been made. *)
Theorem request_processing_returns :
  forall (generate_content : backend) (request : string) (models : list model),
    let out := request_processing generate_content request models in
    match returned out with
    | Ok (Some r) =>
        exists k m, (k < max_retries)%nat /\
                    generate_content k m request = Returns (Some r)
    | Ok None => attempts_made (trace out) = max_retries
    | Raise _ => True
    end.
Proof.
  intros generate_content request models out. subst out.
  unfold request_processing.
  destruct (populate models) as [models' events] eqn:P.
  pose proof (attempt_loop_returns generate_content request
                (seq 0 max_retries) 10 models' events) as H.
  destruct (returned (attempt_loop generate_content request (seq 0 max_retries)
                        10 models' events)) as [[r|]|e]; [| |exact I].
  - destruct H as [k [m [In' G]]]. exists k, m. split; [|exact G].
    apply in_seq in In'. lia.
  - rewrite H, length_seq.
    replace (attempts_made events) with O; [reflexivity|].
    destruct models; inversion P; reflexivity.
Qed.

(** ** A run that saves *)

Section Saving.

Lemma zip4_in {A B C D : Type} (a : list A) : forall (b : list B) (c : list C)
  (d : list D) x y z w,
  In (x, y, z, w) (zip4 a b c d) -> In x a /\ In y b /\ In z c /\ In w d.
Proof.
  induction a as [|x0 a IH]; intros b c d x y z w H; [destruct H|].
  destruct b as [|y0 b]; [destruct H|]. destruct c as [|z0 c]; [destruct H|].
  destruct d as [|w0 d]; [destruct H|]. cbn [zip4] in H.
  destruct H as [E|H].
  - inversion E; subst. repeat split; now left.
  - destruct (IH b c d x y z w H) as [Hx [Hy [Hz Hw]]].
    repeat split; now right.
Qed.

Lemma valid_rating_int32 r :
  valid_rating r ->
  int32 (Decrease_Probability r) && int32 (Increase_Probability r) &&
  int32 (Informativeness r) = true.
Proof.
  intros [D [I W]]. unfold int32.
  repeat (apply andb_true_intro; split); apply Z.leb_le; lia.
Qed.

(** Ratings in range with headlines and links within the column lengths
    give rows the database takes. *)
Lemma stock_news_fits (stocks : string -> option Z) dict :
  valid_articles dict ->
  Forall (fun entry => fits_columns (snd entry)) dict ->
  forallb news_row_fits (stock_news stocks dict) = true.
Proof.
  intros V F. apply forallb_forall. intros one_news H.
  unfold stock_news in H. apply in_flat_map in H.
  destruct H as [[company v] [Hd H]].
  apply in_flat_map in H. destruct H as [[[[t l] sm] r] [Hz H]].
  apply zip4_in in Hz. destruct Hz as [Ht [Hl [_ Hr]]].
  unfold valid_articles in V. rewrite Forall_forall in V, F.
  specialize (V _ Hd). specialize (F _ Hd). cbn [snd] in V, F.
  destruct F as [Ft Fl]. rewrite Forall_forall in V, Ft, Fl.
  destruct (stocks company) as [id|]; [|destruct H].
  destruct H as [<-|[]]. unfold news_row_fits.
  cbn [News.title News.link News.decrease News.increase News.informativeness].
  rewrite (proj2 (Nat.leb_le _ _) (Ft _ Ht)), (proj2 (Nat.leb_le _ _) (Fl _ Hl)).
  cbn [andb]. apply valid_rating_int32, V, Hr.
Qed.

End Saving.

(** X25: when the ratings collected are in range, with positive total
    informativeness for each company found in [Stock], and the headlines and
    links fit the columns of [StockNews], [fetch_article_content] raises
    nothing and replaces both tables: one compound row per found company, and
    one news row per rating of these companies. *)
Theorem fetch_article_content_saves :
  forall (N : Nltk) (table : stock_table)
         (get_news : string -> option (list string))
         (requests_get : string -> fetched) (generate_content : nat -> backend)
         (st : session) (db : tables),
    let collected :=
      collect_articles requests_get generate_content
        (get_companies_news table get_news) st in
    let found := found_stocks (first_stock table) (fst collected) in
    valid_articles (fst collected) ->
    Forall (fun entry => 0 < total_weight (rating_list (snd entry))) found ->
    Forall (fun entry => fits_columns (snd entry)) (fst collected) ->
    fetch_article_content table get_news requests_get generate_content st db =
    (Ok tt,
     {| compound_table := map compound_row found;
        news_table := stock_news (first_stock table) (fst collected) |},
     snd collected) /\
    List.length (stock_news (first_stock table) (fst collected)) =
    list_sum (map (fun entry => List.length (rating_list (snd entry))) found).
Proof.
  intros N table get_news requests_get generate_content st db collected found
    V P F.
  pose proof (collect_articles_well_formed requests_get generate_content
                (get_companies_news table get_news) st) as W.
  fold collected in W. split.
  - unfold fetch_article_content. fold collected.
    subst found. destruct collected as [articles_dict st']. cbn [fst snd] in *.
    unfold save_compound, save_articles_news.
    rewrite (stock_compounds_rows (first_stock table) articles_dict V P).
    rewrite (stock_news_fits (first_stock table) articles_dict V F).
    reflexivity.
  - apply stock_news_length. eapply Forall_impl; [|exact W].
    now intros entry [A _].
Qed.

Lemma fetch_article_content_saves_witness :
  let collected :=
    @collect_articles whitespace_tokenizers (fun _ => apple_page) apple_backend
      (get_companies_news apple_table (fun _ => Some ["link"])) fresh_session in
  let found := found_stocks (first_stock apple_table) (fst collected) in
  @fetch_article_content whitespace_tokenizers apple_table
    (fun _ => Some ["link"]) (fun _ => apple_page) apple_backend fresh_session
    {| compound_table := []; news_table := [] |} =
  (Ok tt,
   {| compound_table := map compound_row found;
      news_table := stock_news (first_stock apple_table) (fst collected) |},
   snd collected) /\
  List.length (stock_news (first_stock apple_table) (fst collected)) =
  list_sum (map (fun entry => List.length (rating_list (snd entry))) found).
Proof.
  apply (fetch_article_content_saves whitespace_tokenizers apple_table
           (fun _ => Some ["link"]) (fun _ => apple_page) apple_backend
           fresh_session {| compound_table := []; news_table := [] |}).
  - vm_compute. repeat constructor; discriminate.
  - vm_compute. repeat constructor.
  - constructor; [|constructor]. split.
    + constructor; [|constructor]. apply Nat.leb_le. reflexivity.
    + constructor; [|constructor]. apply Nat.leb_le. reflexivity.
Defined.

(** The run with this stock, page and backend: the row of the compound table
    and the row of the news table. *)
Example fetch_article_content_apple :
  fst (fst (@fetch_article_content whitespace_tokenizers apple_table
              (fun _ => Some ["link"]) (fun _ => apple_page) apple_backend
              fresh_session {| compound_table := []; news_table := [] |})) =
  Ok tt /\
  snd (fst (@fetch_article_content whitespace_tokenizers apple_table
              (fun _ => Some ["link"]) (fun _ => apple_page) apple_backend
              fresh_session {| compound_table := []; news_table := [] |})) =
  {| compound_table :=
       [ {| stock_id := 1; fall_probability := (30 # 1)%Q;
            rise_probability := (70 # 1)%Q |} ];
     news_table :=
       [ {| News.stock_id := 1;
            News.title := "Apple beats the forecast";
            News.link := "link";
            News.summary := "Apple rose.";
            News.decrease := 30;
            News.increase := 70;
            News.informativeness := 80 |} ] |}.
Proof. split; vm_compute; reflexivity. Qed.
